(** * LogisticsRouteOptimizer: a shallow embedding of the two contracts

    The repository ships two versions of the confidential route-optimisation
    contract:

    - [contracts/LogisticsRouteOptimizer.sol], embedded in [Module Core]:
      array inputs, [require] with reason strings, Manhattan accumulation,
      access grants, no pause machinery;
    - [examples/logistics-optimizer/contracts/LogisticsRouteOptimizer.sol],
      embedded in [Module Pausable]: scalar inputs, custom errors, owner /
      pauser roles, global pause flag, [finalizeRoute].

    Solidity values are modelled as follows: [uintN] and [address] are [Z]
    with the checked arithmetic of Solidity 0.8 written out (an overflow is
    [Panic 0x11]); a [mapping] is a [gmap] read with the type's zero value as
    default; a [for] loop is a fuelled recursion; a call either returns
    [Ok] with the new state or [Fail]s, in which case the transaction layer
    ([step]) keeps the old state.  Ciphertext handles of the FHE library are
    symbolic terms recording the operations that produced them; the calls
    the library makes into the fhEVM host contracts (executor, access
    control, HCU limit) can fail and are modelled with their checks. *)

From stdpp Require Import gmap strings list fin_maps.

Open Scope Z_scope.

(** ** Machine integers and addresses *)

Definition address := Z.
Definition address_zero : address := 0.

Definition uint8_max : Z := 255.
Definition uint32_max : Z := 4294967295.

(** ** Failures and the result monad *)

(** Custom errors declared by the pausable contract. *)
Inductive custom_error :=
| NotAuthorized
| NotYourRoute
| CoordinateArraysMismatch
| PriorityArrayMismatch
| NoLocationsProvided
| RouteAlreadyProcessed
| InvalidRoute
| InvalidLocationIndex
| LocationAlreadyCompleted
| RouteNotProcessed
| ContractPaused
| NotPauser
| AlreadyPauser
| InvalidAddress.

(** Reverts raised by the fhEVM host contracts behind the FHE library. *)
Inductive fhevm_error :=
| CoprocessorNotSet                  (* no coprocessor configured: the call goes to address(0) *)
| ACLNotAllowed                      (* executor: the calling contract may not use an operand *)
| HCUTransactionDepthLimitExceeded.  (* HCU limit: the operation chain is too deep *)

Inductive failure :=
| Revert (reason : string)      (* require(cond, reason) *)
| Custom (e : custom_error)     (* revert E() *)
| Panic (code : Z)              (* 0x11 arithmetic overflow, 0x32 array index *)
| Fhevm (e : fhevm_error)       (* revert inside a call of the FHE library *)
| OutOfFuel.                    (* artefact of the fuelled loops, never returned *)

Inductive result (A : Type) :=
| Ok (a : A)
| Fail (f : failure).
Arguments Ok {A} a.
Arguments Fail {A} f.

#[export] Instance result_ret : MRet result := fun A a => Ok a.
#[export] Instance result_bind : MBind result :=
  fun A B f m => match m with Ok a => f a | Fail e => Fail e end.

Definition require (b : bool) (reason : string) : result unit :=
  if b then Ok tt else Fail (Revert reason).

Definition revert_if (b : bool) (e : custom_error) : result unit :=
  if b then Fail (Custom e) else Ok tt.

Definition is_ok {A} (r : result A) : bool :=
  match r with Ok _ => true | Fail _ => false end.

(** The reason strings of the core contract next to the custom errors that
    the pausable contract uses for the same checks. *)
Definition reason_of (e : custom_error) : option string :=
  match e with
  | NotAuthorized => Some "Not authorized"
  | NotYourRoute => Some "Not your route"
  | CoordinateArraysMismatch => Some "Coordinate arrays must match"
  | PriorityArrayMismatch => Some "Priority array must match"
  | NoLocationsProvided => Some "Must have at least one location"
  | RouteAlreadyProcessed => Some "Route already processed"
  | InvalidRoute => Some "Invalid route"
  | InvalidLocationIndex => Some "Invalid location index"
  | LocationAlreadyCompleted => Some "Location already completed"
  | RouteNotProcessed => Some "Route not processed"
  | ContractPaused | NotPauser | AlreadyPauser | InvalidAddress => None
  end.

(** Checked arithmetic of Solidity 0.8 on an unsigned type with maximum [max]. *)
Definition checked_add (max a b : Z) : result Z :=
  if a + b <=? max then Ok (a + b) else Fail (Panic 17).

Definition checked_sub (a b : Z) : result Z :=
  if b <=? a then Ok (a - b) else Fail (Panic 17).

(** Bounds-checked read of a memory array. *)
Definition index (a : list Z) (i : Z) : result Z :=
  match a !! Z.to_nat i with
  | Some v => Ok v
  | None => Fail (Panic 50)
  end.

(** Explicit conversion [uint32(x)] of a wider unsigned value: truncation. *)
Definition to_uint32 (x : Z) : Z := x mod (uint32_max + 1).

(** ** [for (uint8 i = 0; i < bound; i++) body]

    The counter is a [uint8], the bound a wider unsigned value.  The
    increment is checked: leaving iteration 255 panics. *)
Fixpoint for_uint8_from {S : Type} (fuel : nat) (bound i : Z)
    (body : Z -> S -> result S) (s : S) : result S :=
  match fuel with
  | O => Fail OutOfFuel
  | Datatypes.S fuel' =>
      if i <? bound then
        s' ← body i s;
        i' ← checked_add uint8_max i 1;
        for_uint8_from fuel' bound i' body s'
      else Ok s
  end.

Definition for_uint8 {S : Type} (bound : Z) (body : Z -> S -> result S) (s : S)
    : result S :=
  for_uint8_from 257 bound 0 body s.

(** ** The route-order loop

    [uint8[] memory order = new uint8[](locationCount);
     for (uint8 i = 0; i < locationCount; i++) order[i] = i;]
    It is [_generateRouteOrder] in the core contract and is written inline
    in [processRouteOptimization] of the pausable one: a fresh zero-filled
    memory array, filled in place with bounds-checked writes. *)
Definition fill_order (locationCount : Z) : result (list Z) :=
  let order := replicate (Z.to_nat locationCount) 0 in
  for_uint8 locationCount
    (fun i order =>
       if bool_decide (Z.to_nat i < length order)%nat
       then Ok (<[Z.to_nat i := i]> order)
       else Fail (Panic 50))
    order.

(** ** The FHE library: handles

    [@fhevm/solidity/lib/FHE.sol] is an external dependency.  A handle is
    modelled by the term that produced it: trivial encryptions of a
    plaintext, and the homomorphic operations the contracts call.  The
    executor derives a handle from the operation and its operands alone, so
    equal terms are equal handles.  [uninit] is the zero handle read from a
    storage slot that was never written.  Decryption interprets the
    operations modulo the bit width. *)
Module FHE.

Inductive euint32 :=
| uninit32
| asEuint32 (v : Z)
| add (a b : euint32)
| sub (a b : euint32)
| mul (a b : euint32).

Inductive euint8 :=
| uninit8
| asEuint8 (v : Z).

Inductive euint64 :=
| uninit64
| trivial64 (v : Z)              (* asEuint64 of a plaintext *)
| asEuint64 (a : euint32)        (* asEuint64 of an euint32: a cast *)
| mul64 (a b : euint64).

Fixpoint decrypt32 (c : euint32) : Z :=
  match c with
  | uninit32 => 0
  | asEuint32 v => v mod 2 ^ 32
  | add a b => (decrypt32 a + decrypt32 b) mod 2 ^ 32
  | sub a b => (decrypt32 a - decrypt32 b) mod 2 ^ 32
  | mul a b => (decrypt32 a * decrypt32 b) mod 2 ^ 32
  end.

Definition decrypt8 (c : euint8) : Z :=
  match c with
  | uninit8 => 0
  | asEuint8 v => v mod 2 ^ 8
  end.

Fixpoint decrypt64 (c : euint64) : Z :=
  match c with
  | uninit64 => 0
  | trivial64 v => v mod 2 ^ 64
  | asEuint64 a => decrypt32 a
  | mul64 a b => (decrypt64 a * decrypt64 b) mod 2 ^ 64
  end.

(** The operand [add], [sub] and [mul] work on: a handle that was never
    written is replaced by a trivial encryption of 0. *)
Definition initialized (a : euint32) : euint32 :=
  match a with
  | uninit32 => asEuint32 0
  | _ => a
  end.

(** Number of homomorphic subtractions and additions in a handle. *)
Fixpoint count_sub (c : euint32) : nat :=
  match c with
  | uninit32 | asEuint32 _ => 0
  | add a b | mul a b => count_sub a + count_sub b
  | sub a b => Datatypes.S (count_sub a + count_sub b)
  end%nat.

Fixpoint count_add (c : euint32) : nat :=
  match c with
  | uninit32 | asEuint32 _ => 0
  | sub a b | mul a b => count_add a + count_add b
  | add a b => Datatypes.S (count_add a + count_add b)
  end%nat.

(** The access-control list: who may use or decrypt which handle. *)
Inductive handle :=
| H32 (c : euint32)
| H8 (c : euint8)
| H64 (c : euint64).

Inductive grantee :=
| This                      (* address(this), granted by allowThis *)
| Account (a : address).    (* granted by allow(h, a) *)

#[global] Instance euint32_eq_dec : EqDecision euint32.
Proof. solve_decision. Defined.
#[global] Instance euint8_eq_dec : EqDecision euint8.
Proof. solve_decision. Defined.
#[global] Instance euint64_eq_dec : EqDecision euint64.
Proof. solve_decision. Defined.
#[global] Instance handle_eq_dec : EqDecision handle.
Proof. solve_decision. Defined.
#[global] Instance grantee_eq_dec : EqDecision grantee.
Proof. solve_decision. Defined.

Definition acl := list (handle * grantee).

Definition allow (h : handle) (a : address) (l : acl) : acl := (h, Account a) :: l.
Definition allowThis (h : handle) (l : acl) : acl := (h, This) :: l.

Definition isAllowed (h : handle) (g : grantee) (l : acl) : bool :=
  bool_decide ((h, g) ∈ l).

End FHE.

(** ** The FHE library: calls into the host contracts

    Every operation of the library is a call from the contract to the
    executor whose address [FHE.setCoprocessor] stored in the contract's own
    storage.  Three things can make such a call revert, and they are
    modelled here:

    - no coprocessor was configured: the address is zero and the call
      reverts ([CoprocessorNotSet]);
    - the executor asks the access-control list whether the calling contract
      may use each operand: it may if the handle was granted to it
      persistently ([FHE.allowThis]) or was produced by the executor earlier
      in the same transaction (a transient allowance); otherwise the call
      reverts ([ACLNotAllowed]);
    - the HCU limit: every handle produced in a transaction carries the
      depth of the operation chain behind it, the price of the operation plus
      the larger depth of its operands, a handle that comes from storage
      counting 0; a result whose depth reaches the limit reverts
      ([HCUTransactionDepthLimitExceeded]).

    The prices and the limit are constants of the host contracts, which are
    not part of the repository.  A trivial encryption and a cast cost a few
    dozen units, below a thousandth of an addition, and cannot move a chain
    across the limit: they are counted as 0.  The limit on the sum over a
    transaction (four times the depth limit) is not reached by any chain
    that passes the depth check in these contracts and is not modelled; nor
    is gas.

    Transient allowances and depths live for one transaction: [tx] is that
    bookkeeping, and each call of an entry point starts from [tx_begin].
    The sender check of [ACL.allow] is not modelled: both contracts grant
    only handles produced in the same transaction, on which the contract is
    transiently allowed. *)
Module Fhevm.

Definition HCU_DEPTH_LIMIT : Z := 5000000.
Definition hcu_add32 : Z := 125000.
Definition hcu_sub32 : Z := 125000.
Definition hcu_mul32 : Z := 328000.
Definition hcu_mul64 : Z := 596000.

(** What the library finds when it calls out: whether the contract has a
    coprocessor configured, and the persistent access-control list. *)
Record env := mk_env {
  configured : bool;
  persisted : FHE.acl
}.

Record tx := mk_tx {
  transient : list FHE.handle;
  hcu : FHE.handle → Z
}.

Definition tx_begin : tx := mk_tx [] (fun _ => 0).

(** The executor hands out [h] with depth [d]. *)
Definition produced (h : FHE.handle) (d : Z) (t : tx) : tx :=
  mk_tx (h :: transient t) (fun h' => if decide (h' = h) then d else hcu t h').

Definition coprocessor (e : env) : result unit :=
  if configured e then Ok tt else Fail (Fhevm CoprocessorNotSet).

(** [acl.isAllowed(handle, msg.sender)], the sender being the contract. *)
Definition isAllowed (e : env) (t : tx) (h : FHE.handle) : bool :=
  bool_decide (h ∈ transient t) || FHE.isAllowed h FHE.This (persisted e).

Definition operand (e : env) (t : tx) (h : FHE.handle) : result unit :=
  if isAllowed e t h then Ok tt else Fail (Fhevm ACLNotAllowed).

Definition checkHCU (d : Z) : result unit :=
  if HCU_DEPTH_LIMIT <=? d then Fail (Fhevm HCUTransactionDepthLimitExceeded)
  else Ok tt.

(** *** The executor *)

Definition trivialEncrypt32 (e : env) (v : Z) (t : tx) : result (FHE.euint32 * tx) :=
  _ ← coprocessor e;
  Ok (FHE.asEuint32 v, produced (FHE.H32 (FHE.asEuint32 v)) 0 t).

Definition trivialEncrypt8 (e : env) (v : Z) (t : tx) : result (FHE.euint8 * tx) :=
  _ ← coprocessor e;
  Ok (FHE.asEuint8 v, produced (FHE.H8 (FHE.asEuint8 v)) 0 t).

(** A binary operation on two [euint32] handles, neither of them a scalar. *)
Definition binary32 (price : Z) (op : FHE.euint32 → FHE.euint32 → FHE.euint32)
    (e : env) (lhs rhs : FHE.euint32) (t : tx) : result (FHE.euint32 * tx) :=
  _ ← coprocessor e;
  _ ← operand e t (FHE.H32 lhs);
  _ ← operand e t (FHE.H32 rhs);
  let d := price + Z.max (hcu t (FHE.H32 lhs)) (hcu t (FHE.H32 rhs)) in
  _ ← checkHCU d;
  Ok (op lhs rhs, produced (FHE.H32 (op lhs rhs)) d t).

Definition fheAdd := binary32 hcu_add32 FHE.add.
Definition fheSub := binary32 hcu_sub32 FHE.sub.
Definition fheMul := binary32 hcu_mul32 FHE.mul.

Definition fheMul64 (e : env) (lhs rhs : FHE.euint64) (t : tx)
    : result (FHE.euint64 * tx) :=
  _ ← coprocessor e;
  _ ← operand e t (FHE.H64 lhs);
  _ ← operand e t (FHE.H64 rhs);
  let d := hcu_mul64 + Z.max (hcu t (FHE.H64 lhs)) (hcu t (FHE.H64 rhs)) in
  _ ← checkHCU d;
  Ok (FHE.mul64 lhs rhs, produced (FHE.H64 (FHE.mul64 lhs rhs)) d t).

(** [cast] of an [euint32] handle to [euint64]. *)
Definition cast64 (e : env) (ct : FHE.euint32) (t : tx) : result (FHE.euint64 * tx) :=
  _ ← coprocessor e;
  _ ← operand e t (FHE.H32 ct);
  let d := hcu t (FHE.H32 ct) in
  _ ← checkHCU d;
  Ok (FHE.asEuint64 ct, produced (FHE.H64 (FHE.asEuint64 ct)) d t).

(** *** The library functions the contracts call *)

Definition asEuint32 := trivialEncrypt32.
Definition asEuint8 := trivialEncrypt8.
Definition asEuint64 := cast64.

(** [if (!isInitialized(a)) a = asEuint32(0);] at the head of [add], [sub]
    and [mul]. *)
Definition initialized32 (e : env) (a : FHE.euint32) (t : tx)
    : result (FHE.euint32 * tx) :=
  match a with
  | FHE.uninit32 => asEuint32 e 0 t
  | _ => Ok (a, t)
  end.

Definition initialized64 (e : env) (a : FHE.euint64) (t : tx)
    : result (FHE.euint64 * tx) :=
  match a with
  | FHE.uninit64 =>
      _ ← coprocessor e;
      Ok (FHE.trivial64 0, produced (FHE.H64 (FHE.trivial64 0)) 0 t)
  | _ => Ok (a, t)
  end.

Definition add (e : env) (a b : FHE.euint32) (t : tx) : result (FHE.euint32 * tx) :=
  '(a, t) ← initialized32 e a t;
  '(b, t) ← initialized32 e b t;
  fheAdd e a b t.

Definition sub (e : env) (a b : FHE.euint32) (t : tx) : result (FHE.euint32 * tx) :=
  '(a, t) ← initialized32 e a t;
  '(b, t) ← initialized32 e b t;
  fheSub e a b t.

Definition mul (e : env) (a b : FHE.euint32) (t : tx) : result (FHE.euint32 * tx) :=
  '(a, t) ← initialized32 e a t;
  '(b, t) ← initialized32 e b t;
  fheMul e a b t.

Definition mul64 (e : env) (a b : FHE.euint64) (t : tx) : result (FHE.euint64 * tx) :=
  '(a, t) ← initialized64 e a t;
  '(b, t) ← initialized64 e b t;
  fheMul64 e a b t.

End Fhevm.

(** ** Call context *)

Record msg := mk_msg {
  msg_sender : address;
  block_timestamp : Z;
  block_number : Z
}.

(** * The core contract: [contracts/LogisticsRouteOptimizer.sol] *)
Module Core.

Module DeliveryLocation.
Record t := mk {
  encryptedX : FHE.euint32;
  encryptedY : FHE.euint32;
  priority : FHE.euint8;
  isActive : bool
}.
Definition zero : t := mk FHE.uninit32 FHE.uninit32 FHE.uninit8 false.
End DeliveryLocation.

Module RouteRequest.
Record t := mk {
  requester : address;
  locationCount : Z;
  maxTravelDistance : FHE.euint32;
  vehicleCapacity : FHE.euint8;
  processed : bool;
  optimizedRouteId : Z;
  timestamp : Z
}.
Definition zero : t := mk address_zero 0 FHE.uninit32 FHE.uninit8 false 0 0.
End RouteRequest.

Module OptimizedRoute.
Record t := mk {
  routeId : Z;
  requester : address;
  totalDistance : FHE.euint32;
  estimatedTime : FHE.euint8;
  isConfidential : bool;
  createdAt : Z;
  locationOrder : list Z
}.
Definition zero : t := mk 0 address_zero FHE.uninit32 FHE.uninit8 false 0 [].
End OptimizedRoute.

Inductive event :=
| RouteRequested (routeId : Z) (requester : address) (locationCount : Z)
| RouteOptimized (routeId : Z) (requester : address) (totalDistance : Z)
| DeliveryCompleted (routeId : Z) (locationIndex : Z).

(** Contract storage, together with the two pieces of chain state the
    contract writes to: the access-control list of the FHE library and the
    event log (most recent event first).  The contract inherits
    [SepoliaConfig], whose constructor stores the coprocessor addresses;
    nothing overwrites them, so the contract is configured in every state
    and the storage slots are not represented. *)
Record state := mk_state {
  owner : address;
  routeCounter : Z;
  routeRequests : gmap Z RouteRequest.t;
  routeLocations : gmap (Z * Z) DeliveryLocation.t;
  optimizedRoutes : gmap Z OptimizedRoute.t;
  userRoutes : gmap Z (list Z);
  acl : FHE.acl;
  log : list event
}.

(** Reads of a mapping return the zero value for an absent key. *)
Definition request_at (s : state) (routeId : Z) : RouteRequest.t :=
  default RouteRequest.zero (routeRequests s !! routeId).

Definition location_at (s : state) (routeId i : Z) : DeliveryLocation.t :=
  default DeliveryLocation.zero (routeLocations s !! (routeId, i)).

Definition optimized_at (s : state) (routeId : Z) : OptimizedRoute.t :=
  default OptimizedRoute.zero (optimizedRoutes s !! routeId).

Definition routes_of (s : state) (user : address) : list Z :=
  default [] (userRoutes s !! user).

(** Field updates. *)
Definition set_routeCounter (v : Z) (s : state) : state :=
  mk_state (owner s) v (routeRequests s) (routeLocations s)
    (optimizedRoutes s) (userRoutes s) (acl s) (log s).

Definition set_request (routeId : Z) (r : RouteRequest.t) (s : state) : state :=
  mk_state (owner s) (routeCounter s) (<[routeId := r]> (routeRequests s))
    (routeLocations s) (optimizedRoutes s) (userRoutes s) (acl s) (log s).

Definition set_location (routeId i : Z) (l : DeliveryLocation.t) (s : state) : state :=
  mk_state (owner s) (routeCounter s) (routeRequests s)
    (<[(routeId, i) := l]> (routeLocations s))
    (optimizedRoutes s) (userRoutes s) (acl s) (log s).

Definition set_optimized (routeId : Z) (o : OptimizedRoute.t) (s : state) : state :=
  mk_state (owner s) (routeCounter s) (routeRequests s) (routeLocations s)
    (<[routeId := o]> (optimizedRoutes s)) (userRoutes s) (acl s) (log s).

Definition push_route (user : address) (routeId : Z) (s : state) : state :=
  mk_state (owner s) (routeCounter s) (routeRequests s) (routeLocations s)
    (optimizedRoutes s) (<[user := routes_of s user ++ [routeId]]> (userRoutes s))
    (acl s) (log s).

Definition allowThis (h : FHE.handle) (s : state) : state :=
  mk_state (owner s) (routeCounter s) (routeRequests s) (routeLocations s)
    (optimizedRoutes s) (userRoutes s) (FHE.allowThis h (acl s)) (log s).

Definition allow (h : FHE.handle) (a : address) (s : state) : state :=
  mk_state (owner s) (routeCounter s) (routeRequests s) (routeLocations s)
    (optimizedRoutes s) (userRoutes s) (FHE.allow h a (acl s)) (log s).

Definition emit (e : event) (s : state) : state :=
  mk_state (owner s) (routeCounter s) (routeRequests s) (routeLocations s)
    (optimizedRoutes s) (userRoutes s) (acl s) (e :: log s).

(** Modifiers. *)
Definition onlyOwner (m : msg) (s : state) : result unit :=
  require (bool_decide (msg_sender m = owner s)) "Not authorized".

Definition onlyRequester (m : msg) (routeId : Z) (s : state) : result unit :=
  require (bool_decide (msg_sender m = RouteRequest.requester (request_at s routeId)))
    "Not your route".

Definition constructor (m : msg) : state :=
  mk_state (msg_sender m) 0 ∅ ∅ ∅ ∅ [] [].

(** What the FHE library finds when this contract calls it. *)
Definition fhevm (s : state) : Fhevm.env := Fhevm.mk_env true (acl s).

(** Body of the loop of [requestRouteOptimization] that stores location [i]
    and grants access to its three ciphertexts.  [requestRouteOptimization]
    calls the library only for trivial encryptions and for grants on them;
    in a configured contract neither can fail, and they are written as the
    handle and the list update they produce. *)
Definition store_location (m : msg) (xCoords yCoords priorities : list Z)
    (routeId i : Z) (s : state) : result state :=
  x ← index xCoords i;
  y ← index yCoords i;
  p ← index priorities i;
  let encX := FHE.asEuint32 x in
  let encY := FHE.asEuint32 y in
  let encPriority := FHE.asEuint8 p in
  let s := set_location routeId i
             (DeliveryLocation.mk encX encY encPriority true) s in
  let s := allowThis (FHE.H32 encX) s in
  let s := allowThis (FHE.H32 encY) s in
  let s := allowThis (FHE.H8 encPriority) s in
  let s := allow (FHE.H32 encX) (msg_sender m) s in
  let s := allow (FHE.H32 encY) (msg_sender m) s in
  let s := allow (FHE.H8 encPriority) (msg_sender m) s in
  Ok s.

Definition requestRouteOptimization (m : msg)
    (xCoords yCoords priorities : list Z) (maxDistance vehicleCapacity : Z)
    (s : state) : result (Z * state) :=
  _ ← require (bool_decide (length xCoords = length yCoords))
        "Coordinate arrays must match";
  _ ← require (bool_decide (length xCoords = length priorities))
        "Priority array must match";
  _ ← require (bool_decide (0 < length xCoords)%nat)
        "Must have at least one location";
  routeId ← checked_add uint32_max (routeCounter s) 1;
  let s := set_routeCounter routeId s in
  let s := set_request routeId
             (RouteRequest.mk (msg_sender m)
                (to_uint32 (Z.of_nat (length xCoords)))
                (FHE.asEuint32 maxDistance) (FHE.asEuint8 vehicleCapacity)
                false 0 (block_timestamp m)) s in
  s ← for_uint8 (Z.of_nat (length xCoords))
        (store_location m xCoords yCoords priorities routeId) s;
  let s := allowThis (FHE.H32 (RouteRequest.maxTravelDistance (request_at s routeId))) s in
  let s := allowThis (FHE.H8 (RouteRequest.vehicleCapacity (request_at s routeId))) s in
  let s := allow (FHE.H32 (RouteRequest.maxTravelDistance (request_at s routeId)))
             (msg_sender m) s in
  let s := allow (FHE.H8 (RouteRequest.vehicleCapacity (request_at s routeId)))
             (msg_sender m) s in
  let s := push_route (msg_sender m) routeId s in
  let s := emit (RouteRequested routeId (msg_sender m)
                   (to_uint32 (Z.of_nat (length xCoords)))) s in
  mret (routeId, s).

(** [_calculateDistance]: two subtractions and one addition on handles. *)
Definition _calculateDistance (s : state) (routeId from to : Z) (t : Fhevm.tx)
    : result (FHE.euint32 * Fhevm.tx) :=
  let loc1 := location_at s routeId from in
  let loc2 := location_at s routeId to in
  '(deltaX, t) ← Fhevm.sub (fhevm s) (DeliveryLocation.encryptedX loc2)
                   (DeliveryLocation.encryptedX loc1) t;
  '(deltaY, t) ← Fhevm.sub (fhevm s) (DeliveryLocation.encryptedY loc2)
                   (DeliveryLocation.encryptedY loc1) t;
  Fhevm.add (fhevm s) deltaX deltaY t.

(** [_calculateOptimalRoute]: the bound [locationCount - 1] is a checked
    [uint32] subtraction, [i + 1] a checked [uint8] addition. *)
Definition _calculateOptimalRoute (s : state) (routeId : Z) (t : Fhevm.tx)
    : result (FHE.euint32 * Fhevm.tx) :=
  let request := request_at s routeId in
  '(totalDistance, t) ← Fhevm.asEuint32 (fhevm s) 0 t;
  bound ← checked_sub (RouteRequest.locationCount request) 1;
  for_uint8 bound
    (fun i '(totalDistance, t) =>
       to ← checked_add uint8_max i 1;
       '(distance, t) ← _calculateDistance s routeId i to t;
       Fhevm.add (fhevm s) totalDistance distance t)
    (totalDistance, t).

(** [_calculateDeliveryTime]: [loadingTime] is computed and dropped. *)
Definition _calculateDeliveryTime (s : state) (routeId : Z)
    (totalDistance : FHE.euint32) (t : Fhevm.tx) : result (FHE.euint8 * Fhevm.tx) :=
  let request := request_at s routeId in
  '(stops, t) ← Fhevm.asEuint32 (fhevm s) (RouteRequest.locationCount request) t;
  '(five, t) ← Fhevm.asEuint32 (fhevm s) 5 t;
  '(loadingTime, t) ← Fhevm.mul (fhevm s) stops five t;
  Fhevm.asEuint8 (fhevm s) 100 t.

(** [_generateRouteOrder]. *)
Definition _generateRouteOrder (locationCount : Z) : result (list Z) :=
  fill_order locationCount.

Definition processRouteOptimization (m : msg) (routeId : Z) (s : state)
    : result state :=
  _ ← onlyOwner m s;
  _ ← require (negb (RouteRequest.processed (request_at s routeId)))
        "Route already processed";
  _ ← require (negb (bool_decide
                       (RouteRequest.requester (request_at s routeId) = address_zero)))
        "Invalid route";
  let request := request_at s routeId in
  '(totalDistance, t) ← _calculateOptimalRoute s routeId Fhevm.tx_begin;
  '(estimatedTime, t) ← _calculateDeliveryTime s routeId totalDistance t;
  routeOrder ← _generateRouteOrder (RouteRequest.locationCount request);
  let s := set_optimized routeId
             (OptimizedRoute.mk routeId (RouteRequest.requester request)
                totalDistance estimatedTime true (block_timestamp m) routeOrder) s in
  let s := allowThis (FHE.H32 totalDistance) s in
  let s := allowThis (FHE.H8 estimatedTime) s in
  let s := allow (FHE.H32 totalDistance) (RouteRequest.requester request) s in
  let s := allow (FHE.H8 estimatedTime) (RouteRequest.requester request) s in
  let s := set_request routeId
             (RouteRequest.mk (RouteRequest.requester request)
                (RouteRequest.locationCount request)
                (RouteRequest.maxTravelDistance request)
                (RouteRequest.vehicleCapacity request)
                true routeId (RouteRequest.timestamp request)) s in
  Ok (emit (RouteOptimized routeId (RouteRequest.requester request) 0) s).

Definition getOptimizedRoute (m : msg) (routeId : Z) (s : state)
    : result (FHE.euint32 * FHE.euint8 * list Z * Z) :=
  _ ← onlyRequester m routeId s;
  _ ← require (RouteRequest.processed (request_at s routeId))
        "Route not processed yet";
  let route := optimized_at s routeId in
  Ok (OptimizedRoute.totalDistance route, OptimizedRoute.estimatedTime route,
      OptimizedRoute.locationOrder route, OptimizedRoute.createdAt route).

Definition markDeliveryCompleted (m : msg) (routeId locationIndex : Z) (s : state)
    : result state :=
  _ ← onlyRequester m routeId s;
  _ ← require (RouteRequest.processed (request_at s routeId))
        "Route not processed";
  _ ← require (locationIndex <? RouteRequest.locationCount (request_at s routeId))
        "Invalid location index";
  _ ← require (DeliveryLocation.isActive (location_at s routeId locationIndex))
        "Location already completed";
  let l := location_at s routeId locationIndex in
  let s := set_location routeId locationIndex
             (DeliveryLocation.mk (DeliveryLocation.encryptedX l)
                (DeliveryLocation.encryptedY l) (DeliveryLocation.priority l) false) s in
  Ok (emit (DeliveryCompleted routeId locationIndex) s).

Definition getUserRoutes (user : address) (s : state) : list Z :=
  routes_of s user.

Definition getRouteRequest (routeId : Z) (s : state) : address * Z * bool * Z :=
  let request := request_at s routeId in
  (RouteRequest.requester request, RouteRequest.locationCount request,
   RouteRequest.processed request, RouteRequest.timestamp request).

Definition getRouteDataForOwner (m : msg) (routeId : Z) (s : state)
    : result (FHE.euint32 * FHE.euint8 * address * Z) :=
  _ ← onlyOwner m s;
  _ ← require (RouteRequest.processed (request_at s routeId))
        "Route not processed";
  let route := optimized_at s routeId in
  Ok (OptimizedRoute.totalDistance route, OptimizedRoute.estimatedTime route,
      OptimizedRoute.requester route, OptimizedRoute.createdAt route).

(** Transactions: the state-changing entry points.  A failed call leaves
    the state as it was. *)
Inductive call :=
| RequestRouteOptimization (xCoords yCoords priorities : list Z)
    (maxDistance vehicleCapacity : Z)
| ProcessRouteOptimization (routeId : Z)
| MarkDeliveryCompleted (routeId locationIndex : Z).

Definition exec (m : msg) (c : call) (s : state) : result state :=
  match c with
  | RequestRouteOptimization xs ys ps maxDistance vehicleCapacity =>
      r ← requestRouteOptimization m xs ys ps maxDistance vehicleCapacity s;
      Ok r.2
  | ProcessRouteOptimization routeId => processRouteOptimization m routeId s
  | MarkDeliveryCompleted routeId i => markDeliveryCompleted m routeId i s
  end.

Definition step (s : state) (tx : msg * call) : state :=
  match exec tx.1 tx.2 s with
  | Ok s' => s'
  | Fail _ => s
  end.

Definition run (s : state) (txs : list (msg * call)) : state :=
  foldl step s txs.

Definition reachable (s : state) : Prop :=
  ∃ deployer txs, s = run (constructor deployer) txs.

End Core.

(** * The pausable contract:
      [examples/logistics-optimizer/contracts/LogisticsRouteOptimizer.sol] *)
Module Pausable.

Module DeliveryLocation.
Record t := mk {
  encryptedX : FHE.euint32;
  encryptedY : FHE.euint32;
  priority : FHE.euint8;
  isActive : bool
}.
Definition zero : t := mk FHE.uninit32 FHE.uninit32 FHE.uninit8 false.
End DeliveryLocation.

Module RouteRequest.
Record t := mk {
  requester : address;
  locationCount : Z;
  maxTravelDistance : FHE.euint32;
  vehicleCapacity : FHE.euint8;
  processed : bool;
  optimizedRouteId : Z;
  timestamp : Z;
  requestBlock : Z
}.
Definition zero : t := mk address_zero 0 FHE.uninit32 FHE.uninit8 false 0 0 0.
End RouteRequest.

Module OptimizedRoute.
Record t := mk {
  routeId : Z;
  requester : address;
  totalDistance : FHE.euint32;
  totalDistanceSquared : FHE.euint64;
  estimatedTime : FHE.euint8;
  isConfidential : bool;
  createdAt : Z;
  locationOrder : list Z;
  finalized : bool
}.
Definition zero : t :=
  mk 0 address_zero FHE.uninit32 FHE.uninit64 FHE.uninit8 false 0 [] false.
End OptimizedRoute.

Inductive event :=
| RouteRequested (routeId : Z) (requester : address) (locationCount timestamp : Z)
| RouteOptimized (routeId : Z) (requester : address) (timestamp : Z)
| RouteFinalized (routeId decryptedDistance decryptedTime : Z)
| DeliveryCompleted (routeId locationIndex timestamp : Z)
| PauserAdded (pauser : address)
| PauserRemoved (pauser : address)
| ContractPausedToggled (paused : bool)
| OwnershipTransferred (previousOwner newOwner : address).

(** Contract storage, the access-control list and the event log.  This
    contract does not inherit a configuration and never calls
    [FHE.setCoprocessor]: the slots of its storage that hold the coprocessor
    addresses keep whatever the deployment left there.  [coprocessor] says
    whether they are set; the constructor leaves them unset and no entry
    point writes them. *)
Record state := mk_state {
  owner : address;
  routeCounter : Z;
  paused : bool;
  pausers : gmap Z bool;
  routeRequests : gmap Z RouteRequest.t;
  routeLocations : gmap (Z * Z) DeliveryLocation.t;
  optimizedRoutes : gmap Z OptimizedRoute.t;
  userRoutes : gmap Z (list Z);
  gatewayCallbackToRouteId : gmap Z Z;
  coprocessor : bool;
  acl : FHE.acl;
  log : list event
}.

Definition request_at (s : state) (routeId : Z) : RouteRequest.t :=
  default RouteRequest.zero (routeRequests s !! routeId).

Definition location_at (s : state) (routeId i : Z) : DeliveryLocation.t :=
  default DeliveryLocation.zero (routeLocations s !! (routeId, i)).

Definition optimized_at (s : state) (routeId : Z) : OptimizedRoute.t :=
  default OptimizedRoute.zero (optimizedRoutes s !! routeId).

Definition routes_of (s : state) (user : address) : list Z :=
  default [] (userRoutes s !! user).

Definition is_pauser (s : state) (a : address) : bool :=
  default false (pausers s !! a).

(** Field updates. *)
Definition set_owner (v : address) (s : state) : state :=
  mk_state v (routeCounter s) (paused s) (pausers s) (routeRequests s)
    (routeLocations s) (optimizedRoutes s) (userRoutes s)
    (gatewayCallbackToRouteId s) (coprocessor s) (acl s) (log s).

Definition set_routeCounter (v : Z) (s : state) : state :=
  mk_state (owner s) v (paused s) (pausers s) (routeRequests s)
    (routeLocations s) (optimizedRoutes s) (userRoutes s)
    (gatewayCallbackToRouteId s) (coprocessor s) (acl s) (log s).

Definition set_paused (v : bool) (s : state) : state :=
  mk_state (owner s) (routeCounter s) v (pausers s) (routeRequests s)
    (routeLocations s) (optimizedRoutes s) (userRoutes s)
    (gatewayCallbackToRouteId s) (coprocessor s) (acl s) (log s).

Definition set_pauser (a : address) (v : bool) (s : state) : state :=
  mk_state (owner s) (routeCounter s) (paused s) (<[a := v]> (pausers s))
    (routeRequests s) (routeLocations s) (optimizedRoutes s) (userRoutes s)
    (gatewayCallbackToRouteId s) (coprocessor s) (acl s) (log s).

Definition set_request (routeId : Z) (r : RouteRequest.t) (s : state) : state :=
  mk_state (owner s) (routeCounter s) (paused s) (pausers s)
    (<[routeId := r]> (routeRequests s))
    (routeLocations s) (optimizedRoutes s) (userRoutes s)
    (gatewayCallbackToRouteId s) (coprocessor s) (acl s) (log s).

Definition set_location (routeId i : Z) (l : DeliveryLocation.t) (s : state) : state :=
  mk_state (owner s) (routeCounter s) (paused s) (pausers s) (routeRequests s)
    (<[(routeId, i) := l]> (routeLocations s))
    (optimizedRoutes s) (userRoutes s)
    (gatewayCallbackToRouteId s) (coprocessor s) (acl s) (log s).

Definition set_optimized (routeId : Z) (o : OptimizedRoute.t) (s : state) : state :=
  mk_state (owner s) (routeCounter s) (paused s) (pausers s) (routeRequests s)
    (routeLocations s) (<[routeId := o]> (optimizedRoutes s)) (userRoutes s)
    (gatewayCallbackToRouteId s) (coprocessor s) (acl s) (log s).

Definition push_route (user : address) (routeId : Z) (s : state) : state :=
  mk_state (owner s) (routeCounter s) (paused s) (pausers s) (routeRequests s)
    (routeLocations s) (optimizedRoutes s)
    (<[user := routes_of s user ++ [routeId]]> (userRoutes s))
    (gatewayCallbackToRouteId s) (coprocessor s) (acl s) (log s).

Definition set_coprocessor (v : bool) (s : state) : state :=
  mk_state (owner s) (routeCounter s) (paused s) (pausers s) (routeRequests s)
    (routeLocations s) (optimizedRoutes s) (userRoutes s)
    (gatewayCallbackToRouteId s) v (acl s) (log s).

Definition set_acl (v : FHE.acl) (s : state) : state :=
  mk_state (owner s) (routeCounter s) (paused s) (pausers s) (routeRequests s)
    (routeLocations s) (optimizedRoutes s) (userRoutes s)
    (gatewayCallbackToRouteId s) (coprocessor s) v (log s).

Definition emit (e : event) (s : state) : state :=
  mk_state (owner s) (routeCounter s) (paused s) (pausers s) (routeRequests s)
    (routeLocations s) (optimizedRoutes s) (userRoutes s)
    (gatewayCallbackToRouteId s) (coprocessor s) (acl s) (e :: log s).

(** What the FHE library finds when this contract calls it. *)
Definition fhevm (s : state) : Fhevm.env := Fhevm.mk_env (coprocessor s) (acl s).

(** Modifiers. *)
Definition onlyOwner (m : msg) (s : state) : result unit :=
  revert_if (negb (bool_decide (msg_sender m = owner s))) NotAuthorized.

Definition onlyRequester (m : msg) (routeId : Z) (s : state) : result unit :=
  revert_if
    (negb (bool_decide (msg_sender m = RouteRequest.requester (request_at s routeId))))
    NotYourRoute.

Definition whenNotPaused (s : state) : result unit :=
  revert_if (paused s) ContractPaused.

Definition onlyPauser (m : msg) (s : state) : result unit :=
  revert_if
    (negb (is_pauser s (msg_sender m)) && negb (bool_decide (msg_sender m = owner s)))
    NotPauser.

Definition constructor (m : msg) : state :=
  emit (PauserAdded (msg_sender m))
    (mk_state (msg_sender m) 0 false {[ msg_sender m := true ]} ∅ ∅ ∅ ∅ ∅ false [] []).

Definition requestRouteOptimization (m : msg)
    (xCoord yCoord priority maxDistance vehicleCapacityValue : Z)
    (s : state) : result (Z * state) :=
  _ ← whenNotPaused s;
  routeId ← checked_add uint32_max (routeCounter s) 1;
  let s := set_routeCounter routeId s in
  '(encMaxDistance, t) ← Fhevm.asEuint32 (fhevm s) maxDistance Fhevm.tx_begin;
  '(encVehicleCapacity, t) ← Fhevm.asEuint8 (fhevm s) vehicleCapacityValue t;
  let s := set_request routeId
             (RouteRequest.mk (msg_sender m) 3 encMaxDistance encVehicleCapacity
                false 0 (block_timestamp m) (block_number m)) s in
  let s := push_route (msg_sender m) routeId s in
  let s := emit (RouteRequested routeId (msg_sender m) 3 (block_timestamp m)) s in
  mret (routeId, s).

(** [_calculateOptimalRoute]: returns the stored distance bound. *)
Definition _calculateOptimalRoute (s : state) (routeId : Z) : FHE.euint32 :=
  let request := request_at s routeId in
  RouteRequest.maxTravelDistance request.

Definition processRouteOptimization (m : msg) (routeId : Z) (s : state)
    : result state :=
  _ ← onlyOwner m s;
  _ ← whenNotPaused s;
  _ ← revert_if (RouteRequest.processed (request_at s routeId)) RouteAlreadyProcessed;
  _ ← revert_if
        (bool_decide (RouteRequest.requester (request_at s routeId) = address_zero))
        InvalidRoute;
  let request := request_at s routeId in
  let totalDistance := _calculateOptimalRoute s routeId in
  '(wide1, t) ← Fhevm.asEuint64 (fhevm s) totalDistance Fhevm.tx_begin;
  '(wide2, t) ← Fhevm.asEuint64 (fhevm s) totalDistance t;
  '(totalDistanceSquared, t) ← Fhevm.mul64 (fhevm s) wide1 wide2 t;
  '(estimatedTime, t) ← Fhevm.asEuint8 (fhevm s) 30 t;
  routeOrder ← fill_order (RouteRequest.locationCount request);
  let s := set_optimized routeId
             (OptimizedRoute.mk routeId (RouteRequest.requester request)
                totalDistance totalDistanceSquared estimatedTime true
                (block_timestamp m) routeOrder false) s in
  let s := set_request routeId
             (RouteRequest.mk (RouteRequest.requester request)
                (RouteRequest.locationCount request)
                (RouteRequest.maxTravelDistance request)
                (RouteRequest.vehicleCapacity request)
                true routeId (RouteRequest.timestamp request)
                (RouteRequest.requestBlock request)) s in
  Ok (emit (RouteOptimized routeId (RouteRequest.requester request)
              (block_timestamp m)) s).

Definition finalizeRoute (m : msg) (routeId : Z) (s : state) : result state :=
  _ ← onlyOwner m s;
  _ ← whenNotPaused s;
  _ ← revert_if (negb (RouteRequest.processed (request_at s routeId))) RouteNotProcessed;
  let route := optimized_at s routeId in
  let s := set_optimized routeId
             (OptimizedRoute.mk (OptimizedRoute.routeId route)
                (OptimizedRoute.requester route)
                (OptimizedRoute.totalDistance route)
                (OptimizedRoute.totalDistanceSquared route)
                (OptimizedRoute.estimatedTime route)
                (OptimizedRoute.isConfidential route)
                (OptimizedRoute.createdAt route)
                (OptimizedRoute.locationOrder route) true) s in
  Ok (emit (RouteFinalized routeId 0 0) s).

Definition markDeliveryCompleted (m : msg) (routeId locationIndex : Z) (s : state)
    : result state :=
  _ ← onlyRequester m routeId s;
  _ ← whenNotPaused s;
  _ ← revert_if (negb (RouteRequest.processed (request_at s routeId))) RouteNotProcessed;
  _ ← revert_if (RouteRequest.locationCount (request_at s routeId) <=? locationIndex)
        InvalidLocationIndex;
  _ ← revert_if (negb (DeliveryLocation.isActive (location_at s routeId locationIndex)))
        LocationAlreadyCompleted;
  let l := location_at s routeId locationIndex in
  let s := set_location routeId locationIndex
             (DeliveryLocation.mk (DeliveryLocation.encryptedX l)
                (DeliveryLocation.encryptedY l) (DeliveryLocation.priority l) false) s in
  Ok (emit (DeliveryCompleted routeId locationIndex (block_timestamp m)) s).

Definition getUserRoutes (user : address) (s : state) : list Z :=
  routes_of s user.

Definition getRouteRequest (routeId : Z) (s : state) : address * Z * bool * Z :=
  let request := request_at s routeId in
  (RouteRequest.requester request, RouteRequest.locationCount request,
   RouteRequest.processed request, RouteRequest.timestamp request).

Definition addPauser (m : msg) (_pauser : address) (s : state) : result state :=
  _ ← onlyOwner m s;
  _ ← revert_if (bool_decide (_pauser = address_zero)) InvalidAddress;
  _ ← revert_if (is_pauser s _pauser) AlreadyPauser;
  let s := set_pauser _pauser true s in
  Ok (emit (PauserAdded _pauser) s).

Definition removePauser (m : msg) (_pauser : address) (s : state) : result state :=
  _ ← onlyOwner m s;
  _ ← revert_if (negb (is_pauser s _pauser)) NotPauser;
  let s := set_pauser _pauser false s in
  Ok (emit (PauserRemoved _pauser) s).

Definition togglePause (m : msg) (s : state) : result state :=
  _ ← onlyPauser m s;
  let s := set_paused (negb (paused s)) s in
  Ok (emit (ContractPausedToggled (paused s)) s).

Definition transferOwnership (m : msg) (newOwner : address) (s : state)
    : result state :=
  _ ← onlyOwner m s;
  _ ← revert_if (bool_decide (newOwner = address_zero)) InvalidAddress;
  let previousOwner := owner s in
  let s := set_owner newOwner s in
  Ok (emit (OwnershipTransferred previousOwner newOwner) s).

Inductive call :=
| RequestRouteOptimization (xCoord yCoord priority maxDistance vehicleCapacityValue : Z)
| ProcessRouteOptimization (routeId : Z)
| FinalizeRoute (routeId : Z)
| MarkDeliveryCompleted (routeId locationIndex : Z)
| AddPauser (_pauser : address)
| RemovePauser (_pauser : address)
| TogglePause
| TransferOwnership (newOwner : address).

Definition exec (m : msg) (c : call) (s : state) : result state :=
  match c with
  | RequestRouteOptimization x y p maxDistance vehicleCapacityValue =>
      r ← requestRouteOptimization m x y p maxDistance vehicleCapacityValue s;
      Ok r.2
  | ProcessRouteOptimization routeId => processRouteOptimization m routeId s
  | FinalizeRoute routeId => finalizeRoute m routeId s
  | MarkDeliveryCompleted routeId i => markDeliveryCompleted m routeId i s
  | AddPauser a => addPauser m a s
  | RemovePauser a => removePauser m a s
  | TogglePause => togglePause m s
  | TransferOwnership a => transferOwnership m a s
  end.

Definition step (s : state) (tx : msg * call) : state :=
  match exec tx.1 tx.2 s with
  | Ok s' => s'
  | Fail _ => s
  end.

Definition run (s : state) (txs : list (msg * call)) : state :=
  foldl step s txs.

(** A deployment: the state the constructor leaves, with the coprocessor
    slots as the deployment found them.  On a chain they are unset
    ([deploy false]); a test environment can write them from outside
    ([deploy true]). *)
Definition deploy (cfg : bool) (m : msg) : state :=
  set_coprocessor cfg (constructor m).

(** The states the contract's transactions lead to, from either kind of
    deployment. *)
Definition reachable (s : state) : Prop :=
  ∃ deployer cfg txs, s = run (deploy cfg deployer) txs.

End Pausable.

(** * Specification-level definitions *)

(** The identity permutation [[0; 1; ...; n-1]]. *)
Definition identity_order (n : Z) : list Z := Z.of_nat <$> seq 0 (Z.to_nat n).


(** The request record after [processRouteOptimization]. *)
Definition core_processed_request (r : Core.RouteRequest.t) (routeId : Z)
    : Core.RouteRequest.t :=
  Core.RouteRequest.mk (Core.RouteRequest.requester r)
    (Core.RouteRequest.locationCount r) (Core.RouteRequest.maxTravelDistance r)
    (Core.RouteRequest.vehicleCapacity r) true routeId (Core.RouteRequest.timestamp r).


(** The location that [requestRouteOptimization] stores at index [j]. *)
Definition core_stored_location (xCoords yCoords priorities : list Z) (j : Z)
    : option Core.DeliveryLocation.t :=
  x ← xCoords !! Z.to_nat j;
  y ← yCoords !! Z.to_nat j;
  p ← priorities !! Z.to_nat j;
  Some (Core.DeliveryLocation.mk (FHE.asEuint32 x) (FHE.asEuint32 y)
          (FHE.asEuint8 p) true).

(** Both the contract and [a] hold a grant on handle [h]. *)
Definition granted (l : FHE.acl) (h : FHE.handle) (a : address) : Prop :=
  (h, FHE.This) ∈ l ∧ (h, FHE.Account a) ∈ l.

(** The three ciphertexts of a stored location are granted. *)
Definition core_location_granted (l : FHE.acl) (loc : Core.DeliveryLocation.t)
    (a : address) : Prop :=
  granted l (FHE.H32 (Core.DeliveryLocation.encryptedX loc)) a ∧
  granted l (FHE.H32 (Core.DeliveryLocation.encryptedY loc)) a ∧
  granted l (FHE.H8 (Core.DeliveryLocation.priority loc)) a.

(** The request record written by [Core.requestRouteOptimization]. *)
Definition core_new_request (m : msg) (n maxDistance vehicleCapacity : Z)
    : Core.RouteRequest.t :=
  Core.RouteRequest.mk (msg_sender m) n (FHE.asEuint32 maxDistance)
    (FHE.asEuint8 vehicleCapacity) false 0 (block_timestamp m).

(** The handle [_calculateDistance] produces for the pair [(from, to)]. *)
Definition core_distance (s : Core.state) (routeId from to : Z) : FHE.euint32 :=
  let loc1 := Core.location_at s routeId from in
  let loc2 := Core.location_at s routeId to in
  FHE.add
    (FHE.sub (FHE.initialized (Core.DeliveryLocation.encryptedX loc2))
             (FHE.initialized (Core.DeliveryLocation.encryptedX loc1)))
    (FHE.sub (FHE.initialized (Core.DeliveryLocation.encryptedY loc2))
             (FHE.initialized (Core.DeliveryLocation.encryptedY loc1))).

(** The handle accumulated by [_calculateOptimalRoute] after [k] pairs:
    starting from an encryption of 0, add the distance handle of each
    consecutive pair [(i, i+1)], in submission order. *)
Definition core_accumulated (s : Core.state) (routeId : Z) (k : nat) : FHE.euint32 :=
  foldl (fun acc i => FHE.add acc (core_distance s routeId i (i + 1)))
    (FHE.asEuint32 0) (Z.of_nat <$> seq 0 k).

(** The locations of a route are ready for [_calculateDistance]: each of
    them holds trivial encryptions that are granted to the contract. *)
Definition core_route_ready (s : Core.state) (routeId : Z) : Prop :=
  ∀ j, 0 ≤ j < Core.RouteRequest.locationCount (Core.request_at s routeId) →
    ∃ x y,
      Core.DeliveryLocation.encryptedX (Core.location_at s routeId j) = FHE.asEuint32 x ∧
      Core.DeliveryLocation.encryptedY (Core.location_at s routeId j) = FHE.asEuint32 y ∧
      (FHE.H32 (FHE.asEuint32 x), FHE.This) ∈ Core.acl s ∧
      (FHE.H32 (FHE.asEuint32 y), FHE.This) ∈ Core.acl s.

(** Plaintext coordinates of a stored location. *)
Definition core_plain_x (s : Core.state) (routeId i : Z) : Z :=
  FHE.decrypt32 (Core.DeliveryLocation.encryptedX (Core.location_at s routeId i)).

Definition core_plain_y (s : Core.state) (routeId i : Z) : Z :=
  FHE.decrypt32 (Core.DeliveryLocation.encryptedY (Core.location_at s routeId i)).

(** Manhattan distance of the glossary: [|x2 - x1| + |y2 - y1|], and its sum
    over the consecutive pairs of a list of points. *)
Definition manhattan (p q : Z * Z) : Z :=
  Z.abs (q.1 - p.1) + Z.abs (q.2 - p.2).

Fixpoint manhattan_total (pts : list (Z * Z)) : Z :=
  match pts with
  | p :: rest =>
      match rest with
      | q :: _ => manhattan p q + manhattan_total rest
      | [] => 0
      end
  | [] => 0
  end.

(** The request record after the pausable [processRouteOptimization]. *)
Definition pausable_processed_request (r : Pausable.RouteRequest.t) (routeId : Z)
    : Pausable.RouteRequest.t :=
  Pausable.RouteRequest.mk (Pausable.RouteRequest.requester r)
    (Pausable.RouteRequest.locationCount r) (Pausable.RouteRequest.maxTravelDistance r)
    (Pausable.RouteRequest.vehicleCapacity r) true routeId
    (Pausable.RouteRequest.timestamp r) (Pausable.RouteRequest.requestBlock r).

(** The result record written by the pausable [processRouteOptimization]. *)
Definition pausable_new_route (m : msg) (r : Pausable.RouteRequest.t) (routeId : Z)
    : Pausable.OptimizedRoute.t :=
  Pausable.OptimizedRoute.mk routeId (Pausable.RouteRequest.requester r)
    (Pausable.RouteRequest.maxTravelDistance r)
    (FHE.mul64 (FHE.asEuint64 (Pausable.RouteRequest.maxTravelDistance r))
               (FHE.asEuint64 (Pausable.RouteRequest.maxTravelDistance r)))
    (FHE.asEuint8 30) true (block_timestamp m)
    (identity_order (Pausable.RouteRequest.locationCount r)) false.

(** An optimized route with its [finalized] flag set. *)
Definition pausable_finalized (o : Pausable.OptimizedRoute.t) : Pausable.OptimizedRoute.t :=
  Pausable.OptimizedRoute.mk (Pausable.OptimizedRoute.routeId o)
    (Pausable.OptimizedRoute.requester o) (Pausable.OptimizedRoute.totalDistance o)
    (Pausable.OptimizedRoute.totalDistanceSquared o)
    (Pausable.OptimizedRoute.estimatedTime o) (Pausable.OptimizedRoute.isConfidential o)
    (Pausable.OptimizedRoute.createdAt o) (Pausable.OptimizedRoute.locationOrder o) true.

(** * Concrete scenarios

    The accounts and calls of section 8 of the specification and of the
    repository's test file: an owner deploys, [requester1] submits the three
    locations (100,150), (200,250), (300,350), the owner processes. *)
Definition owner_msg : msg := mk_msg 1 1000 10.
Definition requester1 : msg := mk_msg 2 1000 10.
Definition unauthorized : msg := mk_msg 3 1000 10.

Definition core_fresh : Core.state := Core.constructor owner_msg.

Definition core_requested : Core.state :=
  Core.run core_fresh
    [(requester1,
      Core.RequestRouteOptimization [100; 200; 300] [150; 250; 350] [1; 2; 3] 1000 10)].

Definition core_processed : Core.state :=
  Core.run core_requested [(owner_msg, Core.ProcessRouteOptimization 1)].

(** The pausable contract as a chain deploys it: no coprocessor. *)
Definition pausable_deployed : Pausable.state := Pausable.deploy false owner_msg.

(** The pausable contract accepts a route only where the coprocessor slots
    were written from outside, and processes one only if, in addition,
    somebody else granted it the stored distance handle: the contract does
    neither itself.  The scenarios that need a stored or a processed route
    start from such states. *)
Definition pausable_fresh : Pausable.state := Pausable.deploy true owner_msg.

Definition pausable_requested : Pausable.state :=
  Pausable.run pausable_fresh
    [(requester1, Pausable.RequestRouteOptimization 100 150 1 1000 10)].

Definition pausable_granted : Pausable.state :=
  Pausable.set_acl [(FHE.H32 (FHE.asEuint32 1000), FHE.This)] pausable_requested.

Definition pausable_processed : Pausable.state :=
  Pausable.run pausable_granted [(owner_msg, Pausable.ProcessRouteOptimization 1)].

Definition pausable_paused : Pausable.state :=
  Pausable.run pausable_requested [(owner_msg, Pausable.TogglePause)].

Definition pausable_processed_paused : Pausable.state :=
  Pausable.run pausable_processed [(owner_msg, Pausable.TogglePause)].



Definition pausable_finalized_once : Pausable.state :=
  Pausable.run pausable_processed [(owner_msg, Pausable.FinalizeRoute 1)].



(** The states the pausable contract reaches as a chain deploys it: from the
    constructor, which sets no coprocessor. *)
Definition pausable_as_deployed (d : msg) (txs : list (msg * Pausable.call))
    : Pausable.state :=
  Pausable.run (Pausable.constructor d) txs.

(** A route of [n] locations on a line. *)
Definition core_long_requested (n : nat) : Core.state :=
  Core.run core_fresh
    [(requester1,
      Core.RequestRouteOptimization (Z.of_nat <$> seq 0 n) (replicate n 7)
        (replicate n 1) 1000 10)].


(** The route ids returned by the successful [requestRouteOptimization]
    calls of a sequence of transactions, in order. *)
Fixpoint core_returned_ids (s : Core.state) (txs : list (msg * Core.call)) : list Z :=
  match txs with
  | [] => []
  | (m, Core.RequestRouteOptimization xs ys ps maxDistance capacity) :: txs' =>
      match Core.requestRouteOptimization m xs ys ps maxDistance capacity s with
      | Ok (routeId, s') => routeId :: core_returned_ids s' txs'
      | Fail _ => core_returned_ids s txs'
      end
  | tx :: txs' => core_returned_ids (Core.step s tx) txs'
  end.

Fixpoint pausable_returned_ids (s : Pausable.state) (txs : list (msg * Pausable.call))
    : list Z :=
  match txs with
  | [] => []
  | (m, Pausable.RequestRouteOptimization x y p maxDistance capacity) :: txs' =>
      match Pausable.requestRouteOptimization m x y p maxDistance capacity s with
      | Ok (routeId, s') => routeId :: pausable_returned_ids s' txs'
      | Fail _ => pausable_returned_ids s txs'
      end
  | tx :: txs' => pausable_returned_ids (Pausable.step s tx) txs'
  end.

(** [[c+1; c+2; ...; c+k]]. *)
Definition ids_after (c : Z) (k : nat) : list Z :=
  (fun i => c + Z.of_nat i) <$> seq 1 k.

Definition core_delivered : Core.state :=
  Core.run core_processed [(requester1, Core.MarkDeliveryCompleted 1 0)].

(** A route that goes back: from (10,0) to (0,0). *)
Definition core_backtrack_requested : Core.state :=
  Core.run core_fresh
    [(requester1, Core.RequestRouteOptimization [10; 0] [0; 0] [1; 1] 1000 10)].

Definition core_backtrack_processed : Core.state :=
  Core.run core_backtrack_requested [(owner_msg, Core.ProcessRouteOptimization 1)].

(** The plaintext points of locations [a], [a+1], ..., [a+k-1] of a route. *)
Definition core_points (s : Core.state) (routeId : Z) (a k : nat) : list (Z * Z) :=
  (fun i => (core_plain_x s routeId (Z.of_nat i), core_plain_y s routeId (Z.of_nat i)))
    <$> seq a k.

(** ** Public and confidential parts of a call

    Two calls have the same public part when they differ at most in the
    confidential plaintexts: the entries of the coordinate and priority
    arrays (not their lengths), [maxDistance] and [vehicleCapacity]. *)
Definition core_same_public (c1 c2 : Core.call) : Prop :=
  match c1, c2 with
  | Core.RequestRouteOptimization xs1 ys1 ps1 _ _,
    Core.RequestRouteOptimization xs2 ys2 ps2 _ _ =>
      length xs1 = length xs2 ∧ length ys1 = length ys2 ∧ length ps1 = length ps2
  | Core.ProcessRouteOptimization id1, Core.ProcessRouteOptimization id2 => id1 = id2
  | Core.MarkDeliveryCompleted id1 i1, Core.MarkDeliveryCompleted id2 i2 =>
      id1 = id2 ∧ i1 = i2
  | _, _ => False
  end.

Definition core_same_public_tx (t1 t2 : msg * Core.call) : Prop :=
  t1.1 = t2.1 ∧ core_same_public t1.2 t2.2.

Definition pausable_same_public (c1 c2 : Pausable.call) : Prop :=
  match c1, c2 with
  | Pausable.RequestRouteOptimization _ _ _ _ _,
    Pausable.RequestRouteOptimization _ _ _ _ _ => True
  | _, _ => c1 = c2
  end.

Definition pausable_same_public_tx (t1 t2 : msg * Pausable.call) : Prop :=
  t1.1 = t2.1 ∧ pausable_same_public t1.2 t2.2.

(** The plaintext fields of a request record. *)
Definition core_public_request (r : Core.RouteRequest.t) : address * Z * bool * Z * Z :=
  (Core.RouteRequest.requester r, Core.RouteRequest.locationCount r,
   Core.RouteRequest.processed r, Core.RouteRequest.optimizedRouteId r,
   Core.RouteRequest.timestamp r).

Definition pausable_public_request (r : Pausable.RouteRequest.t)
    : address * Z * bool * Z * Z * Z :=
  (Pausable.RouteRequest.requester r, Pausable.RouteRequest.locationCount r,
   Pausable.RouteRequest.processed r, Pausable.RouteRequest.optimizedRouteId r,
   Pausable.RouteRequest.timestamp r, Pausable.RouteRequest.requestBlock r).

(** ** Shape of the core contract's storage

    In the states the core contract can reach: a location is stored exactly
    for the indices below [locationCount] of a stored request, its
    ciphertexts are trivial encryptions, and a result record is stored
    exactly for the processed requests, with the fields
    [processRouteOptimization] gave it. *)
Record core_shape (s : Core.state) : Prop := {
  cs_locations : ∀ id j,
    is_Some (Core.routeLocations s !! (id, j)) ↔
    ∃ r, Core.routeRequests s !! id = Some r ∧ 0 ≤ j < Core.RouteRequest.locationCount r;
  cs_trivial : ∀ id j l, Core.routeLocations s !! (id, j) = Some l →
    ∃ x y p, Core.DeliveryLocation.encryptedX l = FHE.asEuint32 x ∧
             Core.DeliveryLocation.encryptedY l = FHE.asEuint32 y ∧
             Core.DeliveryLocation.priority l = FHE.asEuint8 p;
  cs_results : ∀ id,
    Core.RouteRequest.processed (Core.request_at s id) = true ↔
    is_Some (Core.optimizedRoutes s !! id);
  cs_result_fields : ∀ id o, Core.optimizedRoutes s !! id = Some o →
    Core.OptimizedRoute.routeId o = id ∧
    Core.OptimizedRoute.requester o = Core.RouteRequest.requester (Core.request_at s id) ∧
    Core.OptimizedRoute.isConfidential o = true ∧
    Core.OptimizedRoute.locationOrder o =
      identity_order (Core.RouteRequest.locationCount (Core.request_at s id)) ∧
    Core.OptimizedRoute.estimatedTime o = FHE.asEuint8 100 ∧
    Core.RouteRequest.optimizedRouteId (Core.request_at s id) = id;
  cs_unprocessed : ∀ id,
    Core.RouteRequest.processed (Core.request_at s id) = false →
    Core.RouteRequest.optimizedRouteId (Core.request_at s id) = 0
}.

(** The ids [1 .. routeCounter] whose request was submitted by [user], in
    increasing order. *)
Definition core_routes_of_requester (s : Core.state) (user : address) : list Z :=
  filter (fun id => Core.RouteRequest.requester (Core.request_at s id) = user)
    (ids_after 0 (Z.to_nat (Core.routeCounter s))).

Definition pausable_routes_of_requester (s : Pausable.state) (user : address) : list Z :=
  filter (fun id => Pausable.RouteRequest.requester (Pausable.request_at s id) = user)
    (ids_after 0 (Z.to_nat (Pausable.routeCounter s))).

(** ** Shape of the pausable contract's storage *)

Definition is_delivery_event (e : Pausable.event) : bool :=
  match e with
  | Pausable.DeliveryCompleted _ _ _ => true
  | _ => false
  end.

Definition is_result_event (e : Pausable.event) : bool :=
  match e with
  | Pausable.RouteOptimized _ _ _ | Pausable.RouteFinalized _ _ _ => true
  | _ => false
  end.

(** In the states the pausable contract can reach no request is processed
    and no result record exists, because [processRouteOptimization] needs a
    grant that the contract never gives itself; the gateway map is never
    written; no delivery, optimization or finalization event is logged. *)
Record pausable_shape (s : Pausable.state) : Prop := {
  ps_unprocessed : ∀ id,
    Pausable.RouteRequest.processed (Pausable.request_at s id) = false;
  ps_no_results : Pausable.optimizedRoutes s = ∅;
  ps_gateway : Pausable.gatewayCallbackToRouteId s = ∅;
  ps_no_delivery : ∀ e, e ∈ Pausable.log s → is_delivery_event e = false;
  ps_no_result_event : ∀ e, e ∈ Pausable.log s → is_result_event e = false
}.

(** ** Reading the core contract's event log *)

Definition core_requested_id (e : Core.event) : option Z :=
  match e with
  | Core.RouteRequested routeId _ _ => Some routeId
  | _ => None
  end.

Definition core_optimized_id (e : Core.event) : option Z :=
  match e with
  | Core.RouteOptimized routeId _ _ => Some routeId
  | _ => None
  end.

Definition core_delivered_key (e : Core.event) : option (Z * Z) :=
  match e with
  | Core.DeliveryCompleted routeId locationIndex => Some (routeId, locationIndex)
  | _ => None
  end.

(** The log agrees with the storage: requests are logged in id order, a
    route has a [RouteOptimized] event exactly when it is processed and at
    most one, and a location has at most one [DeliveryCompleted] event and is
    inactive once it has one. *)
Record core_log_inv (s : Core.state) : Prop := {
  cl_requested : reverse (omap core_requested_id (Core.log s))
                 = ids_after 0 (Z.to_nat (Core.routeCounter s));
  cl_optimized : ∀ id, id ∈ omap core_optimized_id (Core.log s) ↔
                       Core.RouteRequest.processed (Core.request_at s id) = true;
  cl_optimized_once : NoDup (omap core_optimized_id (Core.log s));
  cl_delivered : ∀ id i, (id, i) ∈ omap core_delivered_key (Core.log s) →
                 Core.DeliveryLocation.isActive (Core.location_at s id i) = false ∧
                 id ≤ Core.routeCounter s;
  cl_delivered_once : NoDup (omap core_delivered_key (Core.log s))
}.

(** ** Invariants and relations used by the proofs *)

(** Bounds kept by every transaction of the core contract: ids lie between 1
    and the counter, a stored route has 1 to 255 locations, and a result
    belongs to a processed request. *)
Record core_inv (s : Core.state) : Prop := {
  ci_counter : 0 ≤ Core.routeCounter s ≤ uint32_max;
  ci_requests : ∀ id r, Core.routeRequests s !! id = Some r →
    1 ≤ id ≤ Core.routeCounter s ∧ 1 ≤ Core.RouteRequest.locationCount r ≤ 255;
  ci_locations : ∀ id j l, Core.routeLocations s !! (id, j) = Some l →
    1 ≤ id ≤ Core.routeCounter s;
  ci_optimized : ∀ id o, Core.optimizedRoutes s !! id = Some o →
    Core.RouteRequest.processed (Core.request_at s id) = true ∧
    Core.OptimizedRoute.requester o = Core.RouteRequest.requester (Core.request_at s id)
}.

(** In the core contract every stored ciphertext is granted to the contract
    and to the requester of its route. *)
Record core_grants (s : Core.state) : Prop := {
  cg_requests : ∀ id r, Core.routeRequests s !! id = Some r →
    granted (Core.acl s) (FHE.H32 (Core.RouteRequest.maxTravelDistance r))
      (Core.RouteRequest.requester r) ∧
    granted (Core.acl s) (FHE.H8 (Core.RouteRequest.vehicleCapacity r))
      (Core.RouteRequest.requester r);
  cg_locations : ∀ id j r l,
    Core.routeRequests s !! id = Some r → Core.routeLocations s !! (id, j) = Some l →
    core_location_granted (Core.acl s) l (Core.RouteRequest.requester r);
  cg_optimized : ∀ id o, Core.optimizedRoutes s !! id = Some o →
    granted (Core.acl s) (FHE.H32 (Core.OptimizedRoute.totalDistance o))
      (Core.OptimizedRoute.requester o) ∧
    granted (Core.acl s) (FHE.H8 (Core.OptimizedRoute.estimatedTime o))
      (Core.OptimizedRoute.requester o)
}.

(** Bounds kept by every transaction of the pausable contract: ids lie
    between 1 and the counter, every stored route has the constant 3 as its
    location count, and neither a location nor a grant is ever written. *)
Record pausable_inv (s : Pausable.state) : Prop := {
  pi_counter : 0 ≤ Pausable.routeCounter s ≤ uint32_max;
  pi_requests : ∀ id r, Pausable.routeRequests s !! id = Some r →
    1 ≤ id ≤ Pausable.routeCounter s ∧ Pausable.RouteRequest.locationCount r = 3;
  pi_locations : Pausable.routeLocations s = ∅;
  pi_acl : Pausable.acl s = []
}.

(** Two core states that agree on everything but ciphertexts and grants. *)
Record core_low_eq (s1 s2 : Core.state) : Prop := {
  cle_owner : Core.owner s1 = Core.owner s2;
  cle_counter : Core.routeCounter s1 = Core.routeCounter s2;
  cle_log : Core.log s1 = Core.log s2;
  cle_users : Core.userRoutes s1 = Core.userRoutes s2;
  cle_requests : ∀ id,
    core_public_request (Core.request_at s1 id) = core_public_request (Core.request_at s2 id);
  cle_locations : ∀ id i,
    Core.DeliveryLocation.isActive (Core.location_at s1 id i) =
    Core.DeliveryLocation.isActive (Core.location_at s2 id i)
}.

(** The same for the pausable contract, which grants nothing: both access
    lists are empty. *)
Record pausable_low_eq (s1 s2 : Pausable.state) : Prop := {
  ple_coprocessor : Pausable.coprocessor s1 = Pausable.coprocessor s2;
  ple_acl1 : Pausable.acl s1 = [];
  ple_acl2 : Pausable.acl s2 = [];
  ple_owner : Pausable.owner s1 = Pausable.owner s2;
  ple_counter : Pausable.routeCounter s1 = Pausable.routeCounter s2;
  ple_paused : Pausable.paused s1 = Pausable.paused s2;
  ple_pausers : Pausable.pausers s1 = Pausable.pausers s2;
  ple_log : Pausable.log s1 = Pausable.log s2;
  ple_users : Pausable.userRoutes s1 = Pausable.userRoutes s2;
  ple_requests : ∀ id,
    pausable_public_request (Pausable.request_at s1 id) =
    pausable_public_request (Pausable.request_at s2 id);
  ple_locations : ∀ id i,
    Pausable.DeliveryLocation.isActive (Pausable.location_at s1 id i) =
    Pausable.DeliveryLocation.isActive (Pausable.location_at s2 id i)
}.

(** * Proofs *)

(** ** The [uint8] loop *)
Section for_uint8.
Context {S : Type}.
Variable I : Z → S → Prop.
Variable body : Z → S → result S.
Variable bound : Z.
Hypothesis body_ok : ∀ i s, 0 ≤ i → i < bound → i ≤ 255 → I i s →
  ∃ s', body i s = Ok s' ∧ I (i + 1) s'.

Lemma for_uint8_from_inv (fuel : nat) : ∀ i s,
  0 ≤ i → i ≤ bound → bound ≤ 255 → (Z.to_nat (bound - i) < fuel)%nat → I i s →
  ∃ s', for_uint8_from fuel bound i body s = Ok s' ∧ I bound s'.
Proof.
  induction fuel as [|fuel IH]; intros i s Hi Hib Hb Hf HI; [lia|].
  simpl. destruct (Z.ltb_spec i bound) as [Hlt|Hge].
  - destruct (body_ok i s) as (s' & -> & HI'); [lia..|done|].
    simpl. unfold checked_add, uint8_max.
    destruct (Z.leb_spec (i + 1) 255); [|lia]. simpl.
    apply IH; [lia..|done].
  - assert (i = bound) as -> by lia. eauto.
Qed.

Lemma for_uint8_from_overflow (fuel : nat) : ∀ i s,
  0 ≤ i → i ≤ 255 → 255 < bound → (Z.to_nat (256 - i) ≤ fuel)%nat → I i s →
  for_uint8_from fuel bound i body s = Fail (Panic 17).
Proof.
  induction fuel as [|fuel IH]; intros i s Hi Hib Hb Hf HI; [lia|].
  simpl. destruct (Z.ltb_spec i bound) as [Hlt|Hge]; [|lia].
  destruct (body_ok i s) as (s' & -> & HI'); [lia..|done|].
  simpl. unfold checked_add, uint8_max.
  destruct (Z.leb_spec (i + 1) 255); simpl; [|done].
  apply IH; [lia..|done].
Qed.

Lemma for_uint8_inv (s : S) :
  0 ≤ bound → bound ≤ 255 → I 0 s →
  ∃ s', for_uint8 bound body s = Ok s' ∧ I bound s'.
Proof.
  intros. apply for_uint8_from_inv; [lia..|done].
Qed.

Lemma for_uint8_overflow (s : S) :
  255 < bound → I 0 s → for_uint8 bound body s = Fail (Panic 17).
Proof.
  intros. apply for_uint8_from_overflow; [lia..|done].
Qed.

Lemma for_uint8_skip (s : S) : bound ≤ 0 → for_uint8 bound body s = Ok s.
Proof.
  intros. unfold for_uint8. change 257%nat with (Datatypes.S 256).
  cbn [for_uint8_from]. destruct (Z.ltb_spec 0 bound); [lia|done].
Qed.
End for_uint8.

(** ** The route order is the identity permutation *)
Lemma fill_order_ok (n : Z) :
  n ≤ 255 → fill_order n = Ok (identity_order n).
Proof.
  intros Hn. destruct (Z.le_gt_cases n 0) as [Hle|Hpos].
  { unfold fill_order. rewrite for_uint8_skip by done.
    unfold identity_order. by replace (Z.to_nat n) with 0%nat by lia. }
  unfold fill_order.
  destruct (for_uint8_inv
    (fun i (order : list Z) => length order = Z.to_nat n ∧
       ∀ j, (j < Z.to_nat i)%nat → order !! j = Some (Z.of_nat j))
    (fun i order =>
       if bool_decide (Z.to_nat i < length order)%nat
       then Ok (<[Z.to_nat i := i]> order) else Fail (Panic 50))
    n) with (s := replicate (Z.to_nat n) 0) as (order & -> & Hlen & Hget).
  - intros i order Hi Hin _ [Hlen Hget].
    rewrite bool_decide_true by lia. eexists; split; [done|].
    split; [by rewrite length_insert|].
    intros j Hj. destruct (decide (j = Z.to_nat i)) as [->|Hne].
    + rewrite list_lookup_insert_eq by lia. f_equal. lia.
    + rewrite list_lookup_insert_ne by done. apply Hget. lia.
  - lia.
  - done.
  - split; [by rewrite length_replicate|]. intros j Hj. lia.
  - f_equal. apply list_eq. intros j. unfold identity_order.
    rewrite list_lookup_fmap.
    destruct (decide (j < Z.to_nat n)%nat) as [Hj|Hj].
    + rewrite Hget by done. by rewrite lookup_seq_lt.
    + rewrite lookup_ge_None_2 by lia.
      by rewrite lookup_seq_ge by lia.
Qed.

Lemma fill_order_overflow (n : Z) : 255 < n → fill_order n = Fail (Panic 17).
Proof.
  intros Hn. unfold fill_order.
  apply (for_uint8_overflow (fun i (order : list Z) => length order = Z.to_nat n)).
  - intros i order Hi Hin Hi' Hlen.
    rewrite bool_decide_true by lia. eexists; split; [done|].
    by rewrite length_insert.
  - done.
  - by rewrite length_replicate.
Qed.

Lemma fill_order_inv (n : Z) (order : list Z) :
  fill_order n = Ok order → n ≤ 255 ∧ order = identity_order n.
Proof.
  intros H. destruct (Z.le_gt_cases n 255) as [Hle|Hgt].
  - rewrite fill_order_ok in H by done. by inversion H.
  - rewrite fill_order_overflow in H by lia. done.
Qed.


(** ** Inversion of the result monad *)

Lemma bind_ok {A B} (m : result A) (f : A → result B) (b : B) :
  m ≫= f = Ok b → ∃ a, m = Ok a ∧ f a = Ok b.
Proof. destruct m as [a|e]; simpl; [eauto|done]. Qed.

Lemma require_ok (b : bool) (reason : string) (u : unit) :
  require b reason = Ok u → b = true.
Proof. by destruct b. Qed.

Lemma revert_if_ok (b : bool) (e : custom_error) (u : unit) :
  revert_if b e = Ok u → b = false.
Proof. by destruct b. Qed.

Ltac inv_ok H :=
  repeat match type of H with
  | (_ ≫= _) = Ok _ =>
      let a := fresh "a" in
      let Ha := fresh "Hstep" in
      apply bind_ok in H as (a & Ha & H)
  | (let '(_, _) := ?p in _) = Ok _ => destruct p; cbv beta iota in H
  end.

(** Case analysis on the conditions of a straight-line entry point. *)
Ltac cascade H :=
  repeat match type of H with
  | (if ?b then _ else _) = Ok _ => destruct b eqn:?; simpl in H; try discriminate H
  end.

(** Membership in an access list built by [allow] and [allowThis]. *)
Ltac in_acl :=
  unfold FHE.allow, FHE.allowThis;
  repeat match goal with
  | |- _ ∈ _ :: _ => apply elem_of_cons; first [left; reflexivity | right]
  end; auto.

(** ** Core: the loop of [requestRouteOptimization] *)

Record core_store_inv (m : msg) (xs ys ps : list Z) (routeId : Z)
    (s0 : Core.state) (i : Z) (s : Core.state) : Prop := {
  csi_owner : Core.owner s = Core.owner s0;
  csi_counter : Core.routeCounter s = Core.routeCounter s0;
  csi_requests : Core.routeRequests s = Core.routeRequests s0;
  csi_optimized : Core.optimizedRoutes s = Core.optimizedRoutes s0;
  csi_users : Core.userRoutes s = Core.userRoutes s0;
  csi_log : Core.log s = Core.log s0;
  csi_locations : ∀ id j,
    Core.routeLocations s !! (id, j) =
      if bool_decide (id = routeId ∧ 0 ≤ j < i)
      then core_stored_location xs ys ps j
      else Core.routeLocations s0 !! (id, j);
  csi_acl_mono : Core.acl s0 ⊆ Core.acl s;
  csi_acl : ∀ j loc, 0 ≤ j < i → core_stored_location xs ys ps j = Some loc →
    core_location_granted (Core.acl s) loc (msg_sender m)
}.

Lemma core_store_location_step (m : msg) (xs ys ps : list Z) (routeId : Z)
    (s0 : Core.state) (i : Z) (s : Core.state) :
  length xs = length ys → length xs = length ps →
  0 ≤ i → i < Z.of_nat (length xs) →
  core_store_inv m xs ys ps routeId s0 i s →
  ∃ s', Core.store_location m xs ys ps routeId i s = Ok s' ∧
        core_store_inv m xs ys ps routeId s0 (i + 1) s'.
Proof.
  intros Hxy Hxp Hi Hlt [].
  destruct (lookup_lt_is_Some_2 xs (Z.to_nat i)) as [x Hx]; [lia|].
  destruct (lookup_lt_is_Some_2 ys (Z.to_nat i)) as [y Hy]; [lia|].
  destruct (lookup_lt_is_Some_2 ps (Z.to_nat i)) as [p Hp]; [lia|].
  unfold Core.store_location, index. rewrite Hx, Hy, Hp. simpl.
  eexists; split; [done|]. split; simpl; try done.
  - intros id j. destruct (decide ((id, j) = (routeId, i))) as [Heq|Hne].
    + inversion Heq; subst. rewrite lookup_insert_eq.
      rewrite bool_decide_true by lia.
      unfold core_stored_location. by rewrite Hx, Hy, Hp.
    + rewrite lookup_insert_ne by done. rewrite csi_locations0.
      assert ((id = routeId ∧ 0 ≤ j < i) ↔ (id = routeId ∧ 0 ≤ j < i + 1)) as Hiff.
      { split; [lia|]. intros [-> ?]. split; [done|]. split; [lia|].
        destruct (decide (j = i)) as [->|]; [done|lia]. }
      by rewrite (bool_decide_ext _ _ Hiff).
  - intros g Hg. in_acl.
  - intros j loc ? Hloc.
    destruct (decide (j = i)) as [Heq|Hne].
    + subst j. unfold core_stored_location in Hloc. rewrite Hx, Hy, Hp in Hloc.
      inversion Hloc; subst loc.
      unfold core_location_granted, granted; simpl. repeat split; in_acl.
    + destruct (csi_acl0 j loc) as ((?&?)&(?&?)&(?&?)); [lia|done|].
      unfold core_location_granted, granted. repeat split; in_acl.
Qed.

(** ** Core: [requestRouteOptimization] *)

Record core_request_post (m : msg) (xs ys ps : list Z) (maxDistance vehicleCapacity : Z)
    (s s' : Core.state) : Prop := {
  crp_owner : Core.owner s' = Core.owner s;
  crp_counter : Core.routeCounter s' = Core.routeCounter s + 1;
  crp_requests : Core.routeRequests s' =
    <[Core.routeCounter s + 1 :=
        core_new_request m (Z.of_nat (length xs)) maxDistance vehicleCapacity]>
      (Core.routeRequests s);
  crp_optimized : Core.optimizedRoutes s' = Core.optimizedRoutes s;
  crp_users : Core.userRoutes s' =
    <[msg_sender m := Core.routes_of s (msg_sender m) ++ [Core.routeCounter s + 1]]>
      (Core.userRoutes s);
  crp_log : Core.log s' =
    Core.RouteRequested (Core.routeCounter s + 1) (msg_sender m)
      (Z.of_nat (length xs)) :: Core.log s;
  crp_locations : ∀ id j,
    Core.routeLocations s' !! (id, j) =
      if bool_decide (id = Core.routeCounter s + 1 ∧ 0 ≤ j < Z.of_nat (length xs))
      then core_stored_location xs ys ps j
      else Core.routeLocations s !! (id, j);
  crp_acl_mono : Core.acl s ⊆ Core.acl s';
  crp_acl_locations : ∀ j loc, 0 ≤ j < Z.of_nat (length xs) →
    core_stored_location xs ys ps j = Some loc →
    core_location_granted (Core.acl s') loc (msg_sender m);
  crp_acl_constraints :
    granted (Core.acl s') (FHE.H32 (FHE.asEuint32 maxDistance)) (msg_sender m) ∧
    granted (Core.acl s') (FHE.H8 (FHE.asEuint8 vehicleCapacity)) (msg_sender m)
}.

Lemma to_uint32_small (n : Z) : 0 ≤ n ≤ uint32_max → to_uint32 n = n.
Proof. intros. unfold to_uint32. apply Z.mod_small. lia. Qed.

Lemma core_request_ok (m : msg) (xs ys ps : list Z) (maxDistance vehicleCapacity : Z)
    (s : Core.state) :
  length xs = length ys → length xs = length ps → (0 < length xs)%nat →
  Z.of_nat (length xs) ≤ 255 → Core.routeCounter s + 1 ≤ uint32_max →
  ∃ s', Core.requestRouteOptimization m xs ys ps maxDistance vehicleCapacity s
          = Ok (Core.routeCounter s + 1, s') ∧
        core_request_post m xs ys ps maxDistance vehicleCapacity s s'.
Proof.
  intros Hxy Hxp Hpos Hn Hc. unfold Core.requestRouteOptimization.
  rewrite !bool_decide_true by done. simpl.
  unfold checked_add. destruct (Z.leb_spec (Core.routeCounter s + 1) uint32_max); [|lia].
  simpl. rewrite to_uint32_small by (unfold uint32_max; lia).
  set (routeId := Core.routeCounter s + 1).
  set (s1 := Core.set_request routeId _ (Core.set_routeCounter routeId s)).
  destruct (for_uint8_inv (core_store_inv m xs ys ps routeId s1)
              (Core.store_location m xs ys ps routeId) (Z.of_nat (length xs)))
    with (s := s1) as (s2 & -> & []).
  - intros i t ? ? _ ?. by apply core_store_location_step.
  - lia.
  - done.
  - split; try done. intros id j. rewrite bool_decide_false by lia. done.
    intros; lia.
  - simpl. eexists; split; [done|].
    assert (Core.routeRequests s2 !! routeId =
              Some (core_new_request m (Z.of_nat (length xs)) maxDistance vehicleCapacity))
      as Hr.
    { rewrite csi_requests0. subst s1. simpl. by rewrite lookup_insert_eq. }
    unfold Core.request_at; simpl. rewrite !Hr. split; simpl; try done.
    + unfold Core.routes_of at 1. simpl. by rewrite csi_users0.
    + by rewrite csi_log0.
    + intros g Hg. in_acl.
    + intros j loc Hj Hloc. destruct (csi_acl0 j loc) as ((?&?)&(?&?)&(?&?)); [done..|].
      unfold core_location_granted, granted. repeat split; in_acl.
    + unfold granted. repeat split; in_acl.
Qed.

Lemma core_request_inv (m : msg) (xs ys ps : list Z) (maxDistance vehicleCapacity : Z)
    (s : Core.state) (routeId : Z) (s' : Core.state) :
  Core.requestRouteOptimization m xs ys ps maxDistance vehicleCapacity s
    = Ok (routeId, s') →
  length xs = length ys ∧ length xs = length ps ∧ (0 < length xs)%nat ∧
  Z.of_nat (length xs) ≤ 255 ∧ Core.routeCounter s + 1 ≤ uint32_max ∧
  routeId = Core.routeCounter s + 1 ∧
  core_request_post m xs ys ps maxDistance vehicleCapacity s s'.
Proof.
  intros H.
  assert (length xs = length ys ∧ length xs = length ps ∧ (0 < length xs)%nat ∧
          Core.routeCounter s + 1 ≤ uint32_max) as (Hxy & Hxp & Hpos & Hc).
  { unfold Core.requestRouteOptimization in H. inv_ok H.
    apply require_ok, bool_decide_eq_true in Hstep, Hstep0, Hstep1.
    unfold checked_add in Hstep2.
    destruct (Z.leb_spec (Core.routeCounter s + 1) uint32_max); done. }
  destruct (Z.le_gt_cases (Z.of_nat (length xs)) 255) as [Hn|Hn].
  - destruct (core_request_ok m xs ys ps maxDistance vehicleCapacity s)
      as (s'' & Hok & Hpost); try done.
    rewrite Hok in H. inversion H; subst. done.
  - exfalso. unfold Core.requestRouteOptimization in H.
    rewrite !bool_decide_true in H by done. simpl in H.
    unfold checked_add in H.
    destruct (Z.leb_spec (Core.routeCounter s + 1) uint32_max); [|lia]. simpl in H.
    rewrite (for_uint8_overflow (fun _ _ => True)) in H; [done| |lia|done].
    intros i t ? ? ? _.
    destruct (lookup_lt_is_Some_2 xs (Z.to_nat i)) as [x Hx]; [lia|].
    destruct (lookup_lt_is_Some_2 ys (Z.to_nat i)) as [y Hy]; [lia|].
    destruct (lookup_lt_is_Some_2 ps (Z.to_nat i)) as [p Hp]; [lia|].
    unfold Core.store_location, index. rewrite Hx, Hy, Hp. simpl. eauto.
Qed.

(** ** The [uint8] loop: what a run that returned has established, and a run
    that fails in a given iteration *)
Section for_uint8_post.
Context {S : Type}.
Variable I : Z → S → Prop.
Variable body : Z → S → result S.
Variable bound : Z.
Hypothesis body_post : ∀ i s s', 0 ≤ i → i < bound → I i s →
  body i s = Ok s' → I (i + 1) s'.

Lemma for_uint8_from_post (fuel : nat) : ∀ i s s',
  0 ≤ i → i ≤ bound → I i s →
  for_uint8_from fuel bound i body s = Ok s' → I bound s'.
Proof.
  induction fuel as [|fuel IH]; intros i s s' Hi Hib HI H; [done|].
  simpl in H. destruct (Z.ltb_spec i bound) as [Hlt|Hge].
  - apply bind_ok in H as (s1 & Hbody & H).
    apply bind_ok in H as (i' & Hinc & H).
    unfold checked_add in Hinc. destruct (i + 1 <=? uint8_max); [|done].
    inversion Hinc; subst i'.
    apply (IH (i + 1) s1 s'); [lia..| |done]. by apply (body_post i s).
  - inversion H; subst s'. by replace bound with i by lia.
Qed.

Lemma for_uint8_post (s s' : S) :
  0 ≤ bound → I 0 s → for_uint8 bound body s = Ok s' → I bound s'.
Proof. intros. by apply (for_uint8_from_post 257 0 s s'). Qed.
End for_uint8_post.

Section for_uint8_fail.
Context {S : Type}.
Variable I : Z → S → Prop.
Variable body : Z → S → result S.
Variable bound k : Z.
Variable f : failure.
Hypothesis body_ok : ∀ i s, 0 ≤ i → i < k → I i s →
  ∃ s', body i s = Ok s' ∧ I (i + 1) s'.
Hypothesis body_fail : ∀ s, I k s → body k s = Fail f.

Lemma for_uint8_from_fail_at (fuel : nat) : ∀ i s,
  0 ≤ i → i ≤ k → k < bound → k ≤ 255 → (Z.to_nat (k - i) < fuel)%nat → I i s →
  for_uint8_from fuel bound i body s = Fail f.
Proof.
  induction fuel as [|fuel IH]; intros i s Hi Hik Hkb Hk Hf HI; [lia|].
  simpl. destruct (Z.ltb_spec i bound) as [Hlt|Hge]; [|lia].
  destruct (decide (i = k)) as [->|Hne].
  - by rewrite body_fail.
  - destruct (body_ok i s) as (s' & -> & HI'); [lia..|done|].
    simpl. unfold checked_add, uint8_max.
    destruct (Z.leb_spec (i + 1) 255); [|lia]. simpl.
    apply IH; [lia..|done].
Qed.

Lemma for_uint8_fail_at (s : S) :
  0 ≤ k → k < bound → k ≤ 255 → I 0 s → for_uint8 bound body s = Fail f.
Proof. intros. apply for_uint8_from_fail_at; [lia..|done]. Qed.
End for_uint8_fail.

(** ** Calls of the FHE library *)

Lemma fhevm_hcu_produced_eq (h : FHE.handle) (d : Z) (t : Fhevm.tx) :
  Fhevm.hcu (Fhevm.produced h d t) h = d.
Proof. unfold Fhevm.produced. simpl. by rewrite decide_True. Qed.

Lemma fhevm_hcu_produced_ne (h h' : FHE.handle) (d : Z) (t : Fhevm.tx) :
  h' ≠ h → Fhevm.hcu (Fhevm.produced h d t) h' = Fhevm.hcu t h'.
Proof. intros. unfold Fhevm.produced. simpl. by rewrite decide_False. Qed.

Lemma fhevm_allowed_transient (e : Fhevm.env) (t : Fhevm.tx) (h : FHE.handle) :
  h ∈ Fhevm.transient t → Fhevm.isAllowed e t h = true.
Proof. intros. unfold Fhevm.isAllowed. by rewrite bool_decide_true. Qed.

Lemma fhevm_allowed_persisted (e : Fhevm.env) (t : Fhevm.tx) (h : FHE.handle) :
  (h, FHE.This) ∈ Fhevm.persisted e → Fhevm.isAllowed e t h = true.
Proof.
  intros. unfold Fhevm.isAllowed, FHE.isAllowed.
  rewrite (bool_decide_true (_ ∈ Fhevm.persisted e)) by done. apply orb_true_r.
Qed.

Lemma fhevm_allowed_produced (e : Fhevm.env) (t : Fhevm.tx) (h h' : FHE.handle) (d : Z) :
  Fhevm.isAllowed e t h = true → Fhevm.isAllowed e (Fhevm.produced h' d t) h = true.
Proof.
  unfold Fhevm.isAllowed. simpl. intros [H|H]%orb_true_iff.
  - apply bool_decide_eq_true in H. rewrite bool_decide_true; [done|].
    by apply elem_of_cons; right.
  - rewrite H. apply orb_true_r.
Qed.

(** A library call that returns has produced the handle term of its
    operation on the initialized operands. *)
Lemma fhevm_initialized32_inv (e : Fhevm.env) (a a' : FHE.euint32) (t t' : Fhevm.tx) :
  Fhevm.initialized32 e a t = Ok (a', t') → a' = FHE.initialized a.
Proof.
  destruct a; simpl; intros H; try by inversion H.
  unfold Fhevm.asEuint32, Fhevm.trivialEncrypt32, Fhevm.coprocessor in H.
  destruct (Fhevm.configured e); simpl in H; by inversion H.
Qed.

Lemma fhevm_binary32_inv (price : Z) (op : FHE.euint32 → FHE.euint32 → FHE.euint32)
    (e : Fhevm.env) (a b r : FHE.euint32) (t t' : Fhevm.tx) :
  Fhevm.binary32 price op e a b t = Ok (r, t') → r = op a b.
Proof.
  unfold Fhevm.binary32. intros H.
  apply bind_ok in H as (? & _ & H). apply bind_ok in H as (? & _ & H).
  apply bind_ok in H as (? & _ & H). apply bind_ok in H as (? & _ & H).
  by inversion H.
Qed.

Lemma fhevm_sub_inv (e : Fhevm.env) (a b r : FHE.euint32) (t t' : Fhevm.tx) :
  Fhevm.sub e a b t = Ok (r, t') → r = FHE.sub (FHE.initialized a) (FHE.initialized b).
Proof.
  unfold Fhevm.sub. intros H.
  apply bind_ok in H as ([a1 t1] & Ha & H). apply bind_ok in H as ([b1 t2] & Hb & H).
  apply fhevm_initialized32_inv in Ha, Hb. subst.
  by apply fhevm_binary32_inv in H.
Qed.

Lemma fhevm_add_inv (e : Fhevm.env) (a b r : FHE.euint32) (t t' : Fhevm.tx) :
  Fhevm.add e a b t = Ok (r, t') → r = FHE.add (FHE.initialized a) (FHE.initialized b).
Proof.
  unfold Fhevm.add. intros H.
  apply bind_ok in H as ([a1 t1] & Ha & H). apply bind_ok in H as ([b1 t2] & Hb & H).
  apply fhevm_initialized32_inv in Ha, Hb. subst.
  by apply fhevm_binary32_inv in H.
Qed.

(** A binary operation on two allowed operands of a configured contract
    returns as soon as the depth stays below the limit. *)
Lemma fhevm_binary32_ok (price : Z) (op : FHE.euint32 → FHE.euint32 → FHE.euint32)
    (e : Fhevm.env) (a b : FHE.euint32) (t : Fhevm.tx) :
  Fhevm.configured e = true →
  Fhevm.isAllowed e t (FHE.H32 a) = true →
  Fhevm.isAllowed e t (FHE.H32 b) = true →
  price + Z.max (Fhevm.hcu t (FHE.H32 a)) (Fhevm.hcu t (FHE.H32 b))
    < Fhevm.HCU_DEPTH_LIMIT →
  Fhevm.binary32 price op e a b t =
    Ok (op a b,
        Fhevm.produced (FHE.H32 (op a b))
          (price + Z.max (Fhevm.hcu t (FHE.H32 a)) (Fhevm.hcu t (FHE.H32 b))) t).
Proof.
  intros Hc Ha Hb Hd. unfold Fhevm.binary32, Fhevm.coprocessor, Fhevm.operand,
    Fhevm.checkHCU.
  rewrite Hc, Ha, Hb. simpl.
  destruct (Z.leb_spec Fhevm.HCU_DEPTH_LIMIT
              (price + Z.max (Fhevm.hcu t (FHE.H32 a)) (Fhevm.hcu t (FHE.H32 b))));
    [lia|done].
Qed.

Lemma fhevm_binary32_deep (price : Z) (op : FHE.euint32 → FHE.euint32 → FHE.euint32)
    (e : Fhevm.env) (a b : FHE.euint32) (t : Fhevm.tx) :
  Fhevm.configured e = true →
  Fhevm.isAllowed e t (FHE.H32 a) = true →
  Fhevm.isAllowed e t (FHE.H32 b) = true →
  Fhevm.HCU_DEPTH_LIMIT
    ≤ price + Z.max (Fhevm.hcu t (FHE.H32 a)) (Fhevm.hcu t (FHE.H32 b)) →
  Fhevm.binary32 price op e a b t = Fail (Fhevm HCUTransactionDepthLimitExceeded).
Proof.
  intros Hc Ha Hb Hd. unfold Fhevm.binary32, Fhevm.coprocessor, Fhevm.operand,
    Fhevm.checkHCU.
  rewrite Hc, Ha, Hb. simpl.
  destruct (Z.leb_spec Fhevm.HCU_DEPTH_LIMIT
              (price + Z.max (Fhevm.hcu t (FHE.H32 a)) (Fhevm.hcu t (FHE.H32 b))));
    [done|lia].
Qed.

Lemma fhevm_operand_ok (e : Fhevm.env) (t : Fhevm.tx) (h : FHE.handle) :
  Fhevm.isAllowed e t h = true → Fhevm.operand e t h = Ok tt.
Proof. intros H. unfold Fhevm.operand. by rewrite H. Qed.

(** At the start of a transaction only persistent grants count. *)
Lemma fhevm_operand_begin (e : Fhevm.env) (h : FHE.handle) :
  Fhevm.operand e Fhevm.tx_begin h =
    if FHE.isAllowed h FHE.This (Fhevm.persisted e) then Ok tt
    else Fail (Fhevm ACLNotAllowed).
Proof.
  unfold Fhevm.operand, Fhevm.isAllowed. done.
Qed.

(** ** Core: [_calculateOptimalRoute] *)

Lemma core_accumulated_S (s : Core.state) (routeId : Z) (k : nat) :
  core_accumulated s routeId (S k) =
  FHE.add (core_accumulated s routeId k)
    (core_distance s routeId (Z.of_nat k) (Z.of_nat k + 1)).
Proof.
  unfold core_accumulated. rewrite seq_S, fmap_app, foldl_app. done.
Qed.

(** The running total is a trivial encryption or an addition whose left
    operand is not a subtraction: it is none of the handles that
    [_calculateDistance] produces. *)
Lemma core_accumulated_head (s : Core.state) (routeId : Z) (k : nat) :
  (∃ v, core_accumulated s routeId k = FHE.asEuint32 v) ∨
  (∃ a b, core_accumulated s routeId k = FHE.add a b ∧ ∀ c d, a ≠ FHE.sub c d).
Proof.
  destruct k as [|k]; [left; by exists 0|]. right.
  rewrite core_accumulated_S. eexists _, _. split; [done|].
  intros c d. destruct k as [|k]; [done|]. by rewrite core_accumulated_S.
Qed.

Lemma core_accumulated_initialized (s : Core.state) (routeId : Z) (k : nat) :
  FHE.initialized (core_accumulated s routeId k) = core_accumulated s routeId k.
Proof. destruct (core_accumulated_head s routeId k) as [[v ->]|(a & b & -> & _)]; done. Qed.

Lemma core_calculateDistance_inv (s : Core.state) (routeId from to : Z)
    (t t' : Fhevm.tx) (d : FHE.euint32) :
  Core._calculateDistance s routeId from to t = Ok (d, t') →
  d = core_distance s routeId from to.
Proof.
  unfold Core._calculateDistance. intros H.
  apply bind_ok in H as ([dx t1] & Hx & H). apply bind_ok in H as ([dy t2] & Hy & H).
  apply fhevm_sub_inv in Hx, Hy. apply fhevm_add_inv in H. by subst.
Qed.

Lemma core_calculateOptimalRoute_inv (s : Core.state) (routeId : Z)
    (t t' : Fhevm.tx) (acc : FHE.euint32) :
  Core._calculateOptimalRoute s routeId t = Ok (acc, t') →
  let n := Core.RouteRequest.locationCount (Core.request_at s routeId) in
  1 ≤ n ∧ acc = core_accumulated s routeId (Z.to_nat (n - 1)).
Proof.
  intros H n. unfold Core._calculateOptimalRoute in H. fold n in H.
  apply bind_ok in H as ([t0 t1] & H0 & H). inversion H0; subst t0 t1; clear H0.
  apply bind_ok in H as (bound & Hb & H). unfold checked_sub in Hb.
  destruct (Z.leb_spec 1 n) as [Hn|]; [|done]. inversion Hb; subst bound; clear Hb.
  split; [done|].
  apply (for_uint8_post
           (fun i (st : FHE.euint32 * Fhevm.tx) =>
              st.1 = core_accumulated s routeId (Z.to_nat i))) in H; [done| |lia|done].
  intros i [a ta] [a' ta'] Hi Hlt Ha Hbody. simpl in *. subst a.
  apply bind_ok in Hbody as (to & Hto & Hbody).
  unfold checked_add in Hto. destruct (i + 1 <=? uint8_max); [|done].
  inversion Hto; subst to; clear Hto.
  apply bind_ok in Hbody as ([d td] & Hd & Hbody).
  apply core_calculateDistance_inv in Hd. apply fhevm_add_inv in Hbody. subst.
  replace (Z.to_nat (i + 1)) with (S (Z.to_nat i)) by lia.
  rewrite core_accumulated_S, core_accumulated_initialized.
  by rewrite Z2Nat.id by done.
Qed.

Lemma core_calculateOptimalRoute_underflow (s : Core.state) (routeId : Z) (t : Fhevm.tx) :
  Core.RouteRequest.locationCount (Core.request_at s routeId) < 1 →
  Core._calculateOptimalRoute s routeId t = Fail (Panic 17).
Proof.
  intros Hn. unfold Core._calculateOptimalRoute, checked_sub. simpl.
  by destruct (Z.leb_spec 1 (Core.RouteRequest.locationCount (Core.request_at s routeId)));
    [lia|].
Qed.

(** One pair: on a ready route, from a transaction in which no trivial
    encryption carries a depth, [_calculateDistance] returns; the two
    differences have the depth of one subtraction, the distance one
    addition more. *)
Lemma core_calculateDistance_ok (s : Core.state) (routeId i : Z) (t : Fhevm.tx) :
  core_route_ready s routeId →
  0 ≤ i → i + 1 < Core.RouteRequest.locationCount (Core.request_at s routeId) →
  (∀ v, Fhevm.hcu t (FHE.H32 (FHE.asEuint32 v)) = 0) →
  ∃ t', Core._calculateDistance s routeId i (i + 1) t
          = Ok (core_distance s routeId i (i + 1), t') ∧
        FHE.H32 (core_distance s routeId i (i + 1)) ∈ Fhevm.transient t' ∧
        Fhevm.hcu t' (FHE.H32 (core_distance s routeId i (i + 1))) = 250000 ∧
        (∀ h, h ∈ Fhevm.transient t → h ∈ Fhevm.transient t') ∧
        (∀ v, Fhevm.hcu t' (FHE.H32 (FHE.asEuint32 v)) = 0) ∧
        (∀ a b, (∀ c d, a ≠ FHE.sub c d) →
           Fhevm.hcu t' (FHE.H32 (FHE.add a b)) = Fhevm.hcu t (FHE.H32 (FHE.add a b))).
Proof.
  intros Hready Hi Hlt Htriv.
  destruct (Hready i) as (x1 & y1 & Hx1 & Hy1 & Hgx1 & Hgy1); [lia|].
  destruct (Hready (i + 1)) as (x2 & y2 & Hx2 & Hy2 & Hgx2 & Hgy2); [lia|].
  unfold Core._calculateDistance, core_distance. rewrite Hx1, Hy1, Hx2, Hy2.
  unfold Fhevm.sub, Fhevm.add, Fhevm.fheSub, Fhevm.fheAdd. simpl.
  rewrite fhevm_binary32_ok; cycle 1.
  { done. }
  { by apply fhevm_allowed_persisted. }
  { by apply fhevm_allowed_persisted. }
  { rewrite !Htriv. unfold Fhevm.hcu_sub32, Fhevm.HCU_DEPTH_LIMIT. lia. }
  rewrite !Htriv. change (Fhevm.hcu_sub32 + 0 `max` 0) with 125000. simpl.
  set (dx := FHE.sub (FHE.asEuint32 x2) (FHE.asEuint32 x1)).
  set (t1 := Fhevm.produced (FHE.H32 dx) 125000 t).
  assert (∀ v, Fhevm.hcu t1 (FHE.H32 (FHE.asEuint32 v)) = 0) as Htriv1.
  { intros v. unfold t1. by rewrite fhevm_hcu_produced_ne. }
  rewrite fhevm_binary32_ok; cycle 1.
  { done. }
  { by apply fhevm_allowed_persisted. }
  { by apply fhevm_allowed_persisted. }
  { rewrite !Htriv1. unfold Fhevm.hcu_sub32, Fhevm.HCU_DEPTH_LIMIT. lia. }
  rewrite !Htriv1. change (Fhevm.hcu_sub32 + 0 `max` 0) with 125000. simpl.
  set (dy := FHE.sub (FHE.asEuint32 y2) (FHE.asEuint32 y1)).
  set (t2 := Fhevm.produced (FHE.H32 dy) 125000 t1).
  assert (Fhevm.hcu t2 (FHE.H32 dx) = 125000) as Hdx.
  { unfold t2, Fhevm.produced. simpl. destruct (decide (FHE.H32 dx = FHE.H32 dy)); [done|].
    unfold t1. apply fhevm_hcu_produced_eq. }
  assert (Fhevm.hcu t2 (FHE.H32 dy) = 125000) as Hdy by apply fhevm_hcu_produced_eq.
  rewrite fhevm_binary32_ok; cycle 1.
  { done. }
  { apply fhevm_allowed_transient. unfold t2, t1. simpl. set_solver. }
  { apply fhevm_allowed_transient. unfold t2. simpl. set_solver. }
  { rewrite Hdx, Hdy. unfold Fhevm.hcu_add32, Fhevm.HCU_DEPTH_LIMIT. lia. }
  rewrite Hdx, Hdy. change (Fhevm.hcu_add32 + 125000 `max` 125000) with 250000.
  eexists; split; [done|]. split; [simpl; set_solver|]. split.
  { apply fhevm_hcu_produced_eq. }
  split; [simpl; set_solver|]. split.
  - intros v. rewrite fhevm_hcu_produced_ne by done. unfold t2.
    by rewrite fhevm_hcu_produced_ne.
  - intros a b Hsub.
    rewrite fhevm_hcu_produced_ne.
    2: { intros [= -> ->]. by apply (Hsub (FHE.asEuint32 x2) (FHE.asEuint32 x1)). }
    unfold t2. rewrite fhevm_hcu_produced_ne by done.
    unfold t1. by rewrite fhevm_hcu_produced_ne.
Qed.

(** The state of the loop of [_calculateOptimalRoute] before iteration [i]
    on a ready route: the running total is the accumulated handle, the
    contract is transiently allowed on it, and its depth is that of [i + 2]
    operations (0 before the first iteration). *)
Lemma core_chain_step (s : Core.state) (routeId i : Z) (acc : FHE.euint32) (t : Fhevm.tx) :
  core_route_ready s routeId →
  0 ≤ i → i + 1 < Core.RouteRequest.locationCount (Core.request_at s routeId) →
  acc = core_accumulated s routeId (Z.to_nat i) →
  FHE.H32 acc ∈ Fhevm.transient t →
  Fhevm.hcu t (FHE.H32 acc) = (if decide (i = 0) then 0 else 125000 * (i + 2)) →
  (∀ v, Fhevm.hcu t (FHE.H32 (FHE.asEuint32 v)) = 0) →
  ∃ td,
    Core._calculateDistance s routeId i (i + 1) t
      = Ok (core_distance s routeId i (i + 1), td) ∧
    (i + 3 < 40 →
     ∃ t', Fhevm.add (Core.fhevm s) acc (core_distance s routeId i (i + 1)) td
             = Ok (core_accumulated s routeId (Z.to_nat (i + 1)), t') ∧
           FHE.H32 (core_accumulated s routeId (Z.to_nat (i + 1))) ∈ Fhevm.transient t' ∧
           Fhevm.hcu t' (FHE.H32 (core_accumulated s routeId (Z.to_nat (i + 1))))
             = 125000 * (i + 3) ∧
           (∀ v, Fhevm.hcu t' (FHE.H32 (FHE.asEuint32 v)) = 0)) ∧
    (40 ≤ i + 3 →
     Fhevm.add (Core.fhevm s) acc (core_distance s routeId i (i + 1)) td
       = Fail (Fhevm HCUTransactionDepthLimitExceeded)).
Proof.
  intros Hready Hi Hlt Hacc Hin Hd Htriv.
  destruct (core_calculateDistance_ok s routeId i t Hready Hi Hlt Htriv)
    as (td & Hdist & Hdin & Hdd & Hmono & Htriv' & Hkeep).
  exists td. split; [done|].
  assert (Fhevm.hcu td (FHE.H32 acc) = if decide (i = 0) then 0 else 125000 * (i + 2))
    as Hd'.
  { destruct (core_accumulated_head s routeId (Z.to_nat i))
      as [[v Hv]|(a & b & Hab & Hsub)]; rewrite <- Hacc in *.
    - rewrite Hv in *. rewrite Htriv'. by rewrite Htriv in Hd.
    - rewrite Hab in *. by rewrite Hkeep. }
  assert (Fhevm.add (Core.fhevm s) acc (core_distance s routeId i (i + 1)) td =
          Fhevm.fheAdd (Core.fhevm s) acc (core_distance s routeId i (i + 1)) td)
    as ->.
  { unfold Fhevm.add.
    assert (Fhevm.initialized32 (Core.fhevm s) acc td = Ok (acc, td)) as ->.
    { destruct (core_accumulated_head s routeId (Z.to_nat i))
        as [[v Hv]|(a & b & Hab & _)]; rewrite <- Hacc in *;
        [rewrite Hv|rewrite Hab]; done. }
    done. }
  assert (Fhevm.hcu_add32
            + Fhevm.hcu td (FHE.H32 acc)
                `max` Fhevm.hcu td (FHE.H32 (core_distance s routeId i (i + 1)))
          = 125000 * (i + 3)) as Hdepth.
  { rewrite Hd', Hdd. unfold Fhevm.hcu_add32. destruct (decide (i = 0)); lia. }
  split.
  - intros Hsmall. unfold Fhevm.fheAdd. rewrite fhevm_binary32_ok; cycle 1.
    { done. }
    { apply fhevm_allowed_transient. by apply Hmono. }
    { by apply fhevm_allowed_transient. }
    { rewrite Hdepth. unfold Fhevm.HCU_DEPTH_LIMIT. lia. }
    rewrite Hdepth.
    assert (core_accumulated s routeId (Z.to_nat (i + 1))
            = FHE.add acc (core_distance s routeId i (i + 1))) as ->.
    { replace (Z.to_nat (i + 1)) with (S (Z.to_nat i)) by lia.
      rewrite core_accumulated_S, <- Hacc. by rewrite Z2Nat.id by done. }
    eexists; split; [done|]. split; [simpl; set_solver|]. split.
    + apply fhevm_hcu_produced_eq.
    + intros v. by rewrite fhevm_hcu_produced_ne.
  - intros Hbig. unfold Fhevm.fheAdd. apply fhevm_binary32_deep.
    + done.
    + apply fhevm_allowed_transient. by apply Hmono.
    + by apply fhevm_allowed_transient.
    + rewrite Hdepth. unfold Fhevm.HCU_DEPTH_LIMIT. lia.
Qed.

(** On a ready route of at most 38 locations [_calculateOptimalRoute]
    returns the accumulated handle; with 39 or more the 38th addition to the
    running total reaches the depth limit. *)
Lemma core_calculateOptimalRoute_ok (s : Core.state) (routeId : Z) :
  let n := Core.RouteRequest.locationCount (Core.request_at s routeId) in
  core_route_ready s routeId → 1 ≤ n → n ≤ 38 →
  ∃ t, Core._calculateOptimalRoute s routeId Fhevm.tx_begin =
         Ok (core_accumulated s routeId (Z.to_nat (n - 1)), t).
Proof.
  intros n Hready Hn1 Hn2. unfold Core._calculateOptimalRoute. fold n. simpl.
  unfold checked_sub. destruct (Z.leb_spec 1 n); [|lia]. simpl.
  edestruct (for_uint8_inv
    (fun i (st : FHE.euint32 * Fhevm.tx) =>
       st.1 = core_accumulated s routeId (Z.to_nat i) ∧
       FHE.H32 st.1 ∈ Fhevm.transient st.2 ∧
       Fhevm.hcu st.2 (FHE.H32 st.1) = (if decide (i = 0) then 0 else 125000 * (i + 2)) ∧
       ∀ v, Fhevm.hcu st.2 (FHE.H32 (FHE.asEuint32 v)) = 0)
    (fun i '(totalDistance, t) =>
       to ← checked_add uint8_max i 1;
       '(distance, t) ← Core._calculateDistance s routeId i to t;
       Fhevm.add (Core.fhevm s) totalDistance distance t)
    (n - 1)) as ([acc t] & Hloop & Hacc & _); cycle 4.
  - rewrite Hloop. simpl in Hacc. subst acc. by eexists.
  - intros i [acc t] Hi Hlt _ (Hacc & Hin & Hd & Htriv). simpl in *.
    unfold checked_add, uint8_max. destruct (Z.leb_spec (i + 1) 255); [|lia]. simpl.
    destruct (core_chain_step s routeId i acc t) as (td & -> & Hok & _);
      [done|done|fold n; lia|done..|].
    simpl. destruct Hok as (t' & -> & Hin' & Hd' & Htriv'); [lia|].
    eexists; split; [done|]. simpl. repeat split; try done.
    rewrite Hd'. destruct (decide (i + 1 = 0)); [lia|]. lia.
  - lia.
  - lia.
  - simpl. split; [done|]. split; [set_solver|]. split; [done|]. intros v.
    by destruct (decide _).
Qed.

Lemma core_calculateOptimalRoute_too_deep (s : Core.state) (routeId : Z) :
  let n := Core.RouteRequest.locationCount (Core.request_at s routeId) in
  core_route_ready s routeId → 39 ≤ n →
  Core._calculateOptimalRoute s routeId Fhevm.tx_begin
    = Fail (Fhevm HCUTransactionDepthLimitExceeded).
Proof.
  intros n Hready Hn. unfold Core._calculateOptimalRoute. fold n. simpl.
  unfold checked_sub. destruct (Z.leb_spec 1 n); [|lia]. simpl.
  apply (for_uint8_fail_at
    (fun i (st : FHE.euint32 * Fhevm.tx) =>
       st.1 = core_accumulated s routeId (Z.to_nat i) ∧
       FHE.H32 st.1 ∈ Fhevm.transient st.2 ∧
       Fhevm.hcu st.2 (FHE.H32 st.1) = (if decide (i = 0) then 0 else 125000 * (i + 2)) ∧
       ∀ v, Fhevm.hcu st.2 (FHE.H32 (FHE.asEuint32 v)) = 0)
    _ (n - 1) 37).
  - intros i [acc t] Hi Hlt (Hacc & Hin & Hd & Htriv). simpl in *.
    unfold checked_add, uint8_max. destruct (Z.leb_spec (i + 1) 255); [|lia]. simpl.
    destruct (core_chain_step s routeId i acc t) as (td & -> & Hok & _);
      [done|done|fold n; lia|done..|].
    simpl. destruct Hok as (t' & -> & Hin' & Hd' & Htriv'); [lia|].
    eexists; split; [done|]. simpl. repeat split; try done.
    rewrite Hd'. destruct (decide (i + 1 = 0)); [lia|]. lia.
  - intros [acc t] (Hacc & Hin & Hd & Htriv). simpl in *.
    destruct (core_chain_step s routeId 37 acc t) as (td & -> & _ & Hdeep);
      [done|done|fold n; lia|done..|].
    simpl. apply Hdeep. lia.
  - lia.
  - lia.
  - lia.
  - simpl. split; [done|]. split; [set_solver|]. split; [done|]. intros v.
    by destruct (decide _).
Qed.

(** [_calculateDeliveryTime] returns in every state: it multiplies two
    trivial encryptions it has just made. *)
Lemma core_calculateDeliveryTime_ok (s : Core.state) (routeId : Z)
    (totalDistance : FHE.euint32) (t : Fhevm.tx) :
  ∃ t', Core._calculateDeliveryTime s routeId totalDistance t
          = Ok (FHE.asEuint8 100, t').
Proof.
  unfold Core._calculateDeliveryTime, Fhevm.mul, Fhevm.fheMul. simpl.
  set (n := Core.RouteRequest.locationCount (Core.request_at s routeId)).
  set (t1 := Fhevm.produced (FHE.H32 (FHE.asEuint32 n)) 0 t).
  set (t2 := Fhevm.produced (FHE.H32 (FHE.asEuint32 5)) 0 t1).
  assert (Fhevm.hcu t2 (FHE.H32 (FHE.asEuint32 n)) = 0) as Hn.
  { unfold t2, t1, Fhevm.produced. simpl. by repeat destruct (decide _). }
  assert (Fhevm.hcu t2 (FHE.H32 (FHE.asEuint32 5)) = 0) as H5
    by apply fhevm_hcu_produced_eq.
  rewrite fhevm_binary32_ok; cycle 1.
  { done. }
  { apply fhevm_allowed_transient. unfold t2, t1. simpl. set_solver. }
  { apply fhevm_allowed_transient. unfold t2. simpl. set_solver. }
  { rewrite Hn, H5. unfold Fhevm.hcu_mul32, Fhevm.HCU_DEPTH_LIMIT. lia. }
  simpl. by eexists.
Qed.

(** ** Core: the plaintext behind the accumulated handle *)

(** Decryption of the accumulated handle telescopes: only the first and the
    last location matter. *)
Lemma fhe_decrypt_initialized (a : FHE.euint32) :
  FHE.decrypt32 (FHE.initialized a) = FHE.decrypt32 a.
Proof. by destruct a. Qed.

Lemma core_accumulated_decrypt (s : Core.state) (routeId : Z) (k : nat) :
  FHE.decrypt32 (core_accumulated s routeId k) =
  ((core_plain_x s routeId (Z.of_nat k) - core_plain_x s routeId 0) +
   (core_plain_y s routeId (Z.of_nat k) - core_plain_y s routeId 0)) mod 2 ^ 32.
Proof.
  induction k as [|k IH].
  - unfold core_accumulated. simpl. change (Z.of_nat 0) with 0.
    replace (_ - _ + (_ - _)) with 0 by lia. done.
  - rewrite core_accumulated_S. unfold core_distance. simpl FHE.decrypt32.
    rewrite !fhe_decrypt_initialized. rewrite IH.
    unfold core_plain_x, core_plain_y.
    replace (Z.of_nat (S k)) with (Z.of_nat k + 1) by lia.
    set (M := 2 ^ 32).
    rewrite Z.add_mod_idemp_l by done.
    rewrite <- (Z.add_mod _ _ M) by done.
    rewrite Z.add_mod_idemp_r by done.
    f_equal. lia.
Qed.

(** ** Core: what a successful [processRouteOptimization] does *)

Lemma core_process_inv (m : msg) (routeId : Z) (s s' : Core.state) :
  Core.processRouteOptimization m routeId s = Ok s' →
  let r := Core.request_at s routeId in
  let n := Core.RouteRequest.locationCount r in
  let totalDistance := core_accumulated s routeId (Z.to_nat (n - 1)) in
  msg_sender m = Core.owner s ∧
  Core.RouteRequest.processed r = false ∧
  Core.RouteRequest.requester r ≠ address_zero ∧
  1 ≤ n ∧ n ≤ 255 ∧
  Core.owner s' = Core.owner s ∧
  Core.routeCounter s' = Core.routeCounter s ∧
  Core.routeRequests s' =
    <[routeId := core_processed_request r routeId]> (Core.routeRequests s) ∧
  Core.routeLocations s' = Core.routeLocations s ∧
  Core.optimizedRoutes s' =
    <[routeId := Core.OptimizedRoute.mk routeId (Core.RouteRequest.requester r)
                   totalDistance (FHE.asEuint8 100) true (block_timestamp m)
                   (identity_order n)]>
      (Core.optimizedRoutes s) ∧
  Core.userRoutes s' = Core.userRoutes s ∧
  Core.acl s' =
    FHE.allow (FHE.H8 (FHE.asEuint8 100)) (Core.RouteRequest.requester r)
      (FHE.allow (FHE.H32 totalDistance) (Core.RouteRequest.requester r)
         (FHE.allowThis (FHE.H8 (FHE.asEuint8 100))
            (FHE.allowThis (FHE.H32 totalDistance) (Core.acl s)))) ∧
  Core.log s' =
    Core.RouteOptimized routeId (Core.RouteRequest.requester r) 0 :: Core.log s.
Proof.
  unfold Core.processRouteOptimization, Core.onlyOwner, Core._generateRouteOrder.
  intros H. inv_ok H.
  apply require_ok, bool_decide_eq_true in Hstep.
  apply require_ok, negb_true_iff in Hstep0.
  apply require_ok, negb_true_iff, bool_decide_eq_false in Hstep1.
  apply fill_order_inv in Hstep4 as [Hn255 ->].
  apply core_calculateOptimalRoute_inv in Hstep2 as [Hn1 ->].
  match type of Hstep3 with
  | Core._calculateDeliveryTime ?s0 ?i0 ?d0 ?t0 = _ =>
      destruct (core_calculateDeliveryTime_ok s0 i0 d0 t0) as (t2' & Htime)
  end.
  rewrite Htime in Hstep3. inversion Hstep3; subst; clear Hstep3.
  inversion H; subst s'; clear H. simpl.
  repeat split; done.
Qed.

(** On a ready route the outcome of the owner's call is decided by the
    number of locations. *)
Lemma core_process_ok (m : msg) (routeId : Z) (s : Core.state) :
  let r := Core.request_at s routeId in
  msg_sender m = Core.owner s →
  Core.RouteRequest.processed r = false →
  Core.RouteRequest.requester r ≠ address_zero →
  core_route_ready s routeId →
  1 ≤ Core.RouteRequest.locationCount r → Core.RouteRequest.locationCount r ≤ 38 →
  ∃ s', Core.processRouteOptimization m routeId s = Ok s'.
Proof.
  intros r Ho Hp Hr Hready Hn1 Hn2.
  unfold Core.processRouteOptimization, Core.onlyOwner, Core._generateRouteOrder.
  rewrite (bool_decide_true (msg_sender m = Core.owner s)) by done. simpl.
  fold r. rewrite Hp. simpl.
  rewrite bool_decide_false by done. simpl.
  destruct (core_calculateOptimalRoute_ok s routeId Hready) as (t1 & ->);
    [fold r; lia..|]. simpl.
  destruct (core_calculateDeliveryTime_ok s routeId
              (core_accumulated s routeId
                 (Z.to_nat (Core.RouteRequest.locationCount (Core.request_at s routeId) - 1)))
              t1) as (t2 & ->). simpl.
  rewrite fill_order_ok by (fold r; lia). simpl. eauto.
Qed.

Lemma core_process_too_deep (m : msg) (routeId : Z) (s : Core.state) :
  let r := Core.request_at s routeId in
  msg_sender m = Core.owner s →
  Core.RouteRequest.processed r = false →
  Core.RouteRequest.requester r ≠ address_zero →
  core_route_ready s routeId →
  39 ≤ Core.RouteRequest.locationCount r →
  Core.processRouteOptimization m routeId s
    = Fail (Fhevm HCUTransactionDepthLimitExceeded).
Proof.
  intros r Ho Hp Hr Hready Hn.
  unfold Core.processRouteOptimization, Core.onlyOwner.
  rewrite (bool_decide_true (msg_sender m = Core.owner s)) by done. simpl.
  fold r. rewrite Hp. simpl.
  rewrite bool_decide_false by done. simpl.
  by rewrite core_calculateOptimalRoute_too_deep by done.
Qed.

(** ** Core: invariants of reachable states *)


Lemma core_inv_constructor (m : msg) : core_inv (Core.constructor m).
Proof.
  split; simpl; done.
Qed.

Lemma core_request_at_some (s : Core.state) (id : Z) :
  Core.RouteRequest.requester (Core.request_at s id) ≠ address_zero →
  Core.routeRequests s !! id = Some (Core.request_at s id).
Proof.
  unfold Core.request_at. destruct (Core.routeRequests s !! id); simpl; done.
Qed.

Lemma core_request_at_processed (s : Core.state) (id : Z) :
  Core.RouteRequest.processed (Core.request_at s id) = true →
  Core.routeRequests s !! id = Some (Core.request_at s id).
Proof.
  unfold Core.request_at. destruct (Core.routeRequests s !! id); simpl; done.
Qed.

Lemma core_location_at_active (s : Core.state) (id i : Z) :
  Core.DeliveryLocation.isActive (Core.location_at s id i) = true →
  Core.routeLocations s !! (id, i) = Some (Core.location_at s id i).
Proof.
  unfold Core.location_at. destruct (Core.routeLocations s !! (id, i)); simpl; done.
Qed.

Lemma core_mark_inv (m : msg) (routeId i : Z) (s s' : Core.state) :
  Core.markDeliveryCompleted m routeId i s = Ok s' →
  let l := Core.location_at s routeId i in
  msg_sender m = Core.RouteRequest.requester (Core.request_at s routeId) ∧
  Core.RouteRequest.processed (Core.request_at s routeId) = true ∧
  i < Core.RouteRequest.locationCount (Core.request_at s routeId) ∧
  Core.DeliveryLocation.isActive l = true ∧
  s' = Core.emit (Core.DeliveryCompleted routeId i)
         (Core.set_location routeId i
            (Core.DeliveryLocation.mk (Core.DeliveryLocation.encryptedX l)
               (Core.DeliveryLocation.encryptedY l)
               (Core.DeliveryLocation.priority l) false) s).
Proof.
  unfold Core.markDeliveryCompleted, Core.onlyRequester. intros H. inv_ok H.
  apply require_ok, bool_decide_eq_true in Hstep.
  apply require_ok in Hstep0, Hstep1, Hstep2.
  apply Z.ltb_lt in Hstep1. inversion H. done.
Qed.

Lemma core_inv_step (s : Core.state) (tx : msg * Core.call) :
  core_inv s → core_inv (Core.step s tx).
Proof.
  intros Hinv. destruct tx as [m c]. unfold Core.step. simpl.
  destruct (Core.exec m c s) as [s'|] eqn:Hexec; [|done].
  destruct Hinv as [Hc Hreq Hloc Hopt].
  destruct c as [xs ys ps md vc|routeId|routeId i]; simpl in Hexec.
  - inv_ok Hexec. destruct a as [routeId s1]. inversion Hexec; subst s1; clear Hexec.
    apply core_request_inv in Hstep as (Hxy & Hxp & Hpos & Hn & Hcnt & -> & []).
    split.
    + rewrite crp_counter0. lia.
    + intros id r. rewrite crp_requests0, crp_counter0.
      destruct (decide (id = Core.routeCounter s + 1)) as [->|Hne].
      * rewrite lookup_insert_eq. intros [= <-]. simpl. lia.
      * rewrite lookup_insert_ne by done. intros Hr.
        destruct (Hreq id r Hr). lia.
    + intros id j l. rewrite crp_locations0, crp_counter0. case_bool_decide.
      * intros _. lia.
      * intros Hl. specialize (Hloc _ _ _ Hl). lia.
    + intros id o. rewrite crp_optimized0. intros Ho.
      destruct (Hopt id o Ho) as [Hp Hr].
      apply core_request_at_processed in Hp as Hsome.
      destruct (Hreq _ _ Hsome) as [? _].
      unfold Core.request_at in *. rewrite crp_requests0.
      rewrite lookup_insert_ne by lia. done.
  - apply core_process_inv in Hexec
      as (Ho & Hp & Hr & Hn1 & Hn255 & Hown & Hcnt & Hreqs & Hlocs & Hopts & _ & _ & _).
    apply core_request_at_some in Hr as Hsome.
    split.
    + by rewrite Hcnt.
    + intros id r. rewrite Hreqs, Hcnt.
      destruct (decide (id = routeId)) as [->|Hne].
      * rewrite lookup_insert_eq. intros [= <-]. simpl.
        destruct (Hreq _ _ Hsome). done.
      * rewrite lookup_insert_ne by done. apply Hreq.
    + intros id j l. rewrite Hlocs, Hcnt. apply Hloc.
    + intros id o. rewrite Hopts. unfold Core.request_at. rewrite Hreqs.
      destruct (decide (id = routeId)) as [->|Hne].
      * rewrite !lookup_insert_eq. intros [= <-]. done.
      * rewrite !lookup_insert_ne by done. apply Hopt.
  - apply core_mark_inv in Hexec as (Hs & Hp & Hi & Hact & ->).
    apply core_location_at_active in Hact as Hsome.
    split; simpl; try done.
    intros id j l. destruct (decide ((id, j) = (routeId, i))) as [[= -> ->]|Hne].
    + intros _. by apply (Hloc _ _ _ Hsome).
    + rewrite lookup_insert_ne by done. apply Hloc.
Qed.

Lemma core_inv_run (txs : list (msg * Core.call)) : ∀ s,
  core_inv s → core_inv (Core.run s txs).
Proof.
  induction txs as [|tx txs IH]; intros s Hs; [done|].
  simpl. apply IH. by apply core_inv_step.
Qed.

Lemma core_reachable_inv (s : Core.state) : Core.reachable s → core_inv s.
Proof.
  intros (d & txs & ->). apply core_inv_run, core_inv_constructor.
Qed.

Lemma core_reachable_run (s : Core.state) (txs : list (msg * Core.call)) :
  Core.reachable s → Core.reachable (Core.run s txs).
Proof.
  intros (d & txs0 & ->). exists d, (txs0 ++ txs).
  unfold Core.run. by rewrite foldl_app.
Qed.

(** ** Core: access grants of reachable states *)

Lemma granted_mono (l l' : FHE.acl) (h : FHE.handle) (a : address) :
  l ⊆ l' → granted l h a → granted l' h a.
Proof. intros Hsub [H1 H2]. split; by apply Hsub. Qed.

Lemma core_location_granted_mono (l l' : FHE.acl) (loc : Core.DeliveryLocation.t)
    (a : address) :
  l ⊆ l' → core_location_granted l loc a → core_location_granted l' loc a.
Proof.
  intros Hsub (H1 & H2 & H3). split; [|split]; by apply (granted_mono l l').
Qed.


Lemma core_grants_step (s : Core.state) (tx : msg * Core.call) :
  core_inv s → core_grants s → core_grants (Core.step s tx).
Proof.
  intros Hinv [Hgr Hgl Hgo]. destruct tx as [m c]. unfold Core.step. simpl.
  destruct (Core.exec m c s) as [s'|] eqn:Hexec; [|done].
  destruct c as [xs ys ps md vc|routeId|routeId i]; simpl in Hexec.
  - inv_ok Hexec. destruct a as [routeId s1]. inversion Hexec; subst s1; clear Hexec.
    apply core_request_inv in Hstep as (Hxy & Hxp & Hpos & Hn & Hcnt & -> & []).
    destruct crp_acl_constraints0 as [Hmd Hvc].
    split.
    + intros id r. rewrite crp_requests0.
      destruct (decide (id = Core.routeCounter s + 1)) as [->|Hne].
      * rewrite lookup_insert_eq. intros [= <-]. done.
      * rewrite lookup_insert_ne by done. intros Hr.
        destruct (Hgr _ _ Hr). split; by eapply granted_mono.
    + intros id j r l. rewrite crp_requests0, crp_locations0.
      destruct (decide (id = Core.routeCounter s + 1)) as [->|Hne].
      * rewrite lookup_insert_eq. intros [= <-]. simpl. case_bool_decide as Hj.
        -- intros Hl. apply (crp_acl_locations0 j); [lia|done].
        -- intros Hl. destruct (ci_locations s Hinv _ _ _ Hl). lia.
      * rewrite lookup_insert_ne by done. rewrite bool_decide_false by lia.
        intros Hr Hl. eapply core_location_granted_mono; [done|]. by eapply Hgl.
    + intros id o. rewrite crp_optimized0. intros Ho.
      destruct (Hgo _ _ Ho). split; by eapply granted_mono.
  - apply core_process_inv in Hexec
      as (_ & _ & Hr & _ & _ & _ & _ & Hreqs & Hlocs & Hopts & _ & Hacl & _).
    apply core_request_at_some in Hr as Hsome.
    assert (Core.acl s ⊆ Core.acl s') as Hsub.
    { rewrite Hacl. intros g Hg. in_acl. }
    split.
    + intros id r. rewrite Hreqs.
      destruct (decide (id = routeId)) as [->|Hne].
      * rewrite lookup_insert_eq. intros [= <-]. simpl.
        destruct (Hgr _ _ Hsome). split; by eapply granted_mono.
      * rewrite lookup_insert_ne by done. intros Hr'.
        destruct (Hgr _ _ Hr'). split; by eapply granted_mono.
    + intros id j r l. rewrite Hreqs, Hlocs.
      destruct (decide (id = routeId)) as [->|Hne].
      * rewrite lookup_insert_eq. intros [= <-] Hl. simpl.
        eapply core_location_granted_mono; [done|]. by eapply Hgl.
      * rewrite lookup_insert_ne by done. intros Hr' Hl.
        eapply core_location_granted_mono; [done|]. by eapply Hgl.
    + intros id o. rewrite Hopts.
      destruct (decide (id = routeId)) as [->|Hne].
      * rewrite lookup_insert_eq. intros [= <-]. simpl. rewrite Hacl.
        unfold granted. repeat split; in_acl.
      * rewrite lookup_insert_ne by done. intros Ho.
        destruct (Hgo _ _ Ho). split; by eapply granted_mono.
  - apply core_mark_inv in Hexec as (_ & _ & _ & Hact & ->).
    apply core_location_at_active in Hact as Hsome.
    split; simpl; try done.
    intros id j r l Hr.
    destruct (decide ((id, j) = (routeId, i))) as [[= -> ->]|Hne].
    + rewrite lookup_insert_eq. intros [= <-].
      apply (Hgl _ _ _ _ Hr Hsome).
    + rewrite lookup_insert_ne by done. by apply Hgl.
Qed.

Lemma core_grants_reachable (s : Core.state) : Core.reachable s → core_grants s.
Proof.
  intros (d & txs & ->).
  assert (∀ txs s, core_inv s → core_grants s → core_grants (Core.run s txs)) as Hrun.
  { clear. induction txs as [|tx txs IH]; intros s Hi Hg; [done|].
    simpl. apply IH; [by apply core_inv_step|by apply core_grants_step]. }
  apply Hrun; [apply core_inv_constructor|]. split; simpl; done.
Qed.

(** ** Core: the locations a request stores *)

Lemma core_stored_location_active (xs ys ps : list Z) (j : Z) :
  length xs = length ys → length xs = length ps →
  0 ≤ j < Z.of_nat (length xs) →
  ∃ loc, core_stored_location xs ys ps j = Some loc ∧
         Core.DeliveryLocation.isActive loc = true.
Proof.
  intros Hxy Hxp Hj.
  destruct (lookup_lt_is_Some_2 xs (Z.to_nat j)) as [x Hx]; [lia|].
  destruct (lookup_lt_is_Some_2 ys (Z.to_nat j)) as [y Hy]; [lia|].
  destruct (lookup_lt_is_Some_2 ps (Z.to_nat j)) as [p Hp]; [lia|].
  unfold core_stored_location. rewrite Hx, Hy, Hp. simpl. eauto.
Qed.

(** ** Core: shape of the storage *)

Lemma core_stored_location_form (xs ys ps : list Z) (j : Z) (l : Core.DeliveryLocation.t) :
  core_stored_location xs ys ps j = Some l →
  ∃ x y p, l = Core.DeliveryLocation.mk (FHE.asEuint32 x) (FHE.asEuint32 y)
                 (FHE.asEuint8 p) true.
Proof.
  unfold core_stored_location.
  destruct (xs !! Z.to_nat j) as [x|]; [|done].
  destruct (ys !! Z.to_nat j) as [y|]; [|done].
  destruct (ps !! Z.to_nat j) as [p|]; [|done].
  simpl. intros [= <-]. eauto.
Qed.

Lemma core_shape_constructor (m : msg) : core_shape (Core.constructor m).
Proof.
  split; simpl; try done.
  - intros id j. rewrite lookup_empty. split.
    + by intros [? ?].
    + by intros (r & Hr & _).
  - intros id. unfold Core.request_at. simpl. rewrite !lookup_empty. simpl. split.
    + done.
    + by intros [? ?].
Qed.

Lemma core_shape_step (s : Core.state) (tx : msg * Core.call) :
  core_inv s → core_shape s → core_shape (Core.step s tx).
Proof.
  intros Hinv [Hloc Htriv Hres Hfields Hunp]. destruct tx as [m c].
  unfold Core.step. simpl.
  destruct (Core.exec m c s) as [s'|] eqn:Hexec; [|done].
  destruct c as [xs ys ps md vc|routeId|routeId i]; simpl in Hexec.
  - inv_ok Hexec. destruct a as [routeId s1]. inversion Hexec; subst s1; clear Hexec.
    apply core_request_inv in Hstep as (Hxy & Hxp & Hpos & Hn & Hcnt & -> & []).
    set (new := Core.routeCounter s + 1) in *.
    assert (Core.routeRequests s !! new = None) as Hfresh.
    { destruct (Core.routeRequests s !! new) as [r|] eqn:Hr; [|done].
      destruct (ci_requests s Hinv _ _ Hr) as [[? ?] _]. subst new. lia. }
    assert (Core.optimizedRoutes s !! new = None) as Hfresh_opt.
    { destruct (Core.optimizedRoutes s !! new) as [o|] eqn:Ho; [|done].
      assert (is_Some (Core.optimizedRoutes s !! new)) as Hs by eauto.
      apply Hres, core_request_at_processed in Hs. congruence. }
    assert (∀ id, id ≠ new → Core.request_at s' id = Core.request_at s id) as Hsame.
    { intros id Hne. unfold Core.request_at. by rewrite crp_requests0, lookup_insert_ne. }
    assert (Core.request_at s' new =
              core_new_request m (Z.of_nat (length xs)) md vc) as Hnew.
    { unfold Core.request_at. by rewrite crp_requests0, lookup_insert_eq. }
    split.
    + intros id j. rewrite crp_locations0, crp_requests0.
      destruct (decide (id = new)) as [->|Hne].
      * rewrite lookup_insert_eq. case_bool_decide as Hj.
        -- destruct (core_stored_location_active xs ys ps j) as (l & -> & _);
             [done|done|lia|].
           split; [|eauto]. intros _. eexists; split; [done|]. simpl. lia.
        -- split.
           ++ intros [l Hl]. destruct (ci_locations s Hinv _ _ _ Hl). subst new. lia.
           ++ intros (r & [= <-] & Hr). simpl in Hr. exfalso. apply Hj. done.
      * rewrite lookup_insert_ne by done. rewrite bool_decide_false by tauto.
        apply Hloc.
    + intros id j l. rewrite crp_locations0. case_bool_decide as Hj.
      * intros Hl. apply core_stored_location_form in Hl as (x & y & p & ->).
        by exists x, y, p.
      * apply Htriv.
    + intros id. rewrite crp_optimized0.
      destruct (decide (id = new)) as [->|Hne].
      * rewrite Hnew, Hfresh_opt. simpl. split; [done|]. by intros [? ?].
      * rewrite Hsame by done. apply Hres.
    + intros id o. rewrite crp_optimized0. intros Ho.
      assert (id ≠ new) as Hne by congruence.
      rewrite Hsame by done. by apply Hfields.
    + intros id. destruct (decide (id = new)) as [->|Hne].
      * by rewrite Hnew.
      * rewrite Hsame by done. apply Hunp.
  - apply core_process_inv in Hexec
      as (_ & Hp & Hr & _ & _ & _ & _ & Hreqs & Hlocs & Hopts & _).
    apply core_request_at_some in Hr as Hsome.
    assert (∀ id, id ≠ routeId → Core.request_at s' id = Core.request_at s id) as Hsame.
    { intros id Hne. unfold Core.request_at. by rewrite Hreqs, lookup_insert_ne. }
    assert (Core.request_at s' routeId =
              core_processed_request (Core.request_at s routeId) routeId) as Hnew.
    { unfold Core.request_at at 1. by rewrite Hreqs, lookup_insert_eq. }
    split.
    + intros id j. rewrite Hlocs, Hreqs, Hloc.
      destruct (decide (id = routeId)) as [->|Hne].
      * rewrite lookup_insert_eq, Hsome. split.
        -- intros (r & [= <-] & Hj). eexists; split; [done|]. done.
        -- intros (r & [= <-] & Hj). eexists; split; [done|]. done.
      * by rewrite lookup_insert_ne.
    + intros id j l. rewrite Hlocs. apply Htriv.
    + intros id. rewrite Hopts. destruct (decide (id = routeId)) as [->|Hne].
      * rewrite Hnew, lookup_insert_eq. simpl. split; [eauto|done].
      * rewrite Hsame, lookup_insert_ne by done. apply Hres.
    + intros id o. rewrite Hopts. destruct (decide (id = routeId)) as [->|Hne].
      * rewrite lookup_insert_eq, Hnew. intros [= <-]. done.
      * rewrite lookup_insert_ne, Hsame by done. apply Hfields.
    + intros id. destruct (decide (id = routeId)) as [->|Hne].
      * by rewrite Hnew.
      * rewrite Hsame by done. apply Hunp.
  - apply core_mark_inv in Hexec as (_ & _ & _ & Hact & ->).
    apply core_location_at_active in Hact as Hsome.
    split; simpl; try done.
    + intros id j. destruct (decide ((id, j) = (routeId, i))) as [[= -> ->]|Hne].
      * rewrite lookup_insert_eq. rewrite <- Hloc, Hsome. split; eauto.
      * rewrite lookup_insert_ne by done. apply Hloc.
    + intros id j l. destruct (decide ((id, j) = (routeId, i))) as [[= -> ->]|Hne].
      * rewrite lookup_insert_eq. intros [= <-]. simpl. by apply (Htriv routeId i).
      * rewrite lookup_insert_ne by done. apply Htriv.
Qed.

Lemma core_shape_reachable (s : Core.state) : Core.reachable s → core_shape s.
Proof.
  intros (d & txs & ->).
  assert (∀ txs s, core_inv s → core_shape s → core_shape (Core.run s txs)) as Hrun.
  { clear. induction txs as [|tx txs IH]; intros s Hi Hg; [done|].
    simpl. apply IH; [by apply core_inv_step|by apply core_shape_step]. }
  apply Hrun; [apply core_inv_constructor|apply core_shape_constructor].
Qed.

(** In a reachable state every stored route is ready for
    [_calculateOptimalRoute]. *)
Lemma core_reachable_ready (s : Core.state) (routeId : Z) :
  Core.reachable s → core_route_ready s routeId.
Proof.
  intros Hreach j Hj.
  pose proof (core_shape_reachable s Hreach) as Hshape.
  pose proof (core_grants_reachable s Hreach) as Hgrants.
  destruct (Core.routeRequests s !! routeId) as [r|] eqn:Hr.
  2: { unfold Core.request_at in Hj. rewrite Hr in Hj. simpl in Hj. lia. }
  assert (Core.request_at s routeId = r) as Hat.
  { unfold Core.request_at. by rewrite Hr. }
  rewrite Hat in Hj.
  destruct (proj2 (cs_locations s Hshape routeId j)) as [l Hl]; [by exists r|].
  destruct (cs_trivial s Hshape _ _ _ Hl) as (x & y & p & Hx & Hy & _).
  destruct (cg_locations s Hgrants _ _ _ _ Hr Hl) as ([Hgx _] & [Hgy _] & _).
  exists x, y. unfold Core.location_at. rewrite Hl. simpl.
  rewrite Hx, Hy in *. done.
Qed.

(** ** Pausable: what the entry points do *)

Lemma pausable_request_spec (m : msg) (x y p maxDistance capacity : Z)
    (s : Pausable.state) :
  Pausable.requestRouteOptimization m x y p maxDistance capacity s =
    if Pausable.paused s then Fail (Custom ContractPaused)
    else if Pausable.routeCounter s + 1 <=? uint32_max then
      if Pausable.coprocessor s then
        let routeId := Pausable.routeCounter s + 1 in
        Ok (routeId,
            Pausable.emit
              (Pausable.RouteRequested routeId (msg_sender m) 3 (block_timestamp m))
              (Pausable.push_route (msg_sender m) routeId
                 (Pausable.set_request routeId
                    (Pausable.RouteRequest.mk (msg_sender m) 3 (FHE.asEuint32 maxDistance)
                       (FHE.asEuint8 capacity) false 0 (block_timestamp m) (block_number m))
                    (Pausable.set_routeCounter routeId s))))
      else Fail (Fhevm CoprocessorNotSet)
    else Fail (Panic 17).
Proof.
  unfold Pausable.requestRouteOptimization, Pausable.whenNotPaused, checked_add.
  destruct (Pausable.paused s); simpl; [done|].
  destruct (Pausable.routeCounter s + 1 <=? uint32_max); simpl; [|done].
  unfold Fhevm.asEuint32, Fhevm.asEuint8, Fhevm.trivialEncrypt32, Fhevm.trivialEncrypt8,
    Fhevm.coprocessor. simpl.
  destruct (Pausable.coprocessor s); done.
Qed.

(** The library calls of [processRouteOptimization]: two casts of the stored
    distance bound, their product and a trivial encryption.  They return
    exactly when a coprocessor is configured and the contract holds a
    persistent grant on the stored handle. *)
Lemma pausable_process_spec (m : msg) (routeId : Z) (s : Pausable.state) :
  let r := Pausable.request_at s routeId in
  Pausable.processRouteOptimization m routeId s =
    if negb (bool_decide (msg_sender m = Pausable.owner s)) then Fail (Custom NotAuthorized)
    else if Pausable.paused s then Fail (Custom ContractPaused)
    else if Pausable.RouteRequest.processed r then Fail (Custom RouteAlreadyProcessed)
    else if bool_decide (Pausable.RouteRequest.requester r = address_zero)
      then Fail (Custom InvalidRoute)
    else if negb (Pausable.coprocessor s) then Fail (Fhevm CoprocessorNotSet)
    else if negb (FHE.isAllowed (FHE.H32 (Pausable.RouteRequest.maxTravelDistance r))
                    FHE.This (Pausable.acl s))
      then Fail (Fhevm ACLNotAllowed)
    else
      routeOrder ← fill_order (Pausable.RouteRequest.locationCount r);
      Ok (Pausable.emit
            (Pausable.RouteOptimized routeId (Pausable.RouteRequest.requester r)
               (block_timestamp m))
            (Pausable.set_request routeId (pausable_processed_request r routeId)
               (Pausable.set_optimized routeId
                  (Pausable.OptimizedRoute.mk routeId (Pausable.RouteRequest.requester r)
                     (Pausable.RouteRequest.maxTravelDistance r)
                     (FHE.mul64 (FHE.asEuint64 (Pausable.RouteRequest.maxTravelDistance r))
                        (FHE.asEuint64 (Pausable.RouteRequest.maxTravelDistance r)))
                     (FHE.asEuint8 30) true (block_timestamp m) routeOrder false) s))).
Proof.
  intros r.
  unfold Pausable.processRouteOptimization, Pausable.onlyOwner, Pausable.whenNotPaused.
  destruct (bool_decide (msg_sender m = Pausable.owner s)); simpl; [|done].
  destruct (Pausable.paused s); simpl; [done|].
  fold r. destruct (Pausable.RouteRequest.processed r); simpl; [done|].
  destruct (bool_decide (Pausable.RouteRequest.requester r = address_zero)); simpl; [done|].
  unfold Pausable._calculateOptimalRoute. fold r.
  unfold Fhevm.asEuint64, Fhevm.cast64, Fhevm.coprocessor.
  change (Fhevm.configured (Pausable.fhevm s)) with (Pausable.coprocessor s).
  destruct (Pausable.coprocessor s) eqn:Hc; simpl negb; cbn iota; [|done].
  cbn [mbind result_bind]. rewrite fhevm_operand_begin.
  change (Fhevm.persisted (Pausable.fhevm s)) with (Pausable.acl s).
  destruct (FHE.isAllowed _ FHE.This (Pausable.acl s)) eqn:Hgr; simpl negb; cbn iota;
    [|done].
  cbn [mbind result_bind]. change (Fhevm.hcu Fhevm.tx_begin _) with 0.
  change (Fhevm.checkHCU 0) with (Ok (A:=unit) tt). cbn [mbind result_bind].
  set (td := Pausable.RouteRequest.maxTravelDistance r).
  set (t1 := Fhevm.produced (FHE.H64 (FHE.asEuint64 td)) 0 Fhevm.tx_begin).
  rewrite (fhevm_operand_ok _ t1 (FHE.H32 td)).
  2: { apply fhevm_allowed_persisted. by apply bool_decide_eq_true in Hgr. }
  cbn [mbind result_bind].
  assert (Fhevm.hcu t1 (FHE.H32 td) = 0) as -> by done.
  change (Fhevm.checkHCU 0) with (Ok (A:=unit) tt). cbn [mbind result_bind].
  set (t2 := Fhevm.produced (FHE.H64 (FHE.asEuint64 td)) 0 t1).
  unfold Fhevm.mul64, Fhevm.fheMul64, Fhevm.coprocessor. simpl Fhevm.initialized64.
  cbn [mbind result_bind].
  change (Fhevm.configured (Pausable.fhevm s)) with (Pausable.coprocessor s).
  rewrite Hc. cbn iota.
  cbn [mbind result_bind].
  rewrite (fhevm_operand_ok _ t2 (FHE.H64 (FHE.asEuint64 td))).
  2: { apply fhevm_allowed_transient. unfold t2. simpl. set_solver. }
  cbn [mbind result_bind].
  assert (Fhevm.hcu t2 (FHE.H64 (FHE.asEuint64 td)) = 0) as ->
    by apply fhevm_hcu_produced_eq.
  change (Fhevm.checkHCU _) with (Ok (A:=unit) tt). cbn [mbind result_bind].
  unfold Fhevm.asEuint8, Fhevm.trivialEncrypt8, Fhevm.coprocessor.
  change (Fhevm.configured (Pausable.fhevm s)) with (Pausable.coprocessor s).
  rewrite Hc. cbn iota.
  cbn [mbind result_bind]. done.
Qed.

Lemma pausable_process_inv (m : msg) (routeId : Z) (s s' : Pausable.state) :
  Pausable.processRouteOptimization m routeId s = Ok s' →
  let r := Pausable.request_at s routeId in
  msg_sender m = Pausable.owner s ∧
  Pausable.paused s = false ∧
  Pausable.RouteRequest.processed r = false ∧
  Pausable.RouteRequest.requester r ≠ address_zero ∧
  Pausable.RouteRequest.locationCount r ≤ 255 ∧
  s' = Pausable.emit
         (Pausable.RouteOptimized routeId (Pausable.RouteRequest.requester r)
            (block_timestamp m))
         (Pausable.set_request routeId (pausable_processed_request r routeId)
            (Pausable.set_optimized routeId (pausable_new_route m r routeId) s)).
Proof.
  rewrite pausable_process_spec. intros H r. cascade H.
  apply bind_ok in H as (order & Horder & H).
  apply fill_order_inv in Horder as [Hn ->]. inversion H.
  apply negb_false_iff, bool_decide_eq_true in Heqb.
  apply bool_decide_eq_false in Heqb2. done.
Qed.

(** A successful [processRouteOptimization] needs what the contract never
    provides: a configured coprocessor and a grant on the stored handle. *)
Lemma pausable_process_needs (m : msg) (routeId : Z) (s s' : Pausable.state) :
  Pausable.processRouteOptimization m routeId s = Ok s' →
  Pausable.coprocessor s = true ∧
  (FHE.H32 (Pausable.RouteRequest.maxTravelDistance (Pausable.request_at s routeId)),
   FHE.This) ∈ Pausable.acl s.
Proof.
  rewrite pausable_process_spec. intros H. cascade H.
  apply negb_false_iff in Heqb3, Heqb4. split; [done|].
  by apply bool_decide_eq_true in Heqb4.
Qed.

Lemma pausable_process_ok (m : msg) (routeId : Z) (s : Pausable.state) :
  let r := Pausable.request_at s routeId in
  msg_sender m = Pausable.owner s →
  Pausable.paused s = false →
  Pausable.RouteRequest.processed r = false →
  Pausable.RouteRequest.requester r ≠ address_zero →
  Pausable.RouteRequest.locationCount r ≤ 255 →
  Pausable.coprocessor s = true →
  (FHE.H32 (Pausable.RouteRequest.maxTravelDistance r), FHE.This) ∈ Pausable.acl s →
  Pausable.processRouteOptimization m routeId s =
    Ok (Pausable.emit
          (Pausable.RouteOptimized routeId (Pausable.RouteRequest.requester r)
             (block_timestamp m))
          (Pausable.set_request routeId (pausable_processed_request r routeId)
             (Pausable.set_optimized routeId (pausable_new_route m r routeId) s))).
Proof.
  intros r Ho Hp Hproc Hr Hn Hc Hg. rewrite pausable_process_spec. fold r.
  rewrite (bool_decide_true (msg_sender m = Pausable.owner s)) by done.
  rewrite Hp, Hproc, Hc. simpl. rewrite bool_decide_false by done.
  unfold FHE.isAllowed. rewrite bool_decide_true by done. simpl.
  rewrite fill_order_ok by done. done.
Qed.

Lemma pausable_process_fail (m : msg) (routeId : Z) (s : Pausable.state) :
  (msg_sender m ≠ Pausable.owner s →
     Pausable.processRouteOptimization m routeId s = Fail (Custom NotAuthorized)) ∧
  (msg_sender m = Pausable.owner s → Pausable.paused s = true →
     Pausable.processRouteOptimization m routeId s = Fail (Custom ContractPaused)) ∧
  (msg_sender m = Pausable.owner s → Pausable.paused s = false →
   Pausable.RouteRequest.processed (Pausable.request_at s routeId) = true →
     Pausable.processRouteOptimization m routeId s = Fail (Custom RouteAlreadyProcessed)).
Proof.
  rewrite pausable_process_spec. repeat split.
  - intros H. by rewrite (bool_decide_false (msg_sender m = Pausable.owner s)).
  - intros H ->. by rewrite (bool_decide_true (msg_sender m = Pausable.owner s)).
  - intros H -> ->. by rewrite (bool_decide_true (msg_sender m = Pausable.owner s)).
Qed.

(** Without a grant on the stored handle the call fails for every caller,
    whatever the state: the contract's empty access list rules out success. *)
Lemma pausable_process_ungranted (m : msg) (routeId : Z) (s : Pausable.state) :
  Pausable.acl s = [] → is_ok (Pausable.processRouteOptimization m routeId s) = false.
Proof.
  intros Hacl.
  destruct (Pausable.processRouteOptimization m routeId s) as [s'|] eqn:H; [|done].
  apply pausable_process_needs in H as [_ Hin]. rewrite Hacl in Hin. set_solver.
Qed.

Lemma pausable_finalize_spec (m : msg) (routeId : Z) (s : Pausable.state) :
  Pausable.finalizeRoute m routeId s =
    if negb (bool_decide (msg_sender m = Pausable.owner s)) then Fail (Custom NotAuthorized)
    else if Pausable.paused s then Fail (Custom ContractPaused)
    else if negb (Pausable.RouteRequest.processed (Pausable.request_at s routeId))
      then Fail (Custom RouteNotProcessed)
    else Ok (Pausable.emit (Pausable.RouteFinalized routeId 0 0)
               (Pausable.set_optimized routeId
                  (pausable_finalized (Pausable.optimized_at s routeId)) s)).
Proof.
  unfold Pausable.finalizeRoute, Pausable.onlyOwner, Pausable.whenNotPaused.
  case_bool_decide; simpl; [|done].
  destruct (Pausable.paused s); simpl; [done|].
  destruct (Pausable.RouteRequest.processed (Pausable.request_at s routeId)); done.
Qed.

Lemma pausable_mark_spec (m : msg) (routeId i : Z) (s : Pausable.state) :
  let r := Pausable.request_at s routeId in
  let l := Pausable.location_at s routeId i in
  Pausable.markDeliveryCompleted m routeId i s =
    if negb (bool_decide (msg_sender m = Pausable.RouteRequest.requester r))
      then Fail (Custom NotYourRoute)
    else if Pausable.paused s then Fail (Custom ContractPaused)
    else if negb (Pausable.RouteRequest.processed r) then Fail (Custom RouteNotProcessed)
    else if Pausable.RouteRequest.locationCount r <=? i then Fail (Custom InvalidLocationIndex)
    else if negb (Pausable.DeliveryLocation.isActive l)
      then Fail (Custom LocationAlreadyCompleted)
    else Ok (Pausable.emit (Pausable.DeliveryCompleted routeId i (block_timestamp m))
               (Pausable.set_location routeId i
                  (Pausable.DeliveryLocation.mk (Pausable.DeliveryLocation.encryptedX l)
                     (Pausable.DeliveryLocation.encryptedY l)
                     (Pausable.DeliveryLocation.priority l) false) s)).
Proof.
  unfold Pausable.markDeliveryCompleted, Pausable.onlyRequester, Pausable.whenNotPaused.
  case_bool_decide; simpl; [|done].
  destruct (Pausable.paused s); simpl; [done|].
  destruct (Pausable.RouteRequest.processed (Pausable.request_at s routeId)); simpl; [|done].
  destruct (_ <=? i); simpl; [done|].
  destruct (Pausable.DeliveryLocation.isActive (Pausable.location_at s routeId i)); done.
Qed.

Lemma pausable_addPauser_spec (m : msg) (a : address) (s : Pausable.state) :
  Pausable.addPauser m a s =
    if negb (bool_decide (msg_sender m = Pausable.owner s)) then Fail (Custom NotAuthorized)
    else if bool_decide (a = address_zero) then Fail (Custom InvalidAddress)
    else if Pausable.is_pauser s a then Fail (Custom AlreadyPauser)
    else Ok (Pausable.emit (Pausable.PauserAdded a) (Pausable.set_pauser a true s)).
Proof.
  unfold Pausable.addPauser, Pausable.onlyOwner.
  destruct (bool_decide (msg_sender m = Pausable.owner s)); simpl; [|done].
  destruct (bool_decide (a = address_zero)); simpl; [done|].
  destruct (Pausable.is_pauser s a); done.
Qed.

Lemma pausable_removePauser_spec (m : msg) (a : address) (s : Pausable.state) :
  Pausable.removePauser m a s =
    if negb (bool_decide (msg_sender m = Pausable.owner s)) then Fail (Custom NotAuthorized)
    else if negb (Pausable.is_pauser s a) then Fail (Custom NotPauser)
    else Ok (Pausable.emit (Pausable.PauserRemoved a) (Pausable.set_pauser a false s)).
Proof.
  unfold Pausable.removePauser, Pausable.onlyOwner.
  case_bool_decide; simpl; [|done].
  destruct (Pausable.is_pauser s a); done.
Qed.

Lemma pausable_togglePause_spec (m : msg) (s : Pausable.state) :
  Pausable.togglePause m s =
    if negb (Pausable.is_pauser s (msg_sender m)) &&
       negb (bool_decide (msg_sender m = Pausable.owner s))
    then Fail (Custom NotPauser)
    else Ok (Pausable.emit (Pausable.ContractPausedToggled (negb (Pausable.paused s)))
               (Pausable.set_paused (negb (Pausable.paused s)) s)).
Proof.
  unfold Pausable.togglePause, Pausable.onlyPauser.
  destruct (_ && _); done.
Qed.

Lemma pausable_transferOwnership_spec (m : msg) (newOwner : address) (s : Pausable.state) :
  Pausable.transferOwnership m newOwner s =
    if negb (bool_decide (msg_sender m = Pausable.owner s)) then Fail (Custom NotAuthorized)
    else if bool_decide (newOwner = address_zero) then Fail (Custom InvalidAddress)
    else Ok (Pausable.emit (Pausable.OwnershipTransferred (Pausable.owner s) newOwner)
               (Pausable.set_owner newOwner s)).
Proof.
  unfold Pausable.transferOwnership, Pausable.onlyOwner.
  destruct (bool_decide (msg_sender m = Pausable.owner s)); simpl; [|done].
  destruct (bool_decide (newOwner = address_zero)); done.
Qed.

(** ** Pausable: invariants of reachable states *)


Lemma pausable_inv_constructor (m : msg) : pausable_inv (Pausable.constructor m).
Proof. split; simpl; done. Qed.

Lemma pausable_inv_deploy (cfg : bool) (m : msg) : pausable_inv (Pausable.deploy cfg m).
Proof. split; simpl; done. Qed.

Lemma pausable_request_at_some (s : Pausable.state) (id : Z) :
  Pausable.RouteRequest.requester (Pausable.request_at s id) ≠ address_zero →
  Pausable.routeRequests s !! id = Some (Pausable.request_at s id).
Proof.
  unfold Pausable.request_at. destruct (Pausable.routeRequests s !! id); simpl; done.
Qed.

Lemma pausable_request_at_processed (s : Pausable.state) (id : Z) :
  Pausable.RouteRequest.processed (Pausable.request_at s id) = true →
  Pausable.routeRequests s !! id = Some (Pausable.request_at s id).
Proof.
  unfold Pausable.request_at. destruct (Pausable.routeRequests s !! id); simpl; done.
Qed.

Lemma pausable_inv_step (s : Pausable.state) (tx : msg * Pausable.call) :
  pausable_inv s → pausable_inv (Pausable.step s tx).
Proof.
  intros Hinv. destruct tx as [m c]. unfold Pausable.step. simpl.
  destruct (Pausable.exec m c s) as [s'|] eqn:Hexec; [|done].
  destruct Hinv as [Hc Hreq Hloc Hacl].
  destruct c as [x y p md vc|routeId|routeId|routeId i|a|a| |a]; simpl in Hexec.
  - inv_ok Hexec. rewrite pausable_request_spec in Hstep. cascade Hstep.
    inversion Hstep; subst a; clear Hstep. simpl in Hexec.
    inversion Hexec; subst s'; clear Hexec. apply Z.leb_le in Heqb0.
    split; simpl; try done; [lia|].
    intros id r. destruct (decide (id = Pausable.routeCounter s + 1)) as [->|Hne].
    + rewrite lookup_insert_eq. intros [= <-]. simpl. lia.
    + rewrite lookup_insert_ne by done. intros Hr. destruct (Hreq _ _ Hr). lia.
  - apply pausable_process_inv in Hexec as (_ & _ & _ & Hr & _ & ->).
    apply pausable_request_at_some in Hr.
    split; simpl; try done.
    intros id r. destruct (decide (id = routeId)) as [->|Hne].
    + rewrite lookup_insert_eq. intros [= <-]. simpl. by apply Hreq.
    + rewrite lookup_insert_ne by done. apply Hreq.
  - rewrite pausable_finalize_spec in Hexec. cascade Hexec.
    inversion Hexec; subst s'. split; done.
  - rewrite pausable_mark_spec in Hexec. cascade Hexec.
    exfalso. unfold Pausable.location_at in Heqb3. rewrite Hloc in Heqb3.
    by rewrite lookup_empty in Heqb3.
  - rewrite pausable_addPauser_spec in Hexec. cascade Hexec.
    inversion Hexec; subst s'. split; done.
  - rewrite pausable_removePauser_spec in Hexec. cascade Hexec.
    inversion Hexec; subst s'. split; done.
  - rewrite pausable_togglePause_spec in Hexec. cascade Hexec.
    inversion Hexec; subst s'. split; done.
  - rewrite pausable_transferOwnership_spec in Hexec. cascade Hexec.
    inversion Hexec; subst s'. split; done.
Qed.

Lemma pausable_inv_run (txs : list (msg * Pausable.call)) : ∀ s,
  pausable_inv s → pausable_inv (Pausable.run s txs).
Proof.
  induction txs as [|tx txs IH]; intros s Hs; [done|].
  simpl. apply IH. by apply pausable_inv_step.
Qed.

Lemma pausable_reachable_inv (s : Pausable.state) :
  Pausable.reachable s → pausable_inv s.
Proof.
  intros (d & cfg & txs & ->). apply pausable_inv_run, pausable_inv_deploy.
Qed.

Lemma pausable_reachable_run (s : Pausable.state) (txs : list (msg * Pausable.call)) :
  Pausable.reachable s → Pausable.reachable (Pausable.run s txs).
Proof.
  intros (d & cfg & txs0 & ->). exists d, cfg, (txs0 ++ txs).
  unfold Pausable.run. by rewrite foldl_app.
Qed.


Lemma pausable_reachable_deployed (d : msg) (txs : list (msg * Pausable.call)) :
  Pausable.reachable (Pausable.run (Pausable.constructor d) txs).
Proof. by exists d, false, txs. Qed.

(** ** Pausable: shape of the storage *)

Lemma pausable_shape_deploy (cfg : bool) (m : msg) : pausable_shape (Pausable.deploy cfg m).
Proof.
  split; simpl; try done.
  - intros e He. apply list_elem_of_singleton in He as ->. done.
  - intros e He. apply list_elem_of_singleton in He as ->. done.
Qed.

Lemma pausable_request_at_set (s : Pausable.state) (id id' : Z)
    (r : Pausable.RouteRequest.t) :
  Pausable.request_at (Pausable.set_request id r s) id' =
    if decide (id' = id) then r else Pausable.request_at s id'.
Proof.
  unfold Pausable.request_at. simpl. destruct (decide (id' = id)) as [->|Hne].
  - by rewrite lookup_insert_eq.
  - by rewrite lookup_insert_ne.
Qed.

Lemma pausable_shape_step (s : Pausable.state) (tx : msg * Pausable.call) :
  pausable_inv s → pausable_shape s → pausable_shape (Pausable.step s tx).
Proof.
  intros Hinv [Hun Hres Hgw Hlog Hquiet]. destruct tx as [m c].
  unfold Pausable.step. simpl.
  destruct (Pausable.exec m c s) as [s'|] eqn:Hexec; [|done].
  destruct c as [x y p md vc|routeId|routeId|routeId i|b|b| |b]; simpl in Hexec.
  - inv_ok Hexec. rewrite pausable_request_spec in Hstep. cascade Hstep.
    inversion Hstep; subst a; clear Hstep. simpl in Hexec.
    inversion Hexec; subst s'; clear Hexec.
    split; simpl; try done.
    + intros id.
      change (Pausable.request_at (Pausable.emit ?e (Pausable.push_route ?u ?k ?t)) id)
        with (Pausable.request_at t id).
      rewrite pausable_request_at_set. destruct (decide _); [done|apply Hun].
    + intros e He. apply elem_of_cons in He as [->|He]; auto.
    + intros e He. apply elem_of_cons in He as [->|He]; auto.
  - pose proof (pausable_process_ungranted m routeId s (pi_acl s Hinv)) as Hfail.
    by rewrite Hexec in Hfail.
  - rewrite pausable_finalize_spec in Hexec. cascade Hexec.
    by rewrite Hun in Heqb1.
  - rewrite pausable_mark_spec in Hexec. cascade Hexec.
    by rewrite Hun in Heqb1.
  - rewrite pausable_addPauser_spec in Hexec. cascade Hexec.
    inversion Hexec; subst s'. split; simpl; try done.
    + intros e He. apply elem_of_cons in He as [->|He]; auto.
    + intros e He. apply elem_of_cons in He as [->|He]; auto.
  - rewrite pausable_removePauser_spec in Hexec. cascade Hexec.
    inversion Hexec; subst s'. split; simpl; try done.
    + intros e He. apply elem_of_cons in He as [->|He]; auto.
    + intros e He. apply elem_of_cons in He as [->|He]; auto.
  - rewrite pausable_togglePause_spec in Hexec. cascade Hexec.
    inversion Hexec; subst s'. split; simpl; try done.
    + intros e He. apply elem_of_cons in He as [->|He]; auto.
    + intros e He. apply elem_of_cons in He as [->|He]; auto.
  - rewrite pausable_transferOwnership_spec in Hexec. cascade Hexec.
    inversion Hexec; subst s'. split; simpl; try done.
    + intros e He. apply elem_of_cons in He as [->|He]; auto.
    + intros e He. apply elem_of_cons in He as [->|He]; auto.
Qed.

Lemma pausable_shape_reachable (s : Pausable.state) :
  Pausable.reachable s → pausable_shape s.
Proof.
  intros (d & cfg & txs & ->).
  assert (∀ txs s, pausable_inv s → pausable_shape s →
            pausable_shape (Pausable.run s txs)) as Hrun.
  { clear. induction txs as [|tx txs IH]; intros s Hi Hg; [done|].
    simpl. apply IH; [by apply pausable_inv_step|by apply pausable_shape_step]. }
  apply Hrun; [apply pausable_inv_deploy|apply pausable_shape_deploy].
Qed.

(** As deployed, without a coprocessor, the contract never accepts a
    request: the counter stays at 0 and nothing is stored. *)
Lemma pausable_deployed_step (s : Pausable.state) (tx : msg * Pausable.call) :
  Pausable.coprocessor s = false ∧ Pausable.routeCounter s = 0 ∧
  Pausable.routeRequests s = ∅ ∧ Pausable.userRoutes s = ∅ →
  Pausable.coprocessor (Pausable.step s tx) = false ∧
  Pausable.routeCounter (Pausable.step s tx) = 0 ∧
  Pausable.routeRequests (Pausable.step s tx) = ∅ ∧
  Pausable.userRoutes (Pausable.step s tx) = ∅.
Proof.
  intros (Hc & Hn & Hr & Hu). destruct tx as [m c]. unfold Pausable.step. simpl.
  destruct (Pausable.exec m c s) as [s'|] eqn:Hexec; [|done].
  destruct c as [x y p md vc|routeId|routeId|routeId i|b|b| |b]; simpl in Hexec.
  - inv_ok Hexec. rewrite pausable_request_spec, Hc in Hstep. by cascade Hstep.
  - apply pausable_process_needs in Hexec as [Hc' _]. congruence.
  - rewrite pausable_finalize_spec in Hexec. cascade Hexec. by inversion Hexec; subst s'.
  - rewrite pausable_mark_spec in Hexec. cascade Hexec. by inversion Hexec; subst s'.
  - rewrite pausable_addPauser_spec in Hexec. cascade Hexec. by inversion Hexec; subst s'.
  - rewrite pausable_removePauser_spec in Hexec. cascade Hexec. by inversion Hexec; subst s'.
  - rewrite pausable_togglePause_spec in Hexec. cascade Hexec. by inversion Hexec; subst s'.
  - rewrite pausable_transferOwnership_spec in Hexec. cascade Hexec.
    by inversion Hexec; subst s'.
Qed.

Lemma pausable_deployed_run (d : msg) (txs : list (msg * Pausable.call)) :
  let s := Pausable.run (Pausable.constructor d) txs in
  Pausable.coprocessor s = false ∧ Pausable.routeCounter s = 0 ∧
  Pausable.routeRequests s = ∅ ∧ Pausable.userRoutes s = ∅.
Proof.
  assert (∀ txs s,
            (Pausable.coprocessor s = false ∧ Pausable.routeCounter s = 0 ∧
             Pausable.routeRequests s = ∅ ∧ Pausable.userRoutes s = ∅) →
            Pausable.coprocessor (Pausable.run s txs) = false ∧
            Pausable.routeCounter (Pausable.run s txs) = 0 ∧
            Pausable.routeRequests (Pausable.run s txs) = ∅ ∧
            Pausable.userRoutes (Pausable.run s txs) = ∅) as Hrun.
  { clear. induction txs as [|tx txs IH]; intros s Hs; [done|].
    simpl. apply IH. by apply pausable_deployed_step. }
  apply Hrun. done.
Qed.

(** * The claims *)

(** ** C8: the stored route order is the identity permutation *)



(** ** C10: transferring ownership leaves the pauser set alone *)






(** ** C9: [finalizeRoute] *)

Lemma pausable_finalized_idem (o : Pausable.OptimizedRoute.t) :
  pausable_finalized (pausable_finalized o) = pausable_finalized o.
Proof. done. Qed.

(** C9, as stated, fails while the contract is paused: the owner's
    [finalizeRoute] on the unprocessed route 1 is rejected with
    [ContractPaused], not with [RouteNotProcessed]; and on a processed route
    it is rejected too instead of setting [finalized]. *)
Lemma finalize_route_paused_counterexample :
  msg_sender owner_msg = Pausable.owner pausable_paused ∧
  Pausable.RouteRequest.processed (Pausable.request_at pausable_paused 1) = false ∧
  Pausable.finalizeRoute owner_msg 1 pausable_paused = Fail (Custom ContractPaused) ∧
  Pausable.finalizeRoute owner_msg 1 pausable_paused ≠ Fail (Custom RouteNotProcessed) ∧
  Pausable.RouteRequest.processed (Pausable.request_at pausable_processed_paused 1) = true ∧
  Pausable.finalizeRoute owner_msg 1 pausable_processed_paused
    = Fail (Custom ContractPaused).
Proof. vm_compute. repeat split; discriminate. Qed.

(** C9, amended.  [finalizeRoute] fails with [NotAuthorized] for every caller
    but the owner and, for the owner, with [ContractPaused] while the contract
    is paused.  For the owner of an unpaused contract it fails with
    [RouteNotProcessed] if and only if the route has not been processed, and
    otherwise sets [finalized] and emits [RouteFinalized]; a repeated call
    succeeds again and changes nothing but the log, to which it adds the
    event once more. *)
Theorem finalize_route_behaviour (m : msg) (routeId : Z) (s : Pausable.state) :
  (msg_sender m ≠ Pausable.owner s →
     Pausable.finalizeRoute m routeId s = Fail (Custom NotAuthorized)) ∧
  (msg_sender m = Pausable.owner s → Pausable.paused s = true →
     Pausable.finalizeRoute m routeId s = Fail (Custom ContractPaused)) ∧
  (msg_sender m = Pausable.owner s → Pausable.paused s = false →
     (Pausable.finalizeRoute m routeId s = Fail (Custom RouteNotProcessed) ↔
      Pausable.RouteRequest.processed (Pausable.request_at s routeId) = false) ∧
     (Pausable.RouteRequest.processed (Pausable.request_at s routeId) = true →
      ∃ s', Pausable.finalizeRoute m routeId s = Ok s' ∧
            s' = Pausable.emit (Pausable.RouteFinalized routeId 0 0)
                   (Pausable.set_optimized routeId
                      (pausable_finalized (Pausable.optimized_at s routeId)) s) ∧
            Pausable.OptimizedRoute.finalized (Pausable.optimized_at s' routeId) = true ∧
            Pausable.finalizeRoute m routeId s'
              = Ok (Pausable.emit (Pausable.RouteFinalized routeId 0 0) s'))).
Proof.
  rewrite !pausable_finalize_spec. split; [|split].
  - intros Hne. by rewrite bool_decide_false.
  - intros Ho ->. by rewrite bool_decide_true.
  - intros Ho Hp. rewrite bool_decide_true, Hp by done. simpl. split.
    + destruct (Pausable.RouteRequest.processed _); simpl; split; done.
    + intros Hproc. rewrite Hproc. simpl. eexists; split; [done|]. split; [done|].
      split.
      * unfold Pausable.optimized_at. simpl. by rewrite lookup_insert_eq.
      * rewrite pausable_finalize_spec. simpl.
        rewrite bool_decide_true, Hp by done. simpl.
        change (Pausable.request_at (Pausable.emit _ (Pausable.set_optimized _ _ ?t)) ?i)
          with (Pausable.request_at t i).
        rewrite Hproc. simpl. f_equal.
        unfold Pausable.emit, Pausable.set_optimized, Pausable.optimized_at. simpl.
        rewrite lookup_insert_eq. simpl. rewrite pausable_finalized_idem.
        by rewrite insert_insert_eq.
Qed.

Lemma finalize_route_behaviour_witness :
  Pausable.finalizeRoute unauthorized 1 pausable_processed = Fail (Custom NotAuthorized) ∧
  Pausable.finalizeRoute owner_msg 1 pausable_processed_paused
    = Fail (Custom ContractPaused) ∧
  Pausable.finalizeRoute owner_msg 1 pausable_requested = Fail (Custom RouteNotProcessed) ∧
  Pausable.finalizeRoute owner_msg 1 pausable_finalized_once
    = Ok (Pausable.emit (Pausable.RouteFinalized 1 0 0) pausable_finalized_once).
Proof.
  split; [|split; [|split]].
  - apply (proj1 (finalize_route_behaviour unauthorized 1 pausable_processed)).
    vm_compute. discriminate.
  - apply (proj1 (proj2 (finalize_route_behaviour owner_msg 1 pausable_processed_paused)));
      vm_compute; reflexivity.
  - apply (proj1 (proj2 (proj2 (finalize_route_behaviour owner_msg 1 pausable_requested))
                   eq_refl eq_refl)).
    vm_compute. reflexivity.
  - destruct (proj2 (proj2 (proj2 (finalize_route_behaviour owner_msg 1 pausable_processed))
                   eq_refl eq_refl) eq_refl) as (s' & Hfirst & Hs' & _ & Hsecond).
    assert (s' = pausable_finalized_once) as ->.
    { rewrite Hs'. vm_compute. reflexivity. }
    exact Hsecond.
Defined.

(** ** C4: pause gating *)

(** C4, as stated, fails: while the contract is paused, a caller who is not
    the owner gets [NotAuthorized] from [processRouteOptimization], and a
    caller who is not the requester gets [NotYourRoute] from
    [markDeliveryCompleted]; the access modifier runs before the pause
    check. *)
Lemma pause_gating_counterexample :
  Pausable.paused pausable_processed_paused = true ∧
  Pausable.processRouteOptimization unauthorized 1 pausable_processed_paused
    = Fail (Custom NotAuthorized) ∧
  Pausable.processRouteOptimization unauthorized 1 pausable_processed_paused
    ≠ Fail (Custom ContractPaused) ∧
  Pausable.markDeliveryCompleted unauthorized 1 0 pausable_processed_paused
    = Fail (Custom NotYourRoute).
Proof. vm_compute. repeat split; discriminate. Qed.

Lemma core_getOptimizedRoute_ok (m : msg) (routeId : Z) (s : Core.state) :
  msg_sender m = Core.RouteRequest.requester (Core.request_at s routeId) →
  Core.RouteRequest.processed (Core.request_at s routeId) = true →
  is_ok (Core.getOptimizedRoute m routeId s) = true.
Proof.
  intros Hs Hp. unfold Core.getOptimizedRoute, Core.onlyRequester.
  rewrite bool_decide_true by done. simpl. by rewrite Hp.
Qed.

Lemma core_getRouteDataForOwner_ok (m : msg) (routeId : Z) (s : Core.state) :
  msg_sender m = Core.owner s →
  Core.RouteRequest.processed (Core.request_at s routeId) = true →
  is_ok (Core.getRouteDataForOwner m routeId s) = true.
Proof.
  intros Hs Hp. unfold Core.getRouteDataForOwner, Core.onlyOwner.
  rewrite bool_decide_true by done. simpl. by rewrite Hp.
Qed.

(** C4, amended.  While [paused] is true, every call to
    [requestRouteOptimization] fails with [ContractPaused];
    [processRouteOptimization] fails with [ContractPaused] when called by the
    owner and with [NotAuthorized] otherwise; [markDeliveryCompleted] fails
    with [ContractPaused] when called by the route's requester and with
    [NotYourRoute] otherwise; none of them changes the state.  The queries
    [getUserRoutes] and [getRouteRequest] have no pause gate and answer as
    they do when the contract is not paused.  [getOptimizedRoute] and
    [getRouteDataForOwner] belong to the core contract, which has no pause
    flag: they answer the requester, respectively the owner, of every
    processed route. *)
Theorem pause_gating (s : Pausable.state) :
  Pausable.paused s = true →
  (∀ m x y p maxDistance capacity,
     Pausable.requestRouteOptimization m x y p maxDistance capacity s
       = Fail (Custom ContractPaused)) ∧
  (∀ m routeId,
     Pausable.processRouteOptimization m routeId s =
       Fail (Custom (if bool_decide (msg_sender m = Pausable.owner s)
                     then ContractPaused else NotAuthorized))) ∧
  (∀ m routeId i,
     Pausable.markDeliveryCompleted m routeId i s =
       Fail (Custom (if bool_decide
                          (msg_sender m =
                           Pausable.RouteRequest.requester (Pausable.request_at s routeId))
                     then ContractPaused else NotYourRoute))) ∧
  (∀ m x y p maxDistance capacity,
     Pausable.step s (m, Pausable.RequestRouteOptimization x y p maxDistance capacity) = s) ∧
  (∀ m routeId, Pausable.step s (m, Pausable.ProcessRouteOptimization routeId) = s) ∧
  (∀ m routeId i, Pausable.step s (m, Pausable.MarkDeliveryCompleted routeId i) = s) ∧
  (∀ user, Pausable.getUserRoutes user s
           = Pausable.getUserRoutes user (Pausable.set_paused false s)) ∧
  (∀ routeId, Pausable.getRouteRequest routeId s
              = Pausable.getRouteRequest routeId (Pausable.set_paused false s)) ∧
  (∀ m routeId (c : Core.state),
     Core.RouteRequest.processed (Core.request_at c routeId) = true →
     (msg_sender m = Core.RouteRequest.requester (Core.request_at c routeId) →
      is_ok (Core.getOptimizedRoute m routeId c) = true) ∧
     (msg_sender m = Core.owner c →
      is_ok (Core.getRouteDataForOwner m routeId c) = true)).
Proof.
  intros Hp.
  assert (∀ m x y p maxDistance capacity,
     Pausable.requestRouteOptimization m x y p maxDistance capacity s
       = Fail (Custom ContractPaused)) as Hreq.
  { intros. rewrite pausable_request_spec. by rewrite Hp. }
  assert (∀ m routeId,
     Pausable.processRouteOptimization m routeId s =
       Fail (Custom (if bool_decide (msg_sender m = Pausable.owner s)
                     then ContractPaused else NotAuthorized))) as Hproc.
  { intros. destruct (pausable_process_fail m routeId s) as (Hno & Hpa & _).
    case_bool_decide; [by apply Hpa|by apply Hno]. }
  assert (∀ m routeId i,
     Pausable.markDeliveryCompleted m routeId i s =
       Fail (Custom (if bool_decide
                          (msg_sender m =
                           Pausable.RouteRequest.requester (Pausable.request_at s routeId))
                     then ContractPaused else NotYourRoute))) as Hmark.
  { intros. rewrite pausable_mark_spec. case_bool_decide; simpl; [|done]. by rewrite Hp. }
  repeat split; try done.
  - intros. unfold Pausable.step. simpl. by rewrite Hreq.
  - intros. unfold Pausable.step. simpl. by rewrite Hproc.
  - intros. unfold Pausable.step. simpl. by rewrite Hmark.
  - intros. by apply core_getOptimizedRoute_ok.
  - intros. by apply core_getRouteDataForOwner_ok.
Qed.

Lemma pause_gating_witness :
  Pausable.requestRouteOptimization requester1 100 150 1 1000 10 pausable_processed_paused
    = Fail (Custom ContractPaused) ∧
  Pausable.processRouteOptimization owner_msg 1 pausable_processed_paused
    = Fail (Custom ContractPaused) ∧
  Pausable.markDeliveryCompleted requester1 1 0 pausable_processed_paused
    = Fail (Custom ContractPaused) ∧
  Pausable.getRouteRequest 1 pausable_processed_paused
    = Pausable.getRouteRequest 1 (Pausable.set_paused false pausable_processed_paused) ∧
  is_ok (Core.getOptimizedRoute requester1 1 core_processed) = true.
Proof.
  destruct (pause_gating pausable_processed_paused)
    as (Hreq & Hproc & Hmark & _ & _ & _ & _ & Hget & Hcore).
  - vm_compute. reflexivity.
  - split; [apply Hreq|]. split; [apply (Hproc owner_msg 1)|].
    split; [apply (Hmark requester1 1 0)|]. split; [apply Hget|].
    apply (Hcore requester1 1 core_processed); vm_compute; reflexivity.
Defined.

(** ** C3: route identifiers *)

Lemma ids_after_cons (c : Z) (k : nat) :
  (c + 1) :: ids_after (c + 1) k = ids_after c (S k).
Proof.
  unfold ids_after. change (seq 1 (S k)) with (1%nat :: seq 2 k).
  rewrite fmap_cons. f_equal.
  rewrite <- (fmap_S_seq 1), <- list_fmap_compose.
  apply list_fmap_ext. intros _ i _. simpl. lia.
Qed.

Lemma core_step_counter (s : Core.state) (tx : msg * Core.call) :
  Core.routeCounter s ≤ Core.routeCounter (Core.step s tx) ∧
  (match tx.2 with
   | Core.RequestRouteOptimization _ _ _ _ _ => True
   | _ => Core.routeCounter (Core.step s tx) = Core.routeCounter s
   end).
Proof.
  destruct tx as [m c]. unfold Core.step. simpl.
  destruct (Core.exec m c s) as [s'|] eqn:Hexec; [|by destruct c].
  destruct c as [xs ys ps md vc|routeId|routeId i]; simpl in Hexec.
  - inv_ok Hexec. destruct a as [routeId s1]. inversion Hexec; subst s1.
    apply core_request_inv in Hstep as (_ & _ & _ & _ & _ & _ & []). lia.
  - apply core_process_inv in Hexec as (_ & _ & _ & _ & _ & _ & -> & _). done.
  - apply core_mark_inv in Hexec as (_ & _ & _ & _ & ->). done.
Qed.

Lemma pausable_step_counter (s : Pausable.state) (tx : msg * Pausable.call) :
  Pausable.routeCounter s ≤ Pausable.routeCounter (Pausable.step s tx) ∧
  (match tx.2 with
   | Pausable.RequestRouteOptimization _ _ _ _ _ => True
   | _ => Pausable.routeCounter (Pausable.step s tx) = Pausable.routeCounter s
   end).
Proof.
  destruct tx as [m c]. unfold Pausable.step. simpl.
  destruct (Pausable.exec m c s) as [s'|] eqn:Hexec; [|by destruct c].
  destruct c as [x y p md vc|routeId|routeId|routeId i|b|b| |b]; simpl in Hexec.
  - inv_ok Hexec. rewrite pausable_request_spec in Hstep. cascade Hstep.
    inversion Hstep; subst a. inversion Hexec; subst s'. simpl. lia.
  - apply pausable_process_inv in Hexec as (_ & _ & _ & _ & _ & ->). done.
  - rewrite pausable_finalize_spec in Hexec. cascade Hexec. by inversion Hexec; subst s'.
  - rewrite pausable_mark_spec in Hexec. cascade Hexec. by inversion Hexec; subst s'.
  - rewrite pausable_addPauser_spec in Hexec. cascade Hexec. by inversion Hexec; subst s'.
  - rewrite pausable_removePauser_spec in Hexec. cascade Hexec. by inversion Hexec; subst s'.
  - rewrite pausable_togglePause_spec in Hexec. cascade Hexec. by inversion Hexec; subst s'.
  - rewrite pausable_transferOwnership_spec in Hexec. cascade Hexec.
    by inversion Hexec; subst s'.
Qed.

Lemma core_returned_ids_spec (txs : list (msg * Core.call)) : ∀ s,
  core_returned_ids s txs =
    ids_after (Core.routeCounter s) (length (core_returned_ids s txs)).
Proof.
  induction txs as [|[m c] txs IH]; intros s; [done|].
  destruct c as [xs ys ps md vc|routeId|routeId i].
  - simpl.
    destruct (Core.requestRouteOptimization m xs ys ps md vc s) as [[routeId s']|]
      eqn:Hreq; [|apply IH].
    apply core_request_inv in Hreq as (_ & _ & _ & _ & _ & -> & []).
    simpl. rewrite <- ids_after_cons. f_equal.
    rewrite <- crp_counter0. apply IH.
  - change (core_returned_ids s ((m, Core.ProcessRouteOptimization routeId) :: txs))
      with (core_returned_ids (Core.step s (m, Core.ProcessRouteOptimization routeId)) txs).
    rewrite <- (proj2 (core_step_counter s (m, Core.ProcessRouteOptimization routeId))).
    apply IH.
  - change (core_returned_ids s ((m, Core.MarkDeliveryCompleted routeId i) :: txs))
      with (core_returned_ids (Core.step s (m, Core.MarkDeliveryCompleted routeId i)) txs).
    rewrite <- (proj2 (core_step_counter s (m, Core.MarkDeliveryCompleted routeId i))).
    apply IH.
Qed.

Lemma pausable_returned_ids_spec (txs : list (msg * Pausable.call)) : ∀ s,
  pausable_returned_ids s txs =
    ids_after (Pausable.routeCounter s) (length (pausable_returned_ids s txs)).
Proof.
  induction txs as [|[m c] txs IH]; intros s; [done|].
  destruct c as [x y p md vc|routeId|routeId|routeId i|b|b| |b].
  1: { simpl. rewrite pausable_request_spec.
       destruct (Pausable.paused s); [apply IH|].
       destruct (Pausable.routeCounter s + 1 <=? uint32_max); [|apply IH].
       destruct (Pausable.coprocessor s); [|apply IH].
       simpl. rewrite <- ids_after_cons. f_equal. apply IH. }
  all: match goal with
       | |- pausable_returned_ids ?s0 (?tx :: ?t) = _ =>
           change (pausable_returned_ids s0 (tx :: t))
             with (pausable_returned_ids (Pausable.step s0 tx) t);
           rewrite <- (proj2 (pausable_step_counter s0 tx)); apply IH
       end.
Qed.

(** C3. A successful [requestRouteOptimization] returns the pre-call counter
    plus one and leaves the counter at that value; no transaction ever
    decreases the counter; in every reachable state each stored request has
    an identifier between 1 and the counter, so the identifier handed out
    next is fresh and no stored request is overwritten; and from a fresh
    contract the k-th successful request returns k, whatever other calls are
    interleaved.  Both contracts. *)
Theorem route_ids_monotonic :
  ((∀ m xs ys ps maxDistance capacity s routeId s',
      Core.requestRouteOptimization m xs ys ps maxDistance capacity s = Ok (routeId, s') →
      routeId = Core.routeCounter s + 1 ∧ Core.routeCounter s' = routeId) ∧
   (∀ s tx, Core.routeCounter s ≤ Core.routeCounter (Core.step s tx)) ∧
   (∀ s id, Core.reachable s → is_Some (Core.routeRequests s !! id) →
      1 ≤ id ≤ Core.routeCounter s) ∧
   (∀ m xs ys ps maxDistance capacity s routeId s',
      Core.reachable s →
      Core.requestRouteOptimization m xs ys ps maxDistance capacity s = Ok (routeId, s') →
      Core.routeRequests s !! routeId = None ∧
      ∀ id, id ≠ routeId → Core.routeRequests s' !! id = Core.routeRequests s !! id) ∧
   (∀ d txs,
      let ids := core_returned_ids (Core.constructor d) txs in
      ids = ids_after 0 (length ids))) ∧
  ((∀ m x y p maxDistance capacity s routeId s',
      Pausable.requestRouteOptimization m x y p maxDistance capacity s = Ok (routeId, s') →
      routeId = Pausable.routeCounter s + 1 ∧ Pausable.routeCounter s' = routeId) ∧
   (∀ s tx, Pausable.routeCounter s ≤ Pausable.routeCounter (Pausable.step s tx)) ∧
   (∀ s id, Pausable.reachable s → is_Some (Pausable.routeRequests s !! id) →
      1 ≤ id ≤ Pausable.routeCounter s) ∧
   (∀ m x y p maxDistance capacity s routeId s',
      Pausable.reachable s →
      Pausable.requestRouteOptimization m x y p maxDistance capacity s = Ok (routeId, s') →
      Pausable.routeRequests s !! routeId = None ∧
      ∀ id, id ≠ routeId → Pausable.routeRequests s' !! id = Pausable.routeRequests s !! id) ∧
   (∀ d txs,
      let ids := pausable_returned_ids (Pausable.constructor d) txs in
      ids = ids_after 0 (length ids))).
Proof.
  split; repeat split.
  - apply core_request_inv in H as (_ & _ & _ & _ & _ & -> & _). done.
  - apply core_request_inv in H as (_ & _ & _ & _ & _ & -> & []). done.
  - intros s tx. apply core_step_counter.
  - destruct H0 as [r Hr]. apply core_reachable_inv in H.
    by destruct (ci_requests s H _ _ Hr) as [[? ?] _].
  - destruct H0 as [r Hr]. apply core_reachable_inv in H.
    by destruct (ci_requests s H _ _ Hr) as [[? ?] _].
  - apply core_reachable_inv in H.
    apply core_request_inv in H0 as (_ & _ & _ & _ & _ & -> & _).
    destruct (Core.routeRequests s !! (Core.routeCounter s + 1)) as [r|] eqn:Hr; [|done].
    destruct (ci_requests s H _ _ Hr) as [[? ?] _]. lia.
  - intros id Hid.
    apply core_request_inv in H0 as (_ & _ & _ & _ & _ & -> & []).
    rewrite crp_requests0. by rewrite lookup_insert_ne.
  - intros d txs. apply (core_returned_ids_spec txs (Core.constructor d)).
  - rewrite pausable_request_spec in H. cascade H. by inversion H.
  - rewrite pausable_request_spec in H. cascade H. by inversion H.
  - intros s tx. apply pausable_step_counter.
  - destruct H0 as [r Hr]. apply pausable_reachable_inv in H.
    by destruct (pi_requests s H _ _ Hr) as [[? ?] _].
  - destruct H0 as [r Hr]. apply pausable_reachable_inv in H.
    by destruct (pi_requests s H _ _ Hr) as [[? ?] _].
  - apply pausable_reachable_inv in H.
    rewrite pausable_request_spec in H0. cascade H0. inversion H0; subst.
    destruct (Pausable.routeRequests s !! (Pausable.routeCounter s + 1)) as [r|] eqn:Hr;
      [|done].
    destruct (pi_requests s H _ _ Hr) as [[? ?] _]. lia.
  - intros id Hid.
    rewrite pausable_request_spec in H0. cascade H0. inversion H0; subst. simpl.
    by rewrite lookup_insert_ne.
  - intros d txs. apply (pausable_returned_ids_spec txs (Pausable.constructor d)).
Qed.

Lemma route_ids_monotonic_witness :
  ((1 = Core.routeCounter core_fresh + 1 ∧ Core.routeCounter core_requested = 1) ∧
   1 ≤ 1 ≤ Core.routeCounter core_requested ∧
   Core.routeRequests core_fresh !! 1 = None) ∧
  ((1 = Pausable.routeCounter pausable_fresh + 1 ∧
    Pausable.routeCounter pausable_requested = 1) ∧
   1 ≤ 1 ≤ Pausable.routeCounter pausable_requested ∧
   Pausable.routeRequests pausable_fresh !! 1 = None).
Proof.
  destruct route_ids_monotonic
    as [(Hc1 & _ & Hc3 & Hc4 & _) (Hp1 & _ & Hp3 & Hp4 & _)].
  split; (split; [|split]).
  - apply (Hc1 requester1 [100; 200; 300] [150; 250; 350] [1; 2; 3] 1000 10
               core_fresh 1 core_requested).
    vm_compute. reflexivity.
  - apply (Hc3 core_requested 1).
    + exists owner_msg,
        [(requester1,
          Core.RequestRouteOptimization [100; 200; 300] [150; 250; 350] [1; 2; 3] 1000 10)].
      reflexivity.
    + eexists. vm_compute. reflexivity.
  - apply (Hc4 requester1 [100; 200; 300] [150; 250; 350] [1; 2; 3] 1000 10
               core_fresh 1 core_requested).
    + exists owner_msg, []. reflexivity.
    + vm_compute. reflexivity.
  - apply (Hp1 requester1 100 150 1 1000 10 pausable_fresh 1 pausable_requested).
    vm_compute. reflexivity.
  - apply (Hp3 pausable_requested 1).
    + exists owner_msg, true,
        [(requester1, Pausable.RequestRouteOptimization 100 150 1 1000 10)].
      reflexivity.
    + eexists. vm_compute. reflexivity.
  - apply (Hp4 requester1 100 150 1 1000 10 pausable_fresh 1 pausable_requested).
    + exists owner_msg, true, []. reflexivity.
    + vm_compute. reflexivity.
Defined.

(** ** C2: a route is processed at most once *)

Lemma core_processed_step (s : Core.state) (tx : msg * Core.call) (id : Z) :
  core_inv s →
  Core.RouteRequest.processed (Core.request_at s id) = true →
  Core.RouteRequest.processed (Core.request_at (Core.step s tx) id) = true.
Proof.
  intros Hinv Hp. destruct tx as [m c]. unfold Core.step. simpl.
  destruct (Core.exec m c s) as [s'|] eqn:Hexec; [|done].
  apply core_request_at_processed in Hp as Hsome.
  destruct (ci_requests s Hinv _ _ Hsome) as [Hid _].
  destruct c as [xs ys ps md vc|routeId|routeId i]; simpl in Hexec.
  - inv_ok Hexec. destruct a as [routeId s1]. inversion Hexec; subst s1; clear Hexec.
    apply core_request_inv in Hstep as (_ & _ & _ & _ & _ & -> & []).
    unfold Core.request_at in *. rewrite crp_requests0.
    by rewrite lookup_insert_ne by lia.
  - apply core_process_inv in Hexec
      as (_ & _ & _ & _ & _ & _ & _ & Hreqs & _).
    unfold Core.request_at in *. rewrite Hreqs.
    destruct (decide (routeId = id)) as [->|Hne].
    + by rewrite lookup_insert_eq.
    + by rewrite lookup_insert_ne.
  - apply core_mark_inv in Hexec as (_ & _ & _ & _ & ->). done.
Qed.

Lemma core_processed_run (txs : list (msg * Core.call)) (id : Z) : ∀ s,
  core_inv s →
  Core.RouteRequest.processed (Core.request_at s id) = true →
  Core.RouteRequest.processed (Core.request_at (Core.run s txs) id) = true.
Proof.
  induction txs as [|tx txs IH]; intros s Hinv Hp; [done|].
  simpl. apply IH; [by apply core_inv_step|by apply core_processed_step].
Qed.

Lemma pausable_processed_step (s : Pausable.state) (tx : msg * Pausable.call) (id : Z) :
  id ≤ Pausable.routeCounter s →
  Pausable.RouteRequest.processed (Pausable.request_at s id) = true →
  Pausable.RouteRequest.processed (Pausable.request_at (Pausable.step s tx) id) = true.
Proof.
  intros Hid Hp. destruct tx as [m c]. unfold Pausable.step. simpl.
  destruct (Pausable.exec m c s) as [s'|] eqn:Hexec; [|done].
  destruct c as [x y p md vc|routeId|routeId|routeId i|b|b| |b]; simpl in Hexec.
  - inv_ok Hexec. rewrite pausable_request_spec in Hstep. cascade Hstep.
    inversion Hstep; subst a. inversion Hexec; subst s'.
    unfold Pausable.request_at in *. simpl.
    by rewrite lookup_insert_ne by lia.
  - apply pausable_process_inv in Hexec as (_ & _ & _ & _ & _ & ->).
    unfold Pausable.request_at in *. simpl.
    destruct (decide (routeId = id)) as [->|Hne].
    + by rewrite lookup_insert_eq.
    + by rewrite lookup_insert_ne.
  - rewrite pausable_finalize_spec in Hexec. cascade Hexec. by inversion Hexec; subst s'.
  - rewrite pausable_mark_spec in Hexec. cascade Hexec. by inversion Hexec; subst s'.
  - rewrite pausable_addPauser_spec in Hexec. cascade Hexec. by inversion Hexec; subst s'.
  - rewrite pausable_removePauser_spec in Hexec. cascade Hexec. by inversion Hexec; subst s'.
  - rewrite pausable_togglePause_spec in Hexec. cascade Hexec. by inversion Hexec; subst s'.
  - rewrite pausable_transferOwnership_spec in Hexec. cascade Hexec.
    by inversion Hexec; subst s'.
Qed.

Lemma pausable_processed_run (txs : list (msg * Pausable.call)) (id : Z) : ∀ s,
  id ≤ Pausable.routeCounter s →
  Pausable.RouteRequest.processed (Pausable.request_at s id) = true →
  Pausable.RouteRequest.processed (Pausable.request_at (Pausable.run s txs) id) = true.
Proof.
  induction txs as [|tx txs IH]; intros s Hid Hp; [done|].
  simpl. apply IH; [|by apply pausable_processed_step].
  pose proof (pausable_step_counter s tx). lia.
Qed.

Lemma core_process_fail (m : msg) (routeId : Z) (s : Core.state) :
  Core.RouteRequest.processed (Core.request_at s routeId) = true →
  Core.processRouteOptimization m routeId s =
    Fail (Revert (if bool_decide (msg_sender m = Core.owner s)
                  then "Route already processed" else "Not authorized")).
Proof.
  intros Hp. unfold Core.processRouteOptimization, Core.onlyOwner.
  destruct (bool_decide (msg_sender m = Core.owner s)); simpl; [|done].
  by rewrite Hp.
Qed.

(** C2, as stated, fails on "regardless of caller": after the owner has
    processed route 1, a second call by another account is rejected by
    [onlyOwner] ("Not authorized") before the processed flag is looked at;
    the same account cannot make the first call succeed either.  Nor does
    the first call succeed on every existing route: on a route of 39
    locations the owner's call exceeds the depth limit of the FHE runtime. *)
Lemma process_twice_counterexample :
  Core.processRouteOptimization owner_msg 1 core_requested = Ok core_processed ∧
  Core.processRouteOptimization requester1 1 core_processed
    = Fail (Revert "Not authorized") ∧
  Core.processRouteOptimization requester1 1 core_processed
    ≠ Fail (Revert "Route already processed") ∧
  Core.processRouteOptimization requester1 1 core_requested
    = Fail (Revert "Not authorized") ∧
  Core.RouteRequest.requester (Core.request_at (core_long_requested 39) 1)
    = msg_sender requester1 ∧
  Core.processRouteOptimization owner_msg 1 (core_long_requested 39)
    = Fail (Fhevm HCUTransactionDepthLimitExceeded).
Proof. vm_compute. repeat split; discriminate. Qed.

(** C2, amended.  Core contract: for an existing, unprocessed route of at
    most 38 locations in a reachable state, [processRouteOptimization]
    called by the owner succeeds and sets [processed].  Once [processed] is
    set it stays set whatever calls follow, and every further
    [processRouteOptimization] on the route fails: with "Route already
    processed" for the owner and with "Not authorized" for any other caller.
    Pausable contract: on a processed route every call fails, with
    [NotAuthorized] for a caller who is not the owner, with [ContractPaused]
    for the owner of a paused contract and with [RouteAlreadyProcessed]
    otherwise, and no transaction clears [processed].  So no route is
    processed twice. *)
Theorem process_at_most_once (routeId : Z) :
  (∀ s m,
     Core.reachable s →
     Core.RouteRequest.requester (Core.request_at s routeId) ≠ address_zero →
     Core.RouteRequest.processed (Core.request_at s routeId) = false →
     msg_sender m = Core.owner s →
     Core.RouteRequest.locationCount (Core.request_at s routeId) ≤ 38 →
     ∃ s', Core.processRouteOptimization m routeId s = Ok s' ∧
       Core.RouteRequest.processed (Core.request_at s' routeId) = true) ∧
  (∀ s txs m2,
     Core.reachable s →
     Core.RouteRequest.processed (Core.request_at s routeId) = true →
     Core.RouteRequest.processed (Core.request_at (Core.run s txs) routeId) = true ∧
     Core.processRouteOptimization m2 routeId (Core.run s txs) =
       Fail (Revert (if bool_decide (msg_sender m2 = Core.owner (Core.run s txs))
                     then "Route already processed" else "Not authorized"))) ∧
  (∀ s m2,
     Pausable.RouteRequest.processed (Pausable.request_at s routeId) = true →
     Pausable.processRouteOptimization m2 routeId s =
       Fail (Custom (if bool_decide (msg_sender m2 = Pausable.owner s)
                     then (if Pausable.paused s then ContractPaused
                           else RouteAlreadyProcessed)
                     else NotAuthorized))) ∧
  (∀ s tx,
     routeId ≤ Pausable.routeCounter s →
     Pausable.RouteRequest.processed (Pausable.request_at s routeId) = true →
     routeId ≤ Pausable.routeCounter (Pausable.step s tx) ∧
     Pausable.RouteRequest.processed
       (Pausable.request_at (Pausable.step s tx) routeId) = true).
Proof.
  refine (conj _ (conj _ (conj _ _))).
  - intros s m Hreach Hr Hp Ho Hn.
    pose proof (core_reachable_inv s Hreach) as Hinv.
    pose proof (core_reachable_ready s routeId Hreach) as Hready.
    apply core_request_at_some in Hr as Hsome.
    destruct (ci_requests s Hinv _ _ Hsome) as [_ [Hn1 Hn2]].
    destruct (core_process_ok m routeId s) as [s' Hok]; try done.
    exists s'. split; [done|].
    apply core_process_inv in Hok as (_ & _ & _ & _ & _ & _ & _ & Hreqs & _).
    unfold Core.request_at. rewrite Hreqs. by rewrite lookup_insert_eq.
  - intros s txs m2 Hreach Hp.
    pose proof (core_reachable_inv s Hreach) as Hinv.
    assert (Core.RouteRequest.processed (Core.request_at (Core.run s txs) routeId) = true)
      as Hp2 by by apply core_processed_run.
    split; [done|]. by apply core_process_fail.
  - intros s m2 Hp.
    destruct (pausable_process_fail m2 routeId s) as (Hno & Hpaused & Hdone).
    case_bool_decide; [|by apply Hno].
    destruct (Pausable.paused s) eqn:Hps; [by apply Hpaused|by apply Hdone].
  - intros s tx Hid Hp. split.
    + pose proof (pausable_step_counter s tx). lia.
    + by apply pausable_processed_step.
Qed.

Lemma process_at_most_once_witness :
  (∃ s', Core.processRouteOptimization owner_msg 1 core_requested = Ok s' ∧
     Core.RouteRequest.processed (Core.request_at s' 1) = true) ∧
  Core.processRouteOptimization requester1 1 core_delivered
    = Fail (Revert "Not authorized") ∧
  Pausable.processRouteOptimization owner_msg 1 pausable_processed_paused
    = Fail (Custom ContractPaused) ∧
  Pausable.RouteRequest.processed
    (Pausable.request_at
       (Pausable.step pausable_processed (owner_msg, Pausable.FinalizeRoute 1)) 1) = true.
Proof.
  destruct (process_at_most_once 1) as (Hfirst & Hlater & Hpausable & Hkeeps).
  refine (conj _ (conj _ (conj _ _))).
  - refine (Hfirst core_requested owner_msg _ _ _ _ _).
    + exists owner_msg,
        [(requester1,
          Core.RequestRouteOptimization [100; 200; 300] [150; 250; 350] [1; 2; 3] 1000 10)].
      reflexivity.
    + vm_compute. discriminate.
    + vm_compute. reflexivity.
    + vm_compute. reflexivity.
    + vm_compute. discriminate.
  - refine (eq_trans
              (proj2 (Hlater core_processed [(requester1, Core.MarkDeliveryCompleted 1 0)]
                        requester1 _ _)) _).
    + exists owner_msg,
        [(requester1,
          Core.RequestRouteOptimization [100; 200; 300] [150; 250; 350] [1; 2; 3] 1000 10);
         (owner_msg, Core.ProcessRouteOptimization 1)].
      vm_compute. reflexivity.
    + vm_compute. reflexivity.
    + vm_compute. reflexivity.
  - refine (eq_trans (Hpausable pausable_processed_paused owner_msg _) _).
    + vm_compute. reflexivity.
    + vm_compute. reflexivity.
  - refine (proj2 (Hkeeps pausable_processed (owner_msg, Pausable.FinalizeRoute 1) _ _)).
    + vm_compute. discriminate.
    + vm_compute. reflexivity.
Defined.

(** ** C7: [markDeliveryCompleted] *)

Lemma core_mark_spec (m : msg) (routeId i : Z) (s : Core.state) :
  let r := Core.request_at s routeId in
  let l := Core.location_at s routeId i in
  Core.markDeliveryCompleted m routeId i s =
    if negb (bool_decide (msg_sender m = Core.RouteRequest.requester r))
      then Fail (Revert "Not your route")
    else if negb (Core.RouteRequest.processed r) then Fail (Revert "Route not processed")
    else if Core.RouteRequest.locationCount r <=? i
      then Fail (Revert "Invalid location index")
    else if negb (Core.DeliveryLocation.isActive l)
      then Fail (Revert "Location already completed")
    else Ok (Core.emit (Core.DeliveryCompleted routeId i)
               (Core.set_location routeId i
                  (Core.DeliveryLocation.mk (Core.DeliveryLocation.encryptedX l)
                     (Core.DeliveryLocation.encryptedY l)
                     (Core.DeliveryLocation.priority l) false) s)).
Proof.
  unfold Core.markDeliveryCompleted, Core.onlyRequester.
  case_bool_decide; simpl; [|done].
  destruct (Core.RouteRequest.processed (Core.request_at s routeId)); simpl; [|done].
  rewrite Z.leb_antisym.
  destruct (i <? _); simpl; [|done].
  destruct (Core.DeliveryLocation.isActive (Core.location_at s routeId i)); done.
Qed.

Lemma core_inactive_step (s : Core.state) (tx : msg * Core.call) (id i : Z) :
  id ≤ Core.routeCounter s →
  Core.DeliveryLocation.isActive (Core.location_at s id i) = false →
  Core.DeliveryLocation.isActive (Core.location_at (Core.step s tx) id i) = false.
Proof.
  intros Hid Hact. destruct tx as [m c]. unfold Core.step. simpl.
  destruct (Core.exec m c s) as [s'|] eqn:Hexec; [|done].
  destruct c as [xs ys ps md vc|routeId|routeId j]; simpl in Hexec.
  - inv_ok Hexec. destruct a as [routeId s1]. inversion Hexec; subst s1; clear Hexec.
    apply core_request_inv in Hstep as (_ & _ & _ & _ & _ & -> & []).
    unfold Core.location_at in *. rewrite crp_locations0.
    by rewrite bool_decide_false by lia.
  - apply core_process_inv in Hexec
      as (_ & _ & _ & _ & _ & _ & _ & _ & Hlocs & _).
    unfold Core.location_at in *. by rewrite Hlocs.
  - apply core_mark_inv in Hexec as (_ & _ & _ & _ & ->).
    unfold Core.location_at in *. simpl.
    destruct (decide ((routeId, j) = (id, i))) as [[= -> ->]|Hne].
    + by rewrite lookup_insert_eq.
    + by rewrite lookup_insert_ne.
Qed.

Lemma core_inactive_run (txs : list (msg * Core.call)) (id i : Z) : ∀ s,
  id ≤ Core.routeCounter s →
  Core.DeliveryLocation.isActive (Core.location_at s id i) = false →
  Core.DeliveryLocation.isActive (Core.location_at (Core.run s txs) id i) = false.
Proof.
  induction txs as [|tx txs IH]; intros s Hid Hact; [done|].
  simpl. apply IH.
  - pose proof (proj1 (core_step_counter s tx)). lia.
  - by apply core_inactive_step.
Qed.

Lemma pausable_location_inactive (s : Pausable.state) (id i : Z) :
  Pausable.reachable s →
  Pausable.DeliveryLocation.isActive (Pausable.location_at s id i) = false.
Proof.
  intros Hreach. apply pausable_reachable_inv in Hreach as [].
  unfold Pausable.location_at. by rewrite pi_locations0, lookup_empty.
Qed.

(** C7, as stated, fails in the pausable contract while it is paused: the
    requester's call is rejected with [ContractPaused] whatever the state of
    the route, where the claim promises [RouteNotProcessed] (route 1 not
    processed) or [InvalidLocationIndex] (index 99 of a processed route with
    3 locations). *)
Lemma mark_delivery_paused_counterexample :
  msg_sender requester1
    = Pausable.RouteRequest.requester (Pausable.request_at pausable_paused 1) ∧
  Pausable.RouteRequest.processed (Pausable.request_at pausable_paused 1) = false ∧
  Pausable.markDeliveryCompleted requester1 1 0 pausable_paused
    = Fail (Custom ContractPaused) ∧
  Pausable.markDeliveryCompleted requester1 1 0 pausable_paused
    ≠ Fail (Custom RouteNotProcessed) ∧
  Pausable.RouteRequest.processed (Pausable.request_at pausable_processed_paused 1) = true ∧
  Pausable.RouteRequest.locationCount (Pausable.request_at pausable_processed_paused 1) = 3 ∧
  Pausable.markDeliveryCompleted requester1 1 99 pausable_processed_paused
    = Fail (Custom ContractPaused).
Proof. vm_compute. repeat split; discriminate. Qed.

(** C7, amended.  [markDeliveryCompleted] fails with [NotYourRoute] for every
    caller other than the route's requester.  For the requester (in the
    pausable contract: while it is not paused; while it is paused the call
    fails with [ContractPaused]) it fails with [RouteNotProcessed] if the
    route is not processed, else with [InvalidLocationIndex] if
    [locationIndex >= locationCount], else with [LocationAlreadyCompleted] if
    [isActive] is false; otherwise it sets [isActive] to false, emits
    [DeliveryCompleted] and changes nothing else: the three ciphertexts of
    the location, the requests, the results and the access list are as
    before.  In reachable states an inactive location of an existing route
    stays inactive, so the transition happens at most once. *)
Theorem mark_delivery_completed_behaviour (m : msg) (routeId i : Z) :
  (∀ s,
     let r := Core.request_at s routeId in
     let l := Core.location_at s routeId i in
     (msg_sender m ≠ Core.RouteRequest.requester r →
        Core.markDeliveryCompleted m routeId i s = Fail (Revert "Not your route")) ∧
     (msg_sender m = Core.RouteRequest.requester r →
        (Core.RouteRequest.processed r = false →
           Core.markDeliveryCompleted m routeId i s = Fail (Revert "Route not processed")) ∧
        (Core.RouteRequest.processed r = true →
         Core.RouteRequest.locationCount r ≤ i →
           Core.markDeliveryCompleted m routeId i s
             = Fail (Revert "Invalid location index")) ∧
        (Core.RouteRequest.processed r = true →
         i < Core.RouteRequest.locationCount r →
         Core.DeliveryLocation.isActive l = false →
           Core.markDeliveryCompleted m routeId i s
             = Fail (Revert "Location already completed")) ∧
        (Core.RouteRequest.processed r = true →
         i < Core.RouteRequest.locationCount r →
         Core.DeliveryLocation.isActive l = true →
           ∃ s', Core.markDeliveryCompleted m routeId i s = Ok s' ∧
             Core.location_at s' routeId i =
               Core.DeliveryLocation.mk (Core.DeliveryLocation.encryptedX l)
                 (Core.DeliveryLocation.encryptedY l)
                 (Core.DeliveryLocation.priority l) false ∧
             (∀ id j, (id, j) ≠ (routeId, i) →
                Core.location_at s' id j = Core.location_at s id j) ∧
             Core.log s' = Core.DeliveryCompleted routeId i :: Core.log s ∧
             Core.routeRequests s' = Core.routeRequests s ∧
             Core.optimizedRoutes s' = Core.optimizedRoutes s ∧
             Core.acl s' = Core.acl s))) ∧
  (∀ s txs,
     Core.reachable s →
     Core.RouteRequest.requester (Core.request_at s routeId) ≠ address_zero →
     Core.DeliveryLocation.isActive (Core.location_at s routeId i) = false →
     Core.DeliveryLocation.isActive (Core.location_at (Core.run s txs) routeId i) = false) ∧
  (∀ s,
     let r := Pausable.request_at s routeId in
     let l := Pausable.location_at s routeId i in
     (msg_sender m ≠ Pausable.RouteRequest.requester r →
        Pausable.markDeliveryCompleted m routeId i s = Fail (Custom NotYourRoute)) ∧
     (msg_sender m = Pausable.RouteRequest.requester r →
        (Pausable.paused s = true →
           Pausable.markDeliveryCompleted m routeId i s = Fail (Custom ContractPaused)) ∧
        (Pausable.paused s = false →
         Pausable.RouteRequest.processed r = false →
           Pausable.markDeliveryCompleted m routeId i s = Fail (Custom RouteNotProcessed)) ∧
        (Pausable.paused s = false →
         Pausable.RouteRequest.processed r = true →
         Pausable.RouteRequest.locationCount r ≤ i →
           Pausable.markDeliveryCompleted m routeId i s
             = Fail (Custom InvalidLocationIndex)) ∧
        (Pausable.paused s = false →
         Pausable.RouteRequest.processed r = true →
         i < Pausable.RouteRequest.locationCount r →
         Pausable.DeliveryLocation.isActive l = false →
           Pausable.markDeliveryCompleted m routeId i s
             = Fail (Custom LocationAlreadyCompleted)) ∧
        (Pausable.paused s = false →
         Pausable.RouteRequest.processed r = true →
         i < Pausable.RouteRequest.locationCount r →
         Pausable.DeliveryLocation.isActive l = true →
           ∃ s', Pausable.markDeliveryCompleted m routeId i s = Ok s' ∧
             Pausable.location_at s' routeId i =
               Pausable.DeliveryLocation.mk (Pausable.DeliveryLocation.encryptedX l)
                 (Pausable.DeliveryLocation.encryptedY l)
                 (Pausable.DeliveryLocation.priority l) false ∧
             (∀ id j, (id, j) ≠ (routeId, i) →
                Pausable.location_at s' id j = Pausable.location_at s id j) ∧
             Pausable.log s' =
               Pausable.DeliveryCompleted routeId i (block_timestamp m) :: Pausable.log s ∧
             Pausable.routeRequests s' = Pausable.routeRequests s ∧
             Pausable.optimizedRoutes s' = Pausable.optimizedRoutes s ∧
             Pausable.acl s' = Pausable.acl s))) ∧
  (∀ s txs,
     Pausable.reachable s →
     Pausable.DeliveryLocation.isActive
       (Pausable.location_at (Pausable.run s txs) routeId i) = false).
Proof.
  split; [|split; [|split]].
  - intros s r l. subst r l. rewrite core_mark_spec. split.
    { intros Hne. by rewrite bool_decide_false. }
    intros Heq. rewrite bool_decide_true by done. simpl. repeat split.
    + by intros ->.
    + intros -> Hi. simpl. by destruct (Z.leb_spec (Core.RouteRequest.locationCount
                                          (Core.request_at s routeId)) i); [|lia].
    + intros -> Hi ->. simpl.
      by destruct (Z.leb_spec (Core.RouteRequest.locationCount
                                 (Core.request_at s routeId)) i); [lia|].
    + intros -> Hi ->. simpl.
      destruct (Z.leb_spec (Core.RouteRequest.locationCount
                              (Core.request_at s routeId)) i); [lia|].
      eexists; split; [done|]. unfold Core.location_at. simpl.
      rewrite lookup_insert_eq. repeat split; try done.
      intros id j Hne. by rewrite lookup_insert_ne.
  - intros s txs Hreach Hr Hact.
    apply core_reachable_inv in Hreach. apply core_request_at_some in Hr.
    destruct (ci_requests s Hreach _ _ Hr) as [[_ Hid] _].
    by apply core_inactive_run.
  - intros s r l. subst r l. rewrite pausable_mark_spec. split.
    { intros Hne. by rewrite bool_decide_false. }
    intros Heq. rewrite bool_decide_true by done. simpl. repeat split.
    + by intros ->.
    + by intros -> ->.
    + intros -> -> Hi. simpl.
      by destruct (Z.leb_spec (Pausable.RouteRequest.locationCount
                                 (Pausable.request_at s routeId)) i); [|lia].
    + intros -> -> Hi ->. simpl.
      by destruct (Z.leb_spec (Pausable.RouteRequest.locationCount
                                 (Pausable.request_at s routeId)) i); [lia|].
    + intros -> -> Hi ->. simpl.
      destruct (Z.leb_spec (Pausable.RouteRequest.locationCount
                              (Pausable.request_at s routeId)) i); [lia|].
      eexists; split; [done|]. unfold Pausable.location_at. simpl.
      rewrite lookup_insert_eq. repeat split; try done.
      intros id j Hne. by rewrite lookup_insert_ne.
  - intros s txs Hreach. apply pausable_location_inactive.
    by apply pausable_reachable_run.
Qed.

Lemma mark_delivery_completed_behaviour_witness :
  Core.markDeliveryCompleted unauthorized 1 0 core_processed
    = Fail (Revert "Not your route") ∧
  Core.markDeliveryCompleted requester1 1 0 core_requested
    = Fail (Revert "Route not processed") ∧
  Core.markDeliveryCompleted requester1 1 99 core_processed
    = Fail (Revert "Invalid location index") ∧
  Core.markDeliveryCompleted requester1 1 0 core_delivered
    = Fail (Revert "Location already completed") ∧
  (∃ s', Core.markDeliveryCompleted requester1 1 0 core_processed = Ok s' ∧
         Core.DeliveryLocation.isActive (Core.location_at s' 1 0) = false) ∧
  Core.DeliveryLocation.isActive
    (Core.location_at
       (Core.run core_delivered [(requester1, Core.MarkDeliveryCompleted 1 0)]) 1 0) = false ∧
  Pausable.markDeliveryCompleted requester1 1 0 pausable_paused
    = Fail (Custom ContractPaused) ∧
  Pausable.markDeliveryCompleted requester1 1 0 pausable_requested
    = Fail (Custom RouteNotProcessed) ∧
  Pausable.markDeliveryCompleted requester1 1 0 pausable_processed
    = Fail (Custom LocationAlreadyCompleted).
Proof.
  destruct (mark_delivery_completed_behaviour unauthorized 1 0) as (Hu & _).
  destruct (mark_delivery_completed_behaviour requester1 1 0) as (Hc & Honce & Hp & _).
  destruct (mark_delivery_completed_behaviour requester1 1 99) as (Hc99 & _).
  pose proof (Hu core_processed) as [Hother _].
  pose proof (Hc core_requested) as [_ Hrequested].
  pose proof (Hc99 core_processed) as [_ Hindex].
  pose proof (Hc core_delivered) as [_ Hdelivered].
  pose proof (Hc core_processed) as [_ Hprocessed].
  pose proof (Hp pausable_paused) as [_ Hpaused].
  pose proof (Hp pausable_requested) as [_ Hprequested].
  pose proof (Hp pausable_processed) as [_ Hpprocessed].
  cbv zeta in *.
  refine (conj _ (conj _ (conj _ (conj _ (conj _ (conj _ (conj _ (conj _ _)))))))).
  - apply Hother. vm_compute. discriminate.
  - apply (proj1 (Hrequested eq_refl)). reflexivity.
  - apply (proj1 (proj2 (Hindex eq_refl))).
    + reflexivity.
    + vm_compute. discriminate.
  - apply (proj1 (proj2 (proj2 (Hdelivered eq_refl)))); reflexivity.
  - destruct (proj2 (proj2 (proj2 (Hprocessed eq_refl))))
      as (s' & Hok & Hloc & _); [reflexivity..|].
    exists s'. split; [exact Hok|]. rewrite Hloc. reflexivity.
  - apply (Honce core_delivered).
    + exists owner_msg,
        [(requester1,
          Core.RequestRouteOptimization [100; 200; 300] [150; 250; 350] [1; 2; 3] 1000 10);
         (owner_msg, Core.ProcessRouteOptimization 1);
         (requester1, Core.MarkDeliveryCompleted 1 0)].
      vm_compute. reflexivity.
    + vm_compute. discriminate.
    + vm_compute. reflexivity.
  - apply (proj1 (Hpaused eq_refl)). reflexivity.
  - apply (proj1 (proj2 (Hprequested eq_refl))); reflexivity.
  - apply (proj1 (proj2 (proj2 (proj2 (Hpprocessed eq_refl))))); reflexivity.
Defined.

(** ** C5: access grants *)

Lemma pausable_acl_empty (s : Pausable.state) :
  Pausable.reachable s → Pausable.acl s = [].
Proof. intros Hreach. by apply pausable_reachable_inv in Hreach as []. Qed.

(** C5.  The core contract grants every ciphertext it stores to itself and
    to the requester ([core_grants_reachable]).  The pausable contract calls
    neither [FHE.allowThis] nor [FHE.allow].  As a chain deploys it (no
    coprocessor), [requestRouteOptimization] fails and no ciphertext is
    written.  Where the coprocessor slots are in place, the request of
    route 1 succeeds and stores [maxTravelDistance] and [vehicleCapacity],
    and neither is granted to the contract or to the requester: the access
    list stays empty ([pausable_acl_empty]).  The owner's
    [processRouteOptimization] on that route then fails with the access
    error of the FHE runtime, because the contract may not operate on the
    bound it stored itself; no result ciphertext is written. *)
Theorem pausable_ciphertexts_not_granted :
  Pausable.requestRouteOptimization requester1 100 150 1 1000 10 pausable_deployed
    = Fail (Fhevm CoprocessorNotSet) ∧
  Pausable.requestRouteOptimization requester1 100 150 1 1000 10 pausable_fresh
    = Ok (1, pausable_requested) ∧
  Pausable.RouteRequest.requester (Pausable.request_at pausable_requested 1)
    = msg_sender requester1 ∧
  Pausable.RouteRequest.maxTravelDistance (Pausable.request_at pausable_requested 1)
    = FHE.asEuint32 1000 ∧
  Pausable.RouteRequest.vehicleCapacity (Pausable.request_at pausable_requested 1)
    = FHE.asEuint8 10 ∧
  Pausable.acl pausable_requested = [] ∧
  FHE.isAllowed (FHE.H32 (FHE.asEuint32 1000)) FHE.This
    (Pausable.acl pausable_requested) = false ∧
  FHE.isAllowed (FHE.H8 (FHE.asEuint8 10)) FHE.This
    (Pausable.acl pausable_requested) = false ∧
  FHE.isAllowed (FHE.H32 (FHE.asEuint32 1000)) (FHE.Account (msg_sender requester1))
    (Pausable.acl pausable_requested) = false ∧
  FHE.isAllowed (FHE.H8 (FHE.asEuint8 10)) (FHE.Account (msg_sender requester1))
    (Pausable.acl pausable_requested) = false ∧
  Pausable.processRouteOptimization owner_msg 1 pausable_requested
    = Fail (Fhevm ACLNotAllowed) ∧
  Pausable.optimizedRoutes
    (Pausable.step pausable_requested (owner_msg, Pausable.ProcessRouteOptimization 1))
    = ∅.
Proof. vm_compute. repeat split. Qed.

(** ** C1: the accumulated distance *)

(** What the core contract stores as [totalDistance]: starting from an
    encryption of 0, one [FHE.add] per consecutive pair [(i, i+1)], in
    submission order, of the handle
    [FHE.add (FHE.sub x_{i+1} x_i) (FHE.sub y_{i+1} y_i)], a coordinate that
    was never written being replaced by an encryption of 0. *)
Lemma core_total_distance_handle (m : msg) (routeId : Z) (s s' : Core.state) :
  Core.processRouteOptimization m routeId s = Ok s' →
  let n := Core.RouteRequest.locationCount (Core.request_at s routeId) in
  Core.OptimizedRoute.totalDistance (Core.optimized_at s' routeId) =
    foldl (fun acc i =>
             FHE.add acc
               (FHE.add
                  (FHE.sub
                     (FHE.initialized
                        (Core.DeliveryLocation.encryptedX (Core.location_at s routeId (i + 1))))
                     (FHE.initialized
                        (Core.DeliveryLocation.encryptedX (Core.location_at s routeId i))))
                  (FHE.sub
                     (FHE.initialized
                        (Core.DeliveryLocation.encryptedY (Core.location_at s routeId (i + 1))))
                     (FHE.initialized
                        (Core.DeliveryLocation.encryptedY (Core.location_at s routeId i))))))
      (FHE.asEuint32 0) (Z.of_nat <$> seq 0 (Z.to_nat (n - 1))).
Proof.
  intros H n.
  apply core_process_inv in H as (_ & _ & _ & _ & _ & _ & _ & _ & _ & Hopts & _).
  unfold Core.optimized_at. rewrite Hopts, lookup_insert_eq. done.
Qed.

(** Its plaintext: the differences carry no absolute value and wrap modulo
    2^32, so the sum telescopes to last minus first. *)
Lemma core_total_distance_plain (m : msg) (routeId : Z) (s s' : Core.state) :
  Core.processRouteOptimization m routeId s = Ok s' →
  let n := Core.RouteRequest.locationCount (Core.request_at s routeId) in
  FHE.decrypt32 (Core.OptimizedRoute.totalDistance (Core.optimized_at s' routeId)) =
    ((core_plain_x s routeId (n - 1) - core_plain_x s routeId 0) +
     (core_plain_y s routeId (n - 1) - core_plain_y s routeId 0)) mod 2 ^ 32.
Proof.
  intros H n.
  apply core_process_inv in H as (_ & _ & _ & Hn1 & _ & _ & _ & _ & _ & Hopts & _).
  unfold Core.optimized_at. rewrite Hopts, lookup_insert_eq. simpl.
  rewrite core_accumulated_decrypt. fold n. by rewrite Z2Nat.id by lia.
Qed.

(** C1.  On the route (10,0) -> (0,0) the Manhattan distance of the single
    pair is |0 - 10| + |0 - 0| = 10, but the contract stores the handle
    [add (asEuint32 0) (add (sub 0 10) (sub 0 0))], whose plaintext is
    2^32 - 10: [_calculateDistance] subtracts without taking the absolute
    value. *)
Theorem total_distance_not_manhattan :
  Core.processRouteOptimization owner_msg 1 core_backtrack_requested
    = Ok core_backtrack_processed ∧
  Core.OptimizedRoute.totalDistance (Core.optimized_at core_backtrack_processed 1) =
    FHE.add (FHE.asEuint32 0)
      (FHE.add (FHE.sub (FHE.asEuint32 0) (FHE.asEuint32 10))
               (FHE.sub (FHE.asEuint32 0) (FHE.asEuint32 0))) ∧
  FHE.decrypt32
    (Core.OptimizedRoute.totalDistance (Core.optimized_at core_backtrack_processed 1))
    = 4294967286 ∧
  manhattan_total [(10, 0); (0, 0)] = 10.
Proof. vm_compute. repeat split. Qed.

(** Where no coordinate decreases along the route, the Manhattan total
    telescopes too, and the stored plaintext agrees with it modulo 2^32. *)
Lemma manhattan_total_cons (p q : Z * Z) (rest : list (Z * Z)) :
  manhattan_total (p :: q :: rest) = manhattan p q + manhattan_total (q :: rest).
Proof. done. Qed.

Lemma core_points_S (s : Core.state) (routeId : Z) (a k : nat) :
  core_points s routeId a (S k) =
    (core_plain_x s routeId (Z.of_nat a), core_plain_y s routeId (Z.of_nat a))
      :: core_points s routeId (S a) k.
Proof. done. Qed.

Lemma manhattan_total_monotone (s : Core.state) (routeId : Z) (k : nat) : ∀ a,
  (∀ i, (a ≤ i < a + k)%nat →
     core_plain_x s routeId (Z.of_nat i) ≤ core_plain_x s routeId (Z.of_nat (S i)) ∧
     core_plain_y s routeId (Z.of_nat i) ≤ core_plain_y s routeId (Z.of_nat (S i))) →
  manhattan_total (core_points s routeId a (S k)) =
    (core_plain_x s routeId (Z.of_nat (a + k)) - core_plain_x s routeId (Z.of_nat a)) +
    (core_plain_y s routeId (Z.of_nat (a + k)) - core_plain_y s routeId (Z.of_nat a)).
Proof.
  induction k as [|k IH]; intros a Hmono.
  - rewrite core_points_S. unfold core_points. simpl manhattan_total.
    replace (a + 0)%nat with a by lia. lia.
  - rewrite (core_points_S s routeId a (S k)), (core_points_S s routeId (S a) k).
    rewrite manhattan_total_cons, <- (core_points_S s routeId (S a) k).
    rewrite IH by (intros i Hi; apply Hmono; lia).
    destruct (Hmono a) as [Hx Hy]; [lia|].
    unfold manhattan. cbn [fst snd].
    replace (S a + k)%nat with (a + S k)%nat by lia. lia.
Qed.

Lemma core_total_distance_monotone (m : msg) (routeId : Z) (s s' : Core.state) :
  Core.processRouteOptimization m routeId s = Ok s' →
  let n := Z.to_nat (Core.RouteRequest.locationCount (Core.request_at s routeId)) in
  (∀ i, (S i < n)%nat →
     core_plain_x s routeId (Z.of_nat i) ≤ core_plain_x s routeId (Z.of_nat (S i)) ∧
     core_plain_y s routeId (Z.of_nat i) ≤ core_plain_y s routeId (Z.of_nat (S i))) →
  FHE.decrypt32 (Core.OptimizedRoute.totalDistance (Core.optimized_at s' routeId)) =
    manhattan_total (core_points s routeId 0 n) mod 2 ^ 32.
Proof.
  intros H n Hmono.
  rewrite (core_total_distance_plain m routeId s s' H).
  apply core_process_inv in H as (_ & _ & _ & Hn1 & _).
  assert (∃ k, n = S k) as [k Hk].
  { exists (Nat.pred n). subst n. lia. }
  rewrite Hk in Hmono |- *.
  rewrite manhattan_total_monotone by (intros i Hi; apply Hmono; lia).
  replace (Core.RouteRequest.locationCount (Core.request_at s routeId) - 1)
    with (Z.of_nat (0 + k)) by lia.
  done.
Qed.

(** ** C6: events do not depend on the confidential inputs *)


Lemma core_low_eq_refl (s : Core.state) : core_low_eq s s.
Proof. split; done. Qed.

Lemma core_request_low_eq (m : msg) (xs1 ys1 ps1 xs2 ys2 ps2 : list Z)
    (md1 vc1 md2 vc2 : Z) (s1 s2 : Core.state) :
  core_low_eq s1 s2 →
  length xs1 = length xs2 → length ys1 = length ys2 → length ps1 = length ps2 →
  match Core.requestRouteOptimization m xs1 ys1 ps1 md1 vc1 s1,
        Core.requestRouteOptimization m xs2 ys2 ps2 md2 vc2 s2 with
  | Ok (id1, s1'), Ok (id2, s2') => id1 = id2 ∧ core_low_eq s1' s2'
  | Fail _, Fail _ => True
  | _, _ => False
  end.
Proof.
  intros [] Hx Hy Hp.
  destruct (Core.requestRouteOptimization m xs1 ys1 ps1 md1 vc1 s1) as [[id1 s1']|f1]
    eqn:H1;
  destruct (Core.requestRouteOptimization m xs2 ys2 ps2 md2 vc2 s2) as [[id2 s2']|f2]
    eqn:H2; try done.
  - apply core_request_inv in H1 as (Hxy1 & Hxp1 & _ & _ & _ & -> & []).
    apply core_request_inv in H2 as (Hxy2 & Hxp2 & _ & _ & _ & -> & []).
    split; [congruence|]. split.
    + congruence.
    + congruence.
    + rewrite crp_log0, crp_log1. congruence.
    + rewrite crp_users0, crp_users1. unfold Core.routes_of. congruence.
    + intros id. unfold Core.request_at. rewrite crp_requests0, crp_requests1.
      rewrite <- cle_counter0.
      destruct (decide (id = Core.routeCounter s1 + 1)) as [->|Hne].
      * rewrite !lookup_insert_eq. unfold core_public_request. simpl. congruence.
      * rewrite !lookup_insert_ne by done. apply cle_requests0.
    + intros id i. unfold Core.location_at. rewrite crp_locations0, crp_locations1.
      rewrite <- cle_counter0, <- Hx. case_bool_decide as Hc.
      * destruct (core_stored_location_active xs1 ys1 ps1 i) as (l1 & -> & Hl1);
          [done|done|lia|].
        destruct (core_stored_location_active xs2 ys2 ps2 i) as (l2 & -> & Hl2);
          [done|done|lia|]. simpl. congruence.
      * apply cle_locations0.
  - apply core_request_inv in H1 as (Hxy1 & Hxp1 & Hpos & Hn & Hcnt & _).
    destruct (core_request_ok m xs2 ys2 ps2 md2 vc2 s2) as (s2' & Hok & _);
      [congruence|congruence|lia|lia|lia|]. congruence.
  - apply core_request_inv in H2 as (Hxy2 & Hxp2 & Hpos & Hn & Hcnt & _).
    destruct (core_request_ok m xs1 ys1 ps1 md1 vc1 s1) as (s1' & Hok & _);
      [congruence|congruence|lia|lia|lia|]. congruence.
Qed.

Lemma core_public_request_eq (r1 r2 : Core.RouteRequest.t) :
  core_public_request r1 = core_public_request r2 →
  Core.RouteRequest.requester r1 = Core.RouteRequest.requester r2 ∧
  Core.RouteRequest.locationCount r1 = Core.RouteRequest.locationCount r2 ∧
  Core.RouteRequest.processed r1 = Core.RouteRequest.processed r2 ∧
  Core.RouteRequest.optimizedRouteId r1 = Core.RouteRequest.optimizedRouteId r2 ∧
  Core.RouteRequest.timestamp r1 = Core.RouteRequest.timestamp r2.
Proof. unfold core_public_request. intros [= -> -> -> -> ->]. done. Qed.

Lemma core_process_low_eq (m : msg) (routeId : Z) (s1 s2 : Core.state) :
  Core.reachable s1 → Core.reachable s2 →
  core_low_eq s1 s2 →
  match Core.processRouteOptimization m routeId s1,
        Core.processRouteOptimization m routeId s2 with
  | Ok s1', Ok s2' => core_low_eq s1' s2'
  | Fail _, Fail _ => True
  | _, _ => False
  end.
Proof.
  intros Hreach1 Hreach2 [].
  pose proof (core_reachable_ready s1 routeId Hreach1) as Hready1.
  pose proof (core_reachable_ready s2 routeId Hreach2) as Hready2.
  destruct (core_public_request_eq _ _ (cle_requests0 routeId))
    as (Hr & Hn & Hp & Ho & Ht).
  destruct (Core.processRouteOptimization m routeId s1) as [s1'|f1] eqn:H1;
  destruct (Core.processRouteOptimization m routeId s2) as [s2'|f2] eqn:H2; try done.
  - apply core_process_inv in H1
      as (_ & _ & _ & _ & _ & Ho1 & Hc1 & Hreqs1 & Hlocs1 & _ & Hu1 & _ & Hlog1).
    apply core_process_inv in H2
      as (_ & _ & _ & _ & _ & Ho2 & Hc2 & Hreqs2 & Hlocs2 & _ & Hu2 & _ & Hlog2).
    split; try congruence.
    + intros id. unfold Core.request_at. rewrite Hreqs1, Hreqs2.
      destruct (decide (id = routeId)) as [->|Hne].
      * rewrite !lookup_insert_eq. unfold core_public_request. simpl. congruence.
      * rewrite !lookup_insert_ne by done. apply cle_requests0.
    + intros id i. unfold Core.location_at. rewrite Hlocs1, Hlocs2.
      apply cle_locations0.
  - pose proof H1 as H1'.
    apply core_process_inv in H1 as (Hs & Hpr & Hrq & Hn1 & Hn255 & _).
    destruct (Z.le_gt_cases
                (Core.RouteRequest.locationCount (Core.request_at s1 routeId)) 38)
      as [Hsmall|Hbig].
    + destruct (core_process_ok m routeId s2) as [s2' Hok];
        [congruence..|done|lia|lia|]. congruence.
    + rewrite core_process_too_deep in H1'; [done..|lia].
  - pose proof H2 as H2'.
    apply core_process_inv in H2 as (Hs & Hpr & Hrq & Hn1 & Hn255 & _).
    destruct (Z.le_gt_cases
                (Core.RouteRequest.locationCount (Core.request_at s2 routeId)) 38)
      as [Hsmall|Hbig].
    + destruct (core_process_ok m routeId s1) as [s1' Hok];
        [congruence..|done|lia|lia|]. congruence.
    + rewrite core_process_too_deep in H2'; [done..|lia].
Qed.

Lemma core_mark_low_eq (m : msg) (routeId i : Z) (s1 s2 : Core.state) :
  core_low_eq s1 s2 →
  match Core.markDeliveryCompleted m routeId i s1,
        Core.markDeliveryCompleted m routeId i s2 with
  | Ok s1', Ok s2' => core_low_eq s1' s2'
  | Fail _, Fail _ => True
  | _, _ => False
  end.
Proof.
  intros [].
  destruct (core_public_request_eq _ _ (cle_requests0 routeId))
    as (Hr & Hn & Hp & Ho & Ht).
  rewrite !core_mark_spec. rewrite <- Hr, <- Hn, <- Hp, <- cle_locations0.
  destruct (negb (bool_decide _)); [done|].
  destruct (negb (Core.RouteRequest.processed _)); [done|].
  destruct (_ <=? i); [done|].
  destruct (negb (Core.DeliveryLocation.isActive _)); [done|].
  split; simpl; try done; try congruence.
  intros id j. unfold Core.location_at. simpl.
  destruct (decide ((id, j) = (routeId, i))) as [[= -> ->]|Hne].
  - by rewrite !lookup_insert_eq.
  - rewrite !lookup_insert_ne by done. apply cle_locations0.
Qed.

Lemma core_step_low_eq (s1 s2 : Core.state) (t1 t2 : msg * Core.call) :
  Core.reachable s1 → Core.reachable s2 →
  core_low_eq s1 s2 → core_same_public_tx t1 t2 →
  core_low_eq (Core.step s1 t1) (Core.step s2 t2).
Proof.
  intros Hreach1 Hreach2 Hle [Hm Hc]. destruct t1 as [m c1], t2 as [m2 c2]. simpl in *. subst m2.
  unfold Core.step. simpl.
  destruct c1 as [xs1 ys1 ps1 md1 vc1|id1|id1 i1],
           c2 as [xs2 ys2 ps2 md2 vc2|id2|id2 i2]; simpl in Hc; try done.
  - destruct Hc as (Hx & Hy & Hp). simpl.
    pose proof (core_request_low_eq m xs1 ys1 ps1 xs2 ys2 ps2 md1 vc1 md2 vc2
                  s1 s2 Hle Hx Hy Hp) as H.
    destruct (Core.requestRouteOptimization m xs1 ys1 ps1 md1 vc1 s1) as [[? ?]|];
    destruct (Core.requestRouteOptimization m xs2 ys2 ps2 md2 vc2 s2) as [[? ?]|];
      simpl; try done. by destruct H.
  - subst id2. simpl.
    pose proof (core_process_low_eq m id1 s1 s2 Hreach1 Hreach2 Hle) as H.
    destruct (Core.processRouteOptimization m id1 s1);
    destruct (Core.processRouteOptimization m id1 s2); done.
  - destruct Hc as [-> ->]. simpl.
    pose proof (core_mark_low_eq m id2 i2 s1 s2 Hle) as H.
    destruct (Core.markDeliveryCompleted m id2 i2 s1);
    destruct (Core.markDeliveryCompleted m id2 i2 s2); done.
Qed.

Lemma core_run_low_eq (txs1 txs2 : list (msg * Core.call)) :
  Forall2 core_same_public_tx txs1 txs2 →
  ∀ s1 s2, Core.reachable s1 → Core.reachable s2 → core_low_eq s1 s2 →
  core_low_eq (Core.run s1 txs1) (Core.run s2 txs2).
Proof.
  induction 1 as [|t1 t2 txs1 txs2 Ht _ IH]; intros s1 s2 Hreach1 Hreach2 Hle; [done|].
  simpl. apply IH.
  - apply (core_reachable_run s1 [t1] Hreach1).
  - apply (core_reachable_run s2 [t2] Hreach2).
  - by apply core_step_low_eq.
Qed.

Lemma core_reachable_constructor (d : msg) : Core.reachable (Core.constructor d).
Proof. by exists d, []. Qed.


Lemma pausable_low_eq_refl (s : Pausable.state) :
  Pausable.acl s = [] → pausable_low_eq s s.
Proof. split; done. Qed.

Lemma pausable_public_request_eq (r1 r2 : Pausable.RouteRequest.t) :
  pausable_public_request r1 = pausable_public_request r2 →
  Pausable.RouteRequest.requester r1 = Pausable.RouteRequest.requester r2 ∧
  Pausable.RouteRequest.locationCount r1 = Pausable.RouteRequest.locationCount r2 ∧
  Pausable.RouteRequest.processed r1 = Pausable.RouteRequest.processed r2 ∧
  Pausable.RouteRequest.optimizedRouteId r1 = Pausable.RouteRequest.optimizedRouteId r2 ∧
  Pausable.RouteRequest.timestamp r1 = Pausable.RouteRequest.timestamp r2 ∧
  Pausable.RouteRequest.requestBlock r1 = Pausable.RouteRequest.requestBlock r2.
Proof. unfold pausable_public_request. intros [= -> -> -> -> -> ->]. done. Qed.

Lemma pausable_request_low_eq (m : msg) (x1 y1 p1 md1 vc1 x2 y2 p2 md2 vc2 : Z)
    (s1 s2 : Pausable.state) :
  pausable_low_eq s1 s2 →
  match Pausable.requestRouteOptimization m x1 y1 p1 md1 vc1 s1,
        Pausable.requestRouteOptimization m x2 y2 p2 md2 vc2 s2 with
  | Ok (id1, s1'), Ok (id2, s2') => id1 = id2 ∧ pausable_low_eq s1' s2'
  | Fail _, Fail _ => True
  | _, _ => False
  end.
Proof.
  intros []. rewrite !pausable_request_spec.
  rewrite <- ple_paused0, <- ple_counter0, <- ple_coprocessor0.
  destruct (Pausable.paused s1) eqn:?; [done|].
  destruct (_ <=? uint32_max); [|done].
  destruct (Pausable.coprocessor s1) eqn:?; [|done].
  split; [done|]. split; simpl; try done; try congruence.
  - unfold Pausable.routes_of. simpl. congruence.
  - intros id. unfold Pausable.request_at. simpl.
    destruct (decide (id = Pausable.routeCounter s1 + 1)) as [->|Hne].
    + by rewrite !lookup_insert_eq.
    + rewrite !lookup_insert_ne by done. apply ple_requests0.
Qed.

Lemma pausable_process_low_eq (m : msg) (routeId : Z) (s1 s2 : Pausable.state) :
  pausable_low_eq s1 s2 →
  match Pausable.processRouteOptimization m routeId s1,
        Pausable.processRouteOptimization m routeId s2 with
  | Ok s1', Ok s2' => pausable_low_eq s1' s2'
  | Fail _, Fail _ => True
  | _, _ => False
  end.
Proof.
  intros [].
  pose proof (pausable_process_ungranted m routeId s1 ple_acl3) as H1.
  pose proof (pausable_process_ungranted m routeId s2 ple_acl4) as H2.
  destruct (Pausable.processRouteOptimization m routeId s1);
  destruct (Pausable.processRouteOptimization m routeId s2); done.
Qed.

Lemma pausable_exec_low_eq (m : msg) (c : Pausable.call) (s1 s2 : Pausable.state) :
  pausable_low_eq s1 s2 →
  match c with Pausable.RequestRouteOptimization _ _ _ _ _
             | Pausable.ProcessRouteOptimization _ => False | _ => True end →
  match Pausable.exec m c s1, Pausable.exec m c s2 with
  | Ok s1', Ok s2' => pausable_low_eq s1' s2'
  | Fail _, Fail _ => True
  | _, _ => False
  end.
Proof.
  intros [Hcop Hacl1 Hacl2 Hown Hcnt Hpaused Hpausers Hlog Husers Hreqs Hlocs] Hc.
  destruct c as [x y p md vc|routeId|routeId|routeId i|a|a| |a]; try done; simpl.
  - destruct (pausable_public_request_eq _ _ (Hreqs routeId))
      as (Hr & Hn & Hp & Ho & Ht & Hb).
    rewrite !pausable_finalize_spec. rewrite <- Hown, <- Hpaused, <- Hp.
    destruct (negb (bool_decide _)); [done|].
    destruct (Pausable.paused s1) eqn:?; [done|].
    destruct (negb (Pausable.RouteRequest.processed _)); [done|].
    split; simpl; try done; try congruence.
  - destruct (pausable_public_request_eq _ _ (Hreqs routeId))
      as (Hr & Hn & Hp & Ho & Ht & Hb).
    rewrite !pausable_mark_spec.
    rewrite <- Hr, <- Hpaused, <- Hp, <- Hn, <- Hlocs.
    destruct (negb (bool_decide _)); [done|].
    destruct (Pausable.paused s1) eqn:?; [done|].
    destruct (negb (Pausable.RouteRequest.processed _)); [done|].
    destruct (_ <=? i); [done|].
    destruct (negb (Pausable.DeliveryLocation.isActive _)); [done|].
    split; simpl; try done; try congruence.
    intros id j. unfold Pausable.location_at. simpl.
    destruct (decide ((id, j) = (routeId, i))) as [[= -> ->]|Hne].
    + by rewrite !lookup_insert_eq.
    + rewrite !lookup_insert_ne by done. apply Hlocs.
  - rewrite !pausable_addPauser_spec. unfold Pausable.is_pauser.
    rewrite <- Hown, <- Hpausers.
    destruct (negb (bool_decide _)); [done|].
    destruct (bool_decide (a = address_zero)); [done|].
    destruct (default false _); [done|].
    split; simpl; try done; congruence.
  - rewrite !pausable_removePauser_spec. unfold Pausable.is_pauser.
    rewrite <- Hown, <- Hpausers.
    destruct (negb (bool_decide _)); [done|].
    destruct (negb (default false _)); [done|].
    split; simpl; try done; congruence.
  - rewrite !pausable_togglePause_spec. unfold Pausable.is_pauser.
    rewrite <- Hown, <- Hpausers, <- Hpaused.
    destruct (_ && _); [done|].
    split; simpl; try done; congruence.
  - rewrite !pausable_transferOwnership_spec.
    rewrite <- Hown.
    destruct (negb (bool_decide _)); [done|].
    destruct (bool_decide (a = address_zero)); [done|].
    split; simpl; try done; congruence.
Qed.

Lemma pausable_step_low_eq (s1 s2 : Pausable.state) (t1 t2 : msg * Pausable.call) :
  pausable_low_eq s1 s2 → pausable_same_public_tx t1 t2 →
  pausable_low_eq (Pausable.step s1 t1) (Pausable.step s2 t2).
Proof.
  intros Hle [Hm Hc]. destruct t1 as [m c1], t2 as [m2 c2]. simpl in *. subst m2.
  unfold Pausable.step. simpl.
  destruct c1 as [x1 y1 p1 md1 vc1|id1|id1|id1 i1|a1|a1| |a1].
  1: { destruct c2 as [x2 y2 p2 md2 vc2|?|?|? ?|?|?| |?]; try done. simpl.
       pose proof (pausable_request_low_eq m x1 y1 p1 md1 vc1 x2 y2 p2 md2 vc2
                     s1 s2 Hle) as H.
       destruct (Pausable.requestRouteOptimization m x1 y1 p1 md1 vc1 s1) as [[? ?]|];
       destruct (Pausable.requestRouteOptimization m x2 y2 p2 md2 vc2 s2) as [[? ?]|];
         simpl; try done. by destruct H. }
  1: { simpl in Hc. subst c2. simpl.
       pose proof (pausable_process_low_eq m id1 s1 s2 Hle) as H.
       destruct (Pausable.processRouteOptimization m id1 s1);
       destruct (Pausable.processRouteOptimization m id1 s2); done. }
  all: simpl in Hc; subst c2;
    match goal with
    | Hl : pausable_low_eq ?a ?b |- context [Pausable.exec ?mm ?c ?a] =>
        pose proof (pausable_exec_low_eq mm c a b Hl I) as H;
        destruct (Pausable.exec mm c a); destruct (Pausable.exec mm c b); done
    end.
Qed.

Lemma pausable_run_low_eq (txs1 txs2 : list (msg * Pausable.call)) :
  Forall2 pausable_same_public_tx txs1 txs2 →
  ∀ s1 s2, pausable_low_eq s1 s2 →
  pausable_low_eq (Pausable.run s1 txs1) (Pausable.run s2 txs2).
Proof.
  induction 1 as [|t1 t2 txs1 txs2 Ht _ IH]; intros s1 s2 Hle; [done|].
  simpl. apply IH. by apply pausable_step_low_eq.
Qed.



(** * Further properties of the two contracts *)

(** ** Core: [requestRouteOptimization] *)

Lemma core_request_overflow (m : msg) (xs ys ps : list Z) (maxDistance capacity : Z)
    (s : Core.state) :
  length xs = length ys → length xs = length ps →
  255 < Z.of_nat (length xs) → Core.routeCounter s + 1 ≤ uint32_max →
  Core.requestRouteOptimization m xs ys ps maxDistance capacity s = Fail (Panic 17).
Proof.
  intros Hxy Hxp Hn Hc. unfold Core.requestRouteOptimization.
  rewrite !bool_decide_true by (done || lia). simpl.
  unfold checked_add. destruct (Z.leb_spec (Core.routeCounter s + 1) uint32_max); [|lia].
  simpl. rewrite (for_uint8_overflow (fun _ _ => True)); [done| |lia|done].
  intros i t ? ? ? _.
  destruct (lookup_lt_is_Some_2 xs (Z.to_nat i)) as [x Hx]; [lia|].
  destruct (lookup_lt_is_Some_2 ys (Z.to_nat i)) as [y Hy]; [lia|].
  destruct (lookup_lt_is_Some_2 ps (Z.to_nat i)) as [p Hp]; [lia|].
  unfold Core.store_location, index. rewrite Hx, Hy, Hp. simpl. eauto.
Qed.

(** X1.  The outcome of [requestRouteOptimization] is decided by the array
    lengths and the counter alone.  The three [require]s are checked in
    order; an exhausted counter and, because the loop counter is a [uint8],
    any request with 256 or more locations panic with an arithmetic overflow;
    every other request succeeds and returns the counter plus one. *)
Theorem core_request_outcome (m : msg) (xs ys ps : list Z) (maxDistance capacity : Z)
    (s : Core.state) :
  (length xs ≠ length ys →
     Core.requestRouteOptimization m xs ys ps maxDistance capacity s
       = Fail (Revert "Coordinate arrays must match")) ∧
  (length xs = length ys → length xs ≠ length ps →
     Core.requestRouteOptimization m xs ys ps maxDistance capacity s
       = Fail (Revert "Priority array must match")) ∧
  (length xs = length ys → length xs = length ps → length xs = 0%nat →
     Core.requestRouteOptimization m xs ys ps maxDistance capacity s
       = Fail (Revert "Must have at least one location")) ∧
  (length xs = length ys → length xs = length ps → (0 < length xs)%nat →
   uint32_max < Core.routeCounter s + 1 →
     Core.requestRouteOptimization m xs ys ps maxDistance capacity s = Fail (Panic 17)) ∧
  (length xs = length ys → length xs = length ps → (255 < length xs)%nat →
   Core.routeCounter s + 1 ≤ uint32_max →
     Core.requestRouteOptimization m xs ys ps maxDistance capacity s = Fail (Panic 17)) ∧
  (length xs = length ys → length xs = length ps → (0 < length xs ≤ 255)%nat →
   Core.routeCounter s + 1 ≤ uint32_max →
     ∃ s', Core.requestRouteOptimization m xs ys ps maxDistance capacity s
             = Ok (Core.routeCounter s + 1, s')).
Proof.
  split; [|split; [|split; [|split; [|split]]]].
  - intros Hxy. unfold Core.requestRouteOptimization.
    by rewrite (bool_decide_false (length xs = length ys)).
  - intros Hxy Hxp. unfold Core.requestRouteOptimization.
    rewrite (bool_decide_true (length xs = length ys)) by done. simpl.
    by rewrite (bool_decide_false (length xs = length ps)).
  - intros Hxy Hxp Hn. unfold Core.requestRouteOptimization.
    rewrite (bool_decide_true (length xs = length ys)) by done. simpl.
    rewrite (bool_decide_true (length xs = length ps)) by done. simpl.
    by rewrite bool_decide_false by lia.
  - intros Hxy Hxp Hn Hc. unfold Core.requestRouteOptimization.
    rewrite (bool_decide_true (length xs = length ys)) by done. simpl.
    rewrite (bool_decide_true (length xs = length ps)) by done. simpl.
    rewrite bool_decide_true by lia. simpl. unfold checked_add.
    by destruct (Z.leb_spec (Core.routeCounter s + 1) uint32_max); [lia|].
  - intros Hxy Hxp Hn Hc. apply core_request_overflow; [done|done|lia|done].
  - intros Hxy Hxp Hn Hc.
    destruct (core_request_ok m xs ys ps maxDistance capacity s) as (s' & Hok & _);
      [done|done|lia|lia|done|]. eauto.
Qed.

Lemma core_request_outcome_witness :
  Core.requestRouteOptimization requester1 [100; 200] [150] [1; 2] 1000 10 core_fresh
    = Fail (Revert "Coordinate arrays must match") ∧
  Core.requestRouteOptimization requester1 [100; 200] [150; 250] [1] 1000 10 core_fresh
    = Fail (Revert "Priority array must match") ∧
  Core.requestRouteOptimization requester1 [] [] [] 1000 10 core_fresh
    = Fail (Revert "Must have at least one location") ∧
  Core.requestRouteOptimization requester1 (replicate 256 1) (replicate 256 1)
      (replicate 256 1) 1000 10 core_fresh = Fail (Panic 17) ∧
  (∃ s', Core.requestRouteOptimization requester1 [100; 200; 300] [150; 250; 350]
           [1; 2; 3] 1000 10 core_fresh = Ok (Core.routeCounter core_fresh + 1, s')).
Proof.
  refine (conj _ (conj _ (conj _ (conj _ _)))).
  - apply (proj1 (core_request_outcome requester1 [100; 200] [150] [1; 2] 1000 10
                    core_fresh)).
    simpl. lia.
  - apply (proj1 (proj2 (core_request_outcome requester1 [100; 200] [150; 250] [1]
                           1000 10 core_fresh))); simpl; lia.
  - apply (proj1 (proj2 (proj2 (core_request_outcome requester1 [] [] [] 1000 10
                                  core_fresh)))); reflexivity.
  - apply (proj1 (proj2 (proj2 (proj2 (proj2
             (core_request_outcome requester1 (replicate 256 1) (replicate 256 1)
                (replicate 256 1) 1000 10 core_fresh)))))).
    + reflexivity.
    + reflexivity.
    + rewrite length_replicate. lia.
    + vm_compute. discriminate.
  - apply (proj2 (proj2 (proj2 (proj2 (proj2
             (core_request_outcome requester1 [100; 200; 300] [150; 250; 350] [1; 2; 3]
                1000 10 core_fresh)))))).
    + reflexivity.
    + reflexivity.
    + simpl. lia.
    + vm_compute. discriminate.
Defined.

(** X2.  What a successful [requestRouteOptimization] leaves behind: the
    public record [(sender, n, false, timestamp)], the new id appended to the
    sender's route list (other users' lists untouched), one active location
    per input index whose three ciphertexts decrypt to the submitted
    coordinates and priority, and constraint ciphertexts that decrypt to
    [maxDistance] and [vehicleCapacity]; all older requests and locations are
    as before. *)
Theorem core_request_stores_inputs (m : msg) (xs ys ps : list Z)
    (maxDistance capacity : Z) (s s' : Core.state) (routeId : Z) :
  Core.requestRouteOptimization m xs ys ps maxDistance capacity s = Ok (routeId, s') →
  Core.getRouteRequest routeId s'
    = (msg_sender m, Z.of_nat (length xs), false, block_timestamp m) ∧
  Core.getUserRoutes (msg_sender m) s' = Core.getUserRoutes (msg_sender m) s ++ [routeId] ∧
  (∀ user, user ≠ msg_sender m → Core.getUserRoutes user s' = Core.getUserRoutes user s) ∧
  (∀ (i : nat) x y p,
     xs !! i = Some x → ys !! i = Some y → ps !! i = Some p →
     Core.location_at s' routeId (Z.of_nat i) =
       Core.DeliveryLocation.mk (FHE.asEuint32 x) (FHE.asEuint32 y) (FHE.asEuint8 p) true ∧
     FHE.decrypt32 (Core.DeliveryLocation.encryptedX
                      (Core.location_at s' routeId (Z.of_nat i))) = x mod 2 ^ 32 ∧
     FHE.decrypt32 (Core.DeliveryLocation.encryptedY
                      (Core.location_at s' routeId (Z.of_nat i))) = y mod 2 ^ 32 ∧
     FHE.decrypt8 (Core.DeliveryLocation.priority
                     (Core.location_at s' routeId (Z.of_nat i))) = p mod 2 ^ 8) ∧
  FHE.decrypt32 (Core.RouteRequest.maxTravelDistance (Core.request_at s' routeId))
    = maxDistance mod 2 ^ 32 ∧
  FHE.decrypt8 (Core.RouteRequest.vehicleCapacity (Core.request_at s' routeId))
    = capacity mod 2 ^ 8 ∧
  (∀ id, id ≠ routeId →
     Core.request_at s' id = Core.request_at s id ∧
     ∀ j, Core.location_at s' id j = Core.location_at s id j).
Proof.
  intros H. apply core_request_inv in H as (Hxy & Hxp & Hpos & Hn & Hc & -> & []).
  assert (Core.request_at s' (Core.routeCounter s + 1) =
            core_new_request m (Z.of_nat (length xs)) maxDistance capacity) as Hr.
  { unfold Core.request_at. by rewrite crp_requests0, lookup_insert_eq. }
  refine (conj _ (conj _ (conj _ (conj _ (conj _ (conj _ _)))))).
  - unfold Core.getRouteRequest. by rewrite Hr.
  - unfold Core.getUserRoutes, Core.routes_of at 1.
    by rewrite crp_users0, lookup_insert_eq.
  - intros user Hne. unfold Core.getUserRoutes, Core.routes_of.
    by rewrite crp_users0, lookup_insert_ne.
  - intros i x y p Hx Hy Hp.
    assert (Core.location_at s' (Core.routeCounter s + 1) (Z.of_nat i) =
              Core.DeliveryLocation.mk (FHE.asEuint32 x) (FHE.asEuint32 y)
                (FHE.asEuint8 p) true) as ->.
    { unfold Core.location_at. rewrite crp_locations0.
      apply lookup_lt_Some in Hx as Hi.
      rewrite bool_decide_true by lia.
      unfold core_stored_location. rewrite Nat2Z.id, Hx, Hy, Hp. done. }
    done.
  - by rewrite Hr.
  - by rewrite Hr.
  - intros id Hne. split.
    + unfold Core.request_at. by rewrite crp_requests0, lookup_insert_ne.
    + intros j. unfold Core.location_at. rewrite crp_locations0.
      by rewrite bool_decide_false by (intros [? _]; done).
Qed.

Lemma core_request_stores_inputs_witness :
  Core.getRouteRequest 1 core_requested = (msg_sender requester1, 3, false, 1000) ∧
  Core.getUserRoutes (msg_sender requester1) core_requested = [1] ∧
  FHE.decrypt32 (Core.DeliveryLocation.encryptedX (Core.location_at core_requested 1 2))
    = 300 ∧
  FHE.decrypt32 (Core.DeliveryLocation.encryptedY (Core.location_at core_requested 1 2))
    = 350.
Proof.
  destruct (core_request_stores_inputs requester1 [100; 200; 300] [150; 250; 350]
              [1; 2; 3] 1000 10 core_fresh core_requested 1)
    as (Hget & Huser & _ & Hloc & _); [vm_compute; reflexivity|].
  destruct (Hloc 2%nat 300 350 3) as (_ & Hx & Hy & _); [reflexivity..|].
  refine (conj Hget (conj Huser (conj _ _))); [exact Hx|exact Hy].
Defined.

(** ** Core: stored locations *)

(** X3.  In every reachable state of the core contract a location is stored
    at [(routeId, j)] exactly when the route is stored and
    [0 <= j < locationCount]; every stored location holds trivial
    encryptions, as [requestRouteOptimization] wrote them. *)
Theorem core_locations_match_count (s : Core.state) (routeId j : Z) :
  Core.reachable s →
  (is_Some (Core.routeLocations s !! (routeId, j)) ↔
   ∃ r, Core.routeRequests s !! routeId = Some r ∧
        0 ≤ j < Core.RouteRequest.locationCount r) ∧
  (∀ l, Core.routeLocations s !! (routeId, j) = Some l →
     ∃ x y p, Core.DeliveryLocation.encryptedX l = FHE.asEuint32 x ∧
              Core.DeliveryLocation.encryptedY l = FHE.asEuint32 y ∧
              Core.DeliveryLocation.priority l = FHE.asEuint8 p).
Proof.
  intros Hreach. apply core_shape_reachable in Hreach as [Hloc Htriv _ _ _].
  split; [apply Hloc|apply Htriv].
Qed.

Lemma core_locations_match_count_witness :
  is_Some (Core.routeLocations core_delivered !! (1, 2)) ∧
  ¬ is_Some (Core.routeLocations core_delivered !! (1, 3)).
Proof.
  assert (Core.reachable core_delivered) as Hreach.
  { exists owner_msg,
      [(requester1,
        Core.RequestRouteOptimization [100; 200; 300] [150; 250; 350] [1; 2; 3] 1000 10);
       (owner_msg, Core.ProcessRouteOptimization 1);
       (requester1, Core.MarkDeliveryCompleted 1 0)].
    vm_compute. reflexivity. }
  split.
  - apply (proj1 (core_locations_match_count core_delivered 1 2 Hreach)).
    eexists. split; [vm_compute; reflexivity|]. vm_compute. split; [discriminate|reflexivity].
  - intros Hsome.
    apply (proj1 (core_locations_match_count core_delivered 1 3 Hreach)) in Hsome
      as (r & Hr & Hj).
    vm_compute in Hr. injection Hr as <-. vm_compute in Hj. destruct Hj as [_ Hj].
    discriminate Hj.
Defined.

(** ** Core: operations behind [totalDistance] *)

Lemma core_accumulated_counts (s : Core.state) (routeId : Z) (k : nat) :
  (∀ j, 0 ≤ j ≤ Z.of_nat k →
     ∃ x y, Core.DeliveryLocation.encryptedX (Core.location_at s routeId j) = FHE.asEuint32 x ∧
            Core.DeliveryLocation.encryptedY (Core.location_at s routeId j) = FHE.asEuint32 y) →
  FHE.count_sub (core_accumulated s routeId k) = (2 * k)%nat ∧
  FHE.count_add (core_accumulated s routeId k) = (2 * k)%nat.
Proof.
  induction k as [|k IH]; intros Htriv; [done|].
  rewrite core_accumulated_S. destruct IH as [IHs IHa].
  { intros j Hj. apply Htriv. lia. }
  unfold core_distance.
  destruct (Htriv (Z.of_nat k)) as (x1 & y1 & -> & ->); [lia|].
  destruct (Htriv (Z.of_nat k + 1)) as (x2 & y2 & -> & ->); [lia|].
  simpl FHE.count_sub. simpl FHE.count_add. rewrite IHs, IHa. lia.
Qed.

(** X4.  For a route with [n] locations processed in a reachable state, the
    stored [totalDistance] handle is built from exactly [2(n-1)] homomorphic
    subtractions and [2(n-1)] homomorphic additions: per consecutive pair two
    subtractions and one addition for the distance, and one addition for the
    running total.  A single-location route stores an encryption of 0. *)
Theorem core_total_distance_operations (m : msg) (routeId : Z) (s s' : Core.state) :
  Core.reachable s →
  Core.processRouteOptimization m routeId s = Ok s' →
  FHE.count_sub (Core.OptimizedRoute.totalDistance (Core.optimized_at s' routeId)) =
    (2 * Z.to_nat (Core.RouteRequest.locationCount (Core.request_at s routeId) - 1))%nat ∧
  FHE.count_add (Core.OptimizedRoute.totalDistance (Core.optimized_at s' routeId)) =
    (2 * Z.to_nat (Core.RouteRequest.locationCount (Core.request_at s routeId) - 1))%nat ∧
  (Core.RouteRequest.locationCount (Core.request_at s routeId) = 1 →
   Core.OptimizedRoute.totalDistance (Core.optimized_at s' routeId) = FHE.asEuint32 0).
Proof.
  intros Hreach H. apply core_shape_reachable in Hreach as [Hloc Htriv _ _ _].
  apply core_process_inv in H as (_ & _ & Hr & Hn1 & _ & _ & _ & _ & _ & Hopts & _).
  apply core_request_at_some in Hr as Hsome.
  unfold Core.optimized_at. rewrite Hopts, lookup_insert_eq. simpl.
  assert (FHE.count_sub (core_accumulated s routeId
            (Z.to_nat (Core.RouteRequest.locationCount (Core.request_at s routeId) - 1)))
          = (2 * Z.to_nat (Core.RouteRequest.locationCount (Core.request_at s routeId) - 1))%nat
          ∧
          FHE.count_add (core_accumulated s routeId
            (Z.to_nat (Core.RouteRequest.locationCount (Core.request_at s routeId) - 1)))
          = (2 * Z.to_nat (Core.RouteRequest.locationCount (Core.request_at s routeId) - 1))%nat)
    as [Hs Ha].
  { apply core_accumulated_counts. intros j Hj.
    assert (is_Some (Core.routeLocations s !! (routeId, j))) as [l Hl].
    { apply Hloc. eexists; split; [done|]. lia. }
    destruct (Htriv _ _ _ Hl) as (x & y & p & Hx & Hy & _).
    unfold Core.location_at. rewrite Hl. simpl. eauto. }
  split; [done|]. split; [done|]. by intros ->.
Qed.

Lemma core_total_distance_operations_witness :
  FHE.count_sub (Core.OptimizedRoute.totalDistance (Core.optimized_at core_processed 1))
    = 4%nat ∧
  FHE.count_add (Core.OptimizedRoute.totalDistance (Core.optimized_at core_processed 1))
    = 4%nat.
Proof.
  destruct (core_total_distance_operations owner_msg 1 core_requested core_processed)
    as (Hs & Ha & _).
  - exists owner_msg,
      [(requester1,
        Core.RequestRouteOptimization [100; 200; 300] [150; 250; 350] [1; 2; 3] 1000 10)].
    reflexivity.
  - vm_compute. reflexivity.
  - split; [exact Hs|exact Ha].
Defined.

(** X5.  In every reachable state of the core contract a result record
    exists exactly for the processed requests; it carries the request's id
    and requester, [isConfidential = true], the identity order of the
    request's [locationCount] and the constant time estimate, and the
    request points back to it through [optimizedRouteId]; an unprocessed
    request has [optimizedRouteId = 0]. *)
Theorem core_result_iff_processed (s : Core.state) (routeId : Z) :
  Core.reachable s →
  (Core.RouteRequest.processed (Core.request_at s routeId) = true ↔
   is_Some (Core.optimizedRoutes s !! routeId)) ∧
  (∀ o, Core.optimizedRoutes s !! routeId = Some o →
     Core.OptimizedRoute.routeId o = routeId ∧
     Core.OptimizedRoute.requester o
       = Core.RouteRequest.requester (Core.request_at s routeId) ∧
     Core.OptimizedRoute.isConfidential o = true ∧
     Core.OptimizedRoute.locationOrder o =
       identity_order (Core.RouteRequest.locationCount (Core.request_at s routeId)) ∧
     FHE.decrypt8 (Core.OptimizedRoute.estimatedTime o) = 100 ∧
     Core.RouteRequest.optimizedRouteId (Core.request_at s routeId) = routeId) ∧
  (Core.RouteRequest.processed (Core.request_at s routeId) = false →
   Core.RouteRequest.optimizedRouteId (Core.request_at s routeId) = 0).
Proof.
  intros Hreach. apply core_shape_reachable in Hreach as [_ _ Hres Hfields Hunp].
  split; [apply Hres|]. split; [|apply Hunp].
  intros o Ho. destruct (Hfields _ _ Ho) as (H1 & H2 & H3 & H4 & H5 & H6).
  rewrite H5. done.
Qed.

Lemma core_result_iff_processed_witness :
  is_Some (Core.optimizedRoutes core_processed !! 1) ∧
  Core.RouteRequest.optimizedRouteId (Core.request_at core_processed 1) = 1 ∧
  Core.RouteRequest.optimizedRouteId (Core.request_at core_requested 1) = 0.
Proof.
  destruct (core_result_iff_processed core_processed 1) as (Hiff & Hfields & _).
  { exists owner_msg,
      [(requester1,
        Core.RequestRouteOptimization [100; 200; 300] [150; 250; 350] [1; 2; 3] 1000 10);
       (owner_msg, Core.ProcessRouteOptimization 1)].
    vm_compute. reflexivity. }
  destruct (core_result_iff_processed core_requested 1) as (_ & _ & Hunp).
  { exists owner_msg,
      [(requester1,
        Core.RequestRouteOptimization [100; 200; 300] [150; 250; 350] [1; 2; 3] 1000 10)].
    reflexivity. }
  assert (is_Some (Core.optimizedRoutes core_processed !! 1)) as Hsome.
  { apply Hiff. vm_compute. reflexivity. }
  split; [exact Hsome|]. split.
  - destruct Hsome as [o Ho]. apply (Hfields o Ho).
  - apply Hunp. vm_compute. reflexivity.
Defined.

(** ** Core: the queries *)

(** X6.  After a successful [processRouteOptimization], [getOptimizedRoute]
    answers the route's requester with the accumulated distance handle, the
    time handle, the identity order and the processing timestamp, and
    rejects every other caller with "Not your route";
    [getRouteDataForOwner] answers the owner with the same two handles and
    the requester, and rejects every other caller with "Not authorized".  On
    an unprocessed route the requester gets "Route not processed yet" and
    the owner "Route not processed". *)
Theorem core_result_queries (m m' : msg) (routeId : Z) (s s' : Core.state) :
  Core.processRouteOptimization m routeId s = Ok s' →
  (msg_sender m' = Core.RouteRequest.requester (Core.request_at s routeId) →
     Core.getOptimizedRoute m' routeId s' =
       Ok (core_accumulated s routeId
             (Z.to_nat (Core.RouteRequest.locationCount (Core.request_at s routeId) - 1)),
           FHE.asEuint8 100,
           identity_order (Core.RouteRequest.locationCount (Core.request_at s routeId)),
           block_timestamp m)) ∧
  (msg_sender m' ≠ Core.RouteRequest.requester (Core.request_at s routeId) →
     Core.getOptimizedRoute m' routeId s' = Fail (Revert "Not your route")) ∧
  (msg_sender m' = Core.owner s →
     Core.getRouteDataForOwner m' routeId s' =
       Ok (core_accumulated s routeId
             (Z.to_nat (Core.RouteRequest.locationCount (Core.request_at s routeId) - 1)),
           FHE.asEuint8 100,
           Core.RouteRequest.requester (Core.request_at s routeId),
           block_timestamp m)) ∧
  (msg_sender m' ≠ Core.owner s →
     Core.getRouteDataForOwner m' routeId s' = Fail (Revert "Not authorized")) ∧
  (msg_sender m' = Core.RouteRequest.requester (Core.request_at s routeId) →
     Core.getOptimizedRoute m' routeId s = Fail (Revert "Route not processed yet")) ∧
  (msg_sender m' = Core.owner s →
     Core.getRouteDataForOwner m' routeId s = Fail (Revert "Route not processed")).
Proof.
  intros H.
  apply core_process_inv in H
    as (_ & Hp & _ & _ & _ & Hown & _ & Hreqs & _ & Hopts & _).
  assert (Core.request_at s' routeId =
            core_processed_request (Core.request_at s routeId) routeId) as Hr.
  { unfold Core.request_at at 1. by rewrite Hreqs, lookup_insert_eq. }
  unfold Core.getOptimizedRoute, Core.getRouteDataForOwner, Core.onlyRequester,
    Core.onlyOwner, Core.optimized_at.
  rewrite Hr, Hopts, lookup_insert_eq, Hown, Hp. simpl.
  refine (conj _ (conj _ (conj _ (conj _ (conj _ _))))); intros Hm.
  - by rewrite bool_decide_true.
  - by rewrite bool_decide_false.
  - by rewrite bool_decide_true.
  - by rewrite bool_decide_false.
  - by rewrite bool_decide_true.
  - by rewrite bool_decide_true.
Qed.

Lemma core_result_queries_witness :
  Core.getOptimizedRoute requester1 1 core_processed =
    Ok (core_accumulated core_requested 1 2, FHE.asEuint8 100, identity_order 3, 1000) ∧
  Core.getOptimizedRoute unauthorized 1 core_processed = Fail (Revert "Not your route") ∧
  Core.getRouteDataForOwner unauthorized 1 core_processed
    = Fail (Revert "Not authorized") ∧
  Core.getOptimizedRoute requester1 1 core_requested
    = Fail (Revert "Route not processed yet").
Proof.
  assert (Core.processRouteOptimization owner_msg 1 core_requested = Ok core_processed)
    as Hok by (vm_compute; reflexivity).
  destruct (core_result_queries owner_msg requester1 1 core_requested core_processed Hok)
    as (Hget & _ & _ & _ & Hearly & _).
  destruct (core_result_queries owner_msg unauthorized 1 core_requested core_processed Hok)
    as (_ & Hother & _ & Hnot_owner & _).
  refine (conj _ (conj _ (conj _ _))).
  - apply Hget. reflexivity.
  - apply Hother. vm_compute. discriminate.
  - apply Hnot_owner. vm_compute. discriminate.
  - apply Hearly. reflexivity.
Defined.

(** ** The per-user route index *)

Lemma filter_ext_in {A} (P1 P2 : A → Prop)
    `{!∀ x, Decision (P1 x), !∀ x, Decision (P2 x)} (l : list A) :
  (∀ x, x ∈ l → (P1 x ↔ P2 x)) → filter P1 l = filter P2 l.
Proof.
  induction l as [|a l IH]; intros Hext; [done|].
  assert (filter P1 l = filter P2 l) as Hl.
  { apply IH. intros x Hx. apply Hext. by apply elem_of_cons; right. }
  assert (P1 a ↔ P2 a) as Ha by (apply Hext; apply elem_of_cons; by left).
  destruct (decide (P1 a)).
  - rewrite !filter_cons_True by tauto. by rewrite Hl.
  - rewrite !filter_cons_False by tauto. done.
Qed.

Lemma ids_after_snoc (c : Z) (k : nat) :
  ids_after c (S k) = ids_after c k ++ [c + Z.of_nat (S k)].
Proof. unfold ids_after. by rewrite seq_S, fmap_app. Qed.

Lemma elem_of_ids_after (c : Z) (k : nat) (id : Z) :
  id ∈ ids_after c k → c + 1 ≤ id ≤ c + Z.of_nat k.
Proof.
  unfold ids_after. intros (i & -> & Hi)%list_elem_of_fmap.
  apply elem_of_seq in Hi. lia.
Qed.

Lemma core_user_routes_step (s : Core.state) (tx : msg * Core.call) :
  core_inv s →
  (∀ user, Core.routes_of s user = core_routes_of_requester s user) →
  ∀ user, Core.routes_of (Core.step s tx) user
          = core_routes_of_requester (Core.step s tx) user.
Proof.
  intros Hinv IH user. destruct tx as [m c]. unfold Core.step. simpl.
  destruct (Core.exec m c s) as [s'|] eqn:Hexec; [|apply IH].
  destruct c as [xs ys ps md vc|routeId|routeId i]; simpl in Hexec.
  - inv_ok Hexec. destruct a as [routeId s1]. inversion Hexec; subst s1; clear Hexec.
    apply core_request_inv in Hstep as (_ & _ & _ & _ & _ & -> & []).
    destruct (ci_counter s Hinv) as [Hc0 _].
    unfold core_routes_of_requester. rewrite crp_counter0.
    replace (Z.to_nat (Core.routeCounter s + 1)) with (S (Z.to_nat (Core.routeCounter s)))
      by lia.
    rewrite ids_after_snoc, filter_app.
    replace (0 + Z.of_nat (S (Z.to_nat (Core.routeCounter s))))
      with (Core.routeCounter s + 1) by lia.
    rewrite (filter_ext_in _
               (fun id => Core.RouteRequest.requester (Core.request_at s id) = user)).
    2: { intros id Hid%elem_of_ids_after. unfold Core.request_at.
         rewrite crp_requests0, lookup_insert_ne by lia. done. }
    fold (core_routes_of_requester s user). rewrite <- IH.
    assert (Core.RouteRequest.requester (Core.request_at s' (Core.routeCounter s + 1))
            = msg_sender m) as Hnew.
    { unfold Core.request_at. by rewrite crp_requests0, lookup_insert_eq. }
    unfold Core.routes_of at 1. rewrite crp_users0.
    destruct (decide (user = msg_sender m)) as [->|Hne].
    + rewrite lookup_insert_eq. simpl. by rewrite filter_cons_True, filter_nil.
    + rewrite lookup_insert_ne by done.
      rewrite filter_cons_False, filter_nil by congruence. by rewrite app_nil_r.
  - apply core_process_inv in Hexec
      as (_ & _ & _ & _ & _ & _ & Hcnt & Hreqs & _ & _ & Hu & _).
    unfold Core.routes_of, core_routes_of_requester. rewrite Hu, Hcnt.
    rewrite (filter_ext_in _
               (fun id => Core.RouteRequest.requester (Core.request_at s id) = user)).
    { apply IH. }
    intros id _. unfold Core.request_at. rewrite Hreqs.
    destruct (decide (id = routeId)) as [->|Hne].
    + by rewrite lookup_insert_eq.
    + by rewrite lookup_insert_ne.
  - apply core_mark_inv in Hexec as (_ & _ & _ & _ & ->). apply IH.
Qed.

Lemma core_user_routes_reachable (s : Core.state) (user : address) :
  Core.reachable s → Core.routes_of s user = core_routes_of_requester s user.
Proof.
  intros (d & txs & ->). revert user.
  assert (∀ txs s, core_inv s →
            (∀ user, Core.routes_of s user = core_routes_of_requester s user) →
            ∀ user, Core.routes_of (Core.run s txs) user
                    = core_routes_of_requester (Core.run s txs) user) as Hrun.
  { clear. induction txs as [|tx txs IH]; intros s Hi Hu; [done|].
    simpl. apply IH; [by apply core_inv_step|by apply core_user_routes_step]. }
  apply Hrun; [apply core_inv_constructor|]. done.
Qed.

Lemma pausable_requester_step (s : Pausable.state) (m : msg) (c : Pausable.call)
    (s' : Pausable.state) :
  Pausable.exec m c s = Ok s' →
  match c with Pausable.RequestRouteOptimization _ _ _ _ _ => False | _ => True end →
  Pausable.routeCounter s' = Pausable.routeCounter s ∧
  Pausable.userRoutes s' = Pausable.userRoutes s ∧
  ∀ id, Pausable.RouteRequest.requester (Pausable.request_at s' id)
        = Pausable.RouteRequest.requester (Pausable.request_at s id).
Proof.
  intros Hexec Hc.
  destruct c as [x y p md vc|routeId|routeId|routeId i|b|b| |b]; [done|..];
    simpl in Hexec.
  - apply pausable_process_inv in Hexec as (_ & _ & _ & _ & _ & ->).
    split; [done|]. split; [done|]. intros id.
    change (Pausable.request_at (Pausable.emit ?e ?t) id) with (Pausable.request_at t id).
    rewrite pausable_request_at_set. by destruct (decide (id = routeId)) as [->|].
  - rewrite pausable_finalize_spec in Hexec. cascade Hexec. by inversion Hexec; subst s'.
  - rewrite pausable_mark_spec in Hexec. cascade Hexec. by inversion Hexec; subst s'.
  - rewrite pausable_addPauser_spec in Hexec. cascade Hexec. by inversion Hexec; subst s'.
  - rewrite pausable_removePauser_spec in Hexec. cascade Hexec. by inversion Hexec; subst s'.
  - rewrite pausable_togglePause_spec in Hexec. cascade Hexec. by inversion Hexec; subst s'.
  - rewrite pausable_transferOwnership_spec in Hexec. cascade Hexec.
    by inversion Hexec; subst s'.
Qed.

Lemma pausable_user_routes_step (s : Pausable.state) (tx : msg * Pausable.call) :
  pausable_inv s →
  (∀ user, Pausable.routes_of s user = pausable_routes_of_requester s user) →
  ∀ user, Pausable.routes_of (Pausable.step s tx) user
          = pausable_routes_of_requester (Pausable.step s tx) user.
Proof.
  intros Hinv IH user. destruct tx as [m c]. unfold Pausable.step. simpl.
  destruct (Pausable.exec m c s) as [s'|] eqn:Hexec; [|apply IH].
  assert (match c with Pausable.RequestRouteOptimization _ _ _ _ _ => False
                     | _ => True end ∨
          ¬ match c with Pausable.RequestRouteOptimization _ _ _ _ _ => False
                       | _ => True end) as [Hc|Hc] by (destruct c; tauto).
  - destruct (pausable_requester_step s m c s' Hexec Hc) as (Hcnt & Hu & Hr).
    unfold Pausable.routes_of, pausable_routes_of_requester. rewrite Hu, Hcnt.
    rewrite (filter_ext_in _
      (fun id => Pausable.RouteRequest.requester (Pausable.request_at s id) = user)).
    + apply IH.
    + intros id _. by rewrite Hr.
  - destruct c as [x y p md vc|?|?|? ?|?|?| |?]; try (by destruct Hc). simpl in Hexec.
    inv_ok Hexec. rewrite pausable_request_spec in Hstep. cascade Hstep.
    inversion Hstep; subst a; clear Hstep. simpl in Hexec.
    inversion Hexec; subst s'; clear Hexec.
    destruct (pi_counter s Hinv) as [Hc0 _].
    unfold pausable_routes_of_requester. simpl Pausable.routeCounter.
    replace (Z.to_nat (Pausable.routeCounter s + 1))
      with (S (Z.to_nat (Pausable.routeCounter s))) by lia.
    rewrite ids_after_snoc, filter_app.
    replace (0 + Z.of_nat (S (Z.to_nat (Pausable.routeCounter s))))
      with (Pausable.routeCounter s + 1) by lia.
    rewrite (filter_ext_in _
      (fun id => Pausable.RouteRequest.requester (Pausable.request_at s id) = user)).
    2: { intros id Hid%elem_of_ids_after. unfold Pausable.request_at. simpl.
         rewrite lookup_insert_ne by lia. done. }
    fold (pausable_routes_of_requester s user). rewrite <- IH.
    unfold Pausable.routes_of at 1. simpl.
    destruct (decide (user = msg_sender m)) as [->|Hne].
    + rewrite lookup_insert_eq. simpl. rewrite filter_cons_True, filter_nil; [done|].
      unfold Pausable.request_at. simpl. by rewrite lookup_insert_eq.
    + rewrite lookup_insert_ne by done.
      rewrite filter_cons_False, filter_nil; [by rewrite app_nil_r|].
      unfold Pausable.request_at. simpl. rewrite lookup_insert_eq. simpl. congruence.
Qed.

Lemma pausable_user_routes_reachable (s : Pausable.state) (user : address) :
  Pausable.reachable s →
  Pausable.routes_of s user = pausable_routes_of_requester s user.
Proof.
  intros (d & cfg & txs & ->). revert user.
  assert (∀ txs s, pausable_inv s →
            (∀ user, Pausable.routes_of s user = pausable_routes_of_requester s user) →
            ∀ user, Pausable.routes_of (Pausable.run s txs) user
                    = pausable_routes_of_requester (Pausable.run s txs) user) as Hrun.
  { clear. induction txs as [|tx txs IH]; intros s Hi Hu; [done|].
    simpl. apply IH; [by apply pausable_inv_step|by apply pausable_user_routes_step]. }
  apply Hrun; [apply pausable_inv_deploy|]. done.
Qed.

(** X7.  In every reachable state, [getUserRoutes user] is exactly the list
    of the ids from 1 to [routeCounter] whose request was submitted by
    [user], in increasing order: the per-user index never misses a route,
    never lists a foreign or unknown id and never lists an id twice.  Both
    contracts. *)
Theorem user_routes_index (user : address) :
  (∀ s, Core.reachable s →
     Core.getUserRoutes user s = core_routes_of_requester s user) ∧
  (∀ s, Pausable.reachable s →
     Pausable.getUserRoutes user s = pausable_routes_of_requester s user).
Proof.
  split; intros s Hreach.
  - by apply core_user_routes_reachable.
  - by apply pausable_user_routes_reachable.
Qed.

Lemma user_routes_index_witness :
  Core.getUserRoutes 2 core_processed = core_routes_of_requester core_processed 2 ∧
  Pausable.getUserRoutes 2 pausable_requested
    = pausable_routes_of_requester pausable_requested 2.
Proof.
  split.
  - apply (proj1 (user_routes_index 2)).
    exists owner_msg,
      [(requester1,
        Core.RequestRouteOptimization [100; 200; 300] [150; 250; 350] [1; 2; 3] 1000 10);
       (owner_msg, Core.ProcessRouteOptimization 1)].
    vm_compute. reflexivity.
  - apply (proj2 (user_routes_index 2)).
    exists owner_msg, true,
      [(requester1, Pausable.RequestRouteOptimization 100 150 1 1000 10)].
    vm_compute. reflexivity.
Defined.

(** ** Core: ownership, unknown routes, grants *)

Lemma core_owner_step (s : Core.state) (tx : msg * Core.call) :
  Core.owner (Core.step s tx) = Core.owner s.
Proof.
  destruct tx as [m c]. unfold Core.step. simpl.
  destruct (Core.exec m c s) as [s'|] eqn:Hexec; [|done].
  destruct c as [xs ys ps md vc|routeId|routeId i]; simpl in Hexec.
  - inv_ok Hexec. destruct a as [routeId s1]. inversion Hexec; subst s1.
    by apply core_request_inv in Hstep as (_ & _ & _ & _ & _ & _ & []).
  - by apply core_process_inv in Hexec as (_ & _ & _ & _ & _ & -> & _).
  - by apply core_mark_inv in Hexec as (_ & _ & _ & _ & ->).
Qed.

Lemma core_owner_run (txs : list (msg * Core.call)) : ∀ s,
  Core.owner (Core.run s txs) = Core.owner s.
Proof.
  induction txs as [|tx txs IH]; intros s; [done|].
  simpl. by rewrite IH, core_owner_step.
Qed.

(** X8.  The core contract has no way to change its owner: after any
    sequence of transactions the owner is still the deployer, so
    [processRouteOptimization] and [getRouteDataForOwner] reject every other
    account with "Not authorized", whatever the route. *)
Theorem core_owner_is_deployer (d : msg) (txs : list (msg * Core.call)) :
  Core.owner (Core.run (Core.constructor d) txs) = msg_sender d ∧
  ∀ m routeId, msg_sender m ≠ msg_sender d →
    Core.processRouteOptimization m routeId (Core.run (Core.constructor d) txs)
      = Fail (Revert "Not authorized") ∧
    Core.getRouteDataForOwner m routeId (Core.run (Core.constructor d) txs)
      = Fail (Revert "Not authorized").
Proof.
  assert (Core.owner (Core.run (Core.constructor d) txs) = msg_sender d) as Ho.
  { by rewrite core_owner_run. }
  split; [done|]. intros m routeId Hne.
  unfold Core.processRouteOptimization, Core.getRouteDataForOwner, Core.onlyOwner.
  rewrite Ho. rewrite !(bool_decide_false (msg_sender m = msg_sender d)) by done. done.
Qed.

Lemma core_owner_is_deployer_witness :
  Core.processRouteOptimization requester1 1 core_requested
    = Fail (Revert "Not authorized") ∧
  Core.getRouteDataForOwner requester1 1 core_requested = Fail (Revert "Not authorized").
Proof.
  apply (proj2 (core_owner_is_deployer owner_msg
                  [(requester1,
                    Core.RequestRouteOptimization [100; 200; 300] [150; 250; 350]
                      [1; 2; 3] 1000 10)]) requester1 1).
  vm_compute. discriminate.
Defined.

(** X9.  A route id that was never handed out (below 1 or above the counter)
    reads as the zero record in every reachable state:
    [getRouteRequest] returns [(0, 0, false, 0)], [getUserRoutes] never lists
    it, the owner's [processRouteOptimization] fails with "Invalid route",
    and [markDeliveryCompleted] and [getOptimizedRoute] reject every
    non-zero caller with "Not your route". *)
Theorem core_unknown_route (s : Core.state) (m : msg) (routeId i : Z) :
  Core.reachable s →
  routeId < 1 ∨ Core.routeCounter s < routeId →
  Core.getRouteRequest routeId s = (address_zero, 0, false, 0) ∧
  (∀ user, routeId ∉ Core.getUserRoutes user s) ∧
  (msg_sender m = Core.owner s →
     Core.processRouteOptimization m routeId s = Fail (Revert "Invalid route")) ∧
  (msg_sender m ≠ address_zero →
     Core.markDeliveryCompleted m routeId i s = Fail (Revert "Not your route") ∧
     Core.getOptimizedRoute m routeId s = Fail (Revert "Not your route")).
Proof.
  intros Hreach Hid.
  pose proof (core_reachable_inv s Hreach) as Hinv.
  assert (Core.routeRequests s !! routeId = None) as Hnone.
  { destruct (Core.routeRequests s !! routeId) as [r|] eqn:Hr; [|done].
    destruct (ci_requests s Hinv _ _ Hr) as [[? ?] _]. lia. }
  assert (Core.request_at s routeId = Core.RouteRequest.zero) as Hzero.
  { unfold Core.request_at. by rewrite Hnone. }
  refine (conj _ (conj _ (conj _ _))).
  - unfold Core.getRouteRequest. by rewrite Hzero.
  - intros user Hin. unfold Core.getUserRoutes in Hin.
    rewrite core_user_routes_reachable in Hin by done.
    apply list_elem_of_filter in Hin as [_ Hin%elem_of_ids_after].
    destruct (ci_counter s Hinv). lia.
  - intros Ho. unfold Core.processRouteOptimization, Core.onlyOwner.
    rewrite (bool_decide_true (msg_sender m = Core.owner s)) by done. simpl.
    rewrite Hzero. done.
  - intros Hm.
    unfold Core.markDeliveryCompleted, Core.getOptimizedRoute, Core.onlyRequester.
    rewrite Hzero. simpl.
    rewrite !(bool_decide_false (msg_sender m = address_zero)) by done. done.
Qed.

Lemma core_unknown_route_witness :
  Core.getRouteRequest 999 core_requested = (address_zero, 0, false, 0) ∧
  Core.processRouteOptimization owner_msg 999 core_requested
    = Fail (Revert "Invalid route") ∧
  Core.markDeliveryCompleted requester1 999 0 core_requested
    = Fail (Revert "Not your route").
Proof.
  destruct (core_unknown_route core_requested owner_msg 999 0) as (Hget & _ & Hproc & _).
  { exists owner_msg,
      [(requester1,
        Core.RequestRouteOptimization [100; 200; 300] [150; 250; 350] [1; 2; 3] 1000 10)].
    reflexivity. }
  { right. vm_compute. reflexivity. }
  destruct (core_unknown_route core_requested requester1 999 0) as (_ & _ & _ & Hmark).
  { exists owner_msg,
      [(requester1,
        Core.RequestRouteOptimization [100; 200; 300] [150; 250; 350] [1; 2; 3] 1000 10)].
    reflexivity. }
  { right. vm_compute. reflexivity. }
  refine (conj Hget (conj _ _)).
  - apply Hproc. reflexivity.
  - apply Hmark. vm_compute. discriminate.
Defined.

Lemma core_acl_step (s : Core.state) (tx : msg * Core.call) :
  Core.acl s ⊆ Core.acl (Core.step s tx).
Proof.
  destruct tx as [m c]. unfold Core.step. simpl.
  destruct (Core.exec m c s) as [s'|] eqn:Hexec; [|done].
  destruct c as [xs ys ps md vc|routeId|routeId i]; simpl in Hexec.
  - inv_ok Hexec. destruct a as [routeId s1]. inversion Hexec; subst s1.
    by apply core_request_inv in Hstep as (_ & _ & _ & _ & _ & _ & []).
  - apply core_process_inv in Hexec
      as (_ & _ & _ & _ & _ & _ & _ & _ & _ & _ & _ & -> & _).
    intros g Hg. in_acl.
  - by apply core_mark_inv in Hexec as (_ & _ & _ & _ & ->).
Qed.

(** X10.  Access grants of the core contract.  In every reachable state the
    constraint ciphertexts of every stored request, the three ciphertexts of
    every stored location of a stored request, and the two ciphertexts of
    every stored result are granted both to the contract and to the route's
    requester; and no transaction removes a grant. *)
Theorem core_stored_ciphertexts_granted (s : Core.state) :
  Core.reachable s →
  (∀ id r, Core.routeRequests s !! id = Some r →
     granted (Core.acl s) (FHE.H32 (Core.RouteRequest.maxTravelDistance r))
       (Core.RouteRequest.requester r) ∧
     granted (Core.acl s) (FHE.H8 (Core.RouteRequest.vehicleCapacity r))
       (Core.RouteRequest.requester r)) ∧
  (∀ id j r l,
     Core.routeRequests s !! id = Some r → Core.routeLocations s !! (id, j) = Some l →
     granted (Core.acl s) (FHE.H32 (Core.DeliveryLocation.encryptedX l))
       (Core.RouteRequest.requester r) ∧
     granted (Core.acl s) (FHE.H32 (Core.DeliveryLocation.encryptedY l))
       (Core.RouteRequest.requester r) ∧
     granted (Core.acl s) (FHE.H8 (Core.DeliveryLocation.priority l))
       (Core.RouteRequest.requester r)) ∧
  (∀ id o, Core.optimizedRoutes s !! id = Some o →
     granted (Core.acl s) (FHE.H32 (Core.OptimizedRoute.totalDistance o))
       (Core.OptimizedRoute.requester o) ∧
     granted (Core.acl s) (FHE.H8 (Core.OptimizedRoute.estimatedTime o))
       (Core.OptimizedRoute.requester o)) ∧
  (∀ tx, Core.acl s ⊆ Core.acl (Core.step s tx)).
Proof.
  intros Hreach. apply core_grants_reachable in Hreach as [Hr Hl Ho].
  refine (conj Hr (conj _ (conj Ho _))).
  - intros id j r l Hreq Hloc. apply (Hl id j r l Hreq Hloc).
  - intros tx. apply core_acl_step.
Qed.

Lemma core_stored_ciphertexts_granted_witness :
  granted (Core.acl core_processed)
    (FHE.H32 (Core.OptimizedRoute.totalDistance (Core.optimized_at core_processed 1)))
    (msg_sender requester1) ∧
  granted (Core.acl core_processed) (FHE.H32 (FHE.asEuint32 300)) (msg_sender requester1).
Proof.
  destruct (core_stored_ciphertexts_granted core_processed) as (_ & Hloc & Hres & _).
  { exists owner_msg,
      [(requester1,
        Core.RequestRouteOptimization [100; 200; 300] [150; 250; 350] [1; 2; 3] 1000 10);
       (owner_msg, Core.ProcessRouteOptimization 1)].
    vm_compute. reflexivity. }
  split.
  - apply (Hres 1 (Core.optimized_at core_processed 1)). vm_compute. reflexivity.
  - apply (Hloc 1 2 (Core.request_at core_processed 1) (Core.location_at core_processed 1 2));
      vm_compute; reflexivity.
Defined.

(** ** Pausable: deliveries *)



(** ** Pausable: what the contract can and cannot do *)

(** X12.  The pausable contract as a chain deploys it.  The constructor sets
    no coprocessor and no entry point sets one, so in every state reached
    from the constructor [requestRouteOptimization] fails for every caller
    and every input: with [ContractPaused] while paused, and otherwise in
    the first call into the FHE runtime.  The route counter stays 0, no
    request, user route or result is ever stored, and so
    [processRouteOptimization] fails with [NotAuthorized], [ContractPaused]
    or [InvalidRoute], [finalizeRoute] with [NotAuthorized],
    [ContractPaused] or [RouteNotProcessed], and [markDeliveryCompleted]
    always; the two views return empty answers. *)
Theorem pausable_inert_as_deployed (d : msg) (txs : list (msg * Pausable.call)) :
  Pausable.coprocessor (pausable_as_deployed d txs) = false ∧
  Pausable.routeCounter (pausable_as_deployed d txs) = 0 ∧
  Pausable.routeRequests (pausable_as_deployed d txs) = ∅ ∧
  Pausable.userRoutes (pausable_as_deployed d txs) = ∅ ∧
  Pausable.optimizedRoutes (pausable_as_deployed d txs) = ∅ ∧
  (∀ m x y p md vc,
     Pausable.requestRouteOptimization m x y p md vc (pausable_as_deployed d txs) =
       Fail (if Pausable.paused (pausable_as_deployed d txs)
             then Custom ContractPaused else Fhevm CoprocessorNotSet)) ∧
  (∀ m routeId,
     Pausable.processRouteOptimization m routeId (pausable_as_deployed d txs) =
       Fail (Custom
         (if negb (bool_decide (msg_sender m = Pausable.owner (pausable_as_deployed d txs)))
          then NotAuthorized
          else if Pausable.paused (pausable_as_deployed d txs) then ContractPaused
          else InvalidRoute))) ∧
  (∀ m routeId,
     Pausable.finalizeRoute m routeId (pausable_as_deployed d txs) =
       Fail (Custom
         (if negb (bool_decide (msg_sender m = Pausable.owner (pausable_as_deployed d txs)))
          then NotAuthorized
          else if Pausable.paused (pausable_as_deployed d txs) then ContractPaused
          else RouteNotProcessed))) ∧
  (∀ m routeId i,
     is_ok (Pausable.markDeliveryCompleted m routeId i (pausable_as_deployed d txs))
       = false) ∧
  (∀ user, Pausable.getUserRoutes user (pausable_as_deployed d txs) = []) ∧
  (∀ routeId,
     Pausable.getRouteRequest routeId (pausable_as_deployed d txs)
       = (address_zero, 0, false, 0)).
Proof.
  pose proof (pausable_deployed_run d txs) as (Hc & Hn & Hr & Hu).
  pose proof (pausable_shape_reachable _ (pausable_reachable_deployed d txs))
    as [_ Hres _ _ _].
  fold (pausable_as_deployed d txs) in Hc, Hn, Hr, Hu, Hres.
  assert (∀ id, Pausable.request_at (pausable_as_deployed d txs) id
                = Pausable.RouteRequest.mk 0 0 FHE.uninit32 FHE.uninit8 false 0 0 0)
    as Hat.
  { intros id. unfold Pausable.request_at. by rewrite Hr, lookup_empty. }
  refine (conj Hc (conj Hn (conj Hr (conj Hu (conj Hres
            (conj _ (conj _ (conj _ (conj _ (conj _ _)))))))))).
  - intros m x y p md vc. rewrite pausable_request_spec, Hn, Hc.
    by destruct (Pausable.paused _).
  - intros m routeId. rewrite pausable_process_spec, Hat. simpl.
    destruct (negb (bool_decide _)); [done|]. by destruct (Pausable.paused _).
  - intros m routeId. rewrite pausable_finalize_spec, Hat. simpl.
    destruct (negb (bool_decide _)); [done|]. by destruct (Pausable.paused _).
  - intros m routeId i. rewrite pausable_mark_spec, Hat. simpl.
    destruct (negb (bool_decide _)); [done|]. by destruct (Pausable.paused _).
  - intros user. unfold Pausable.getUserRoutes, Pausable.routes_of.
    by rewrite Hu, lookup_empty.
  - intros routeId. unfold Pausable.getRouteRequest. by rewrite Hat.
Qed.

Lemma pausable_inert_as_deployed_witness :
  Pausable.routeCounter
    (pausable_as_deployed owner_msg
       [(requester1, Pausable.RequestRouteOptimization 100 150 1 1000 10)]) = 0 ∧
  Pausable.requestRouteOptimization requester1 100 150 1 1000 10
    (pausable_as_deployed owner_msg [(owner_msg, Pausable.TogglePause)])
    = Fail (Custom ContractPaused) ∧
  Pausable.requestRouteOptimization requester1 100 150 1 1000 10 pausable_deployed
    = Fail (Fhevm CoprocessorNotSet).
Proof.
  refine (conj _ (conj _ _)).
  - exact (proj1 (proj2 (pausable_inert_as_deployed owner_msg
             [(requester1, Pausable.RequestRouteOptimization 100 150 1 1000 10)]))).
  - destruct (pausable_inert_as_deployed owner_msg [(owner_msg, Pausable.TogglePause)])
      as (_ & _ & _ & _ & _ & Hreq & _).
    refine (eq_trans (Hreq requester1 100 150 1 1000 10) _). vm_compute. reflexivity.
  - destruct (pausable_inert_as_deployed owner_msg []) as (_ & _ & _ & _ & _ & Hreq & _).
    refine (eq_trans (Hreq requester1 100 150 1 1000 10) _). vm_compute. reflexivity.
Defined.

(** X13.  The pausable contract never grants itself a ciphertext, so even
    where the coprocessor slots are in place it never processes a route.  In
    every reachable state [processRouteOptimization] and [finalizeRoute]
    fail for every caller and route; no request is marked processed, no
    result record exists, the access list is empty and no [RouteOptimized]
    or [RouteFinalized] event has been logged.  For the owner of an unpaused
    contract and an existing route the failure of
    [processRouteOptimization] is the access error of the FHE runtime, raised
    on the stored distance bound. *)
Theorem pausable_never_processes (s : Pausable.state) :
  Pausable.reachable s →
  (∀ m routeId, is_ok (Pausable.processRouteOptimization m routeId s) = false) ∧
  (∀ m routeId, is_ok (Pausable.finalizeRoute m routeId s) = false) ∧
  (∀ routeId, Pausable.RouteRequest.processed (Pausable.request_at s routeId) = false) ∧
  Pausable.optimizedRoutes s = ∅ ∧
  Pausable.acl s = [] ∧
  (∀ e, e ∈ Pausable.log s → is_result_event e = false) ∧
  (∀ m routeId,
     msg_sender m = Pausable.owner s → Pausable.paused s = false →
     Pausable.RouteRequest.requester (Pausable.request_at s routeId) ≠ address_zero →
     Pausable.coprocessor s = true →
     Pausable.processRouteOptimization m routeId s = Fail (Fhevm ACLNotAllowed)).
Proof.
  intros Hreach.
  pose proof (pausable_shape_reachable s Hreach) as [Hunp Hres _ _ Hlog].
  pose proof (pausable_reachable_inv s Hreach) as Hinv.
  pose proof (pi_acl s Hinv) as Hacl.
  refine (conj _ (conj _ (conj Hunp (conj Hres (conj Hacl (conj Hlog _)))))).
  - intros m routeId. by apply pausable_process_ungranted.
  - intros m routeId. rewrite pausable_finalize_spec, Hunp. simpl.
    destruct (negb (bool_decide _)); [done|]. by destruct (Pausable.paused s).
  - intros m routeId Ho Hp Hr Hc.
    rewrite pausable_process_spec, Hunp, Hp, Hc, Hacl.
    rewrite (bool_decide_true (msg_sender m = Pausable.owner s)) by done.
    rewrite (bool_decide_false (_ = address_zero)) by done. done.
Qed.

Lemma pausable_never_processes_witness :
  is_ok (Pausable.processRouteOptimization owner_msg 1 pausable_requested) = false ∧
  is_ok (Pausable.finalizeRoute owner_msg 1 pausable_requested) = false ∧
  Pausable.optimizedRoutes pausable_requested = ∅ ∧
  Pausable.processRouteOptimization owner_msg 1 pausable_requested
    = Fail (Fhevm ACLNotAllowed).
Proof.
  destruct (pausable_never_processes pausable_requested)
    as (Hproc & Hfin & _ & Hres & _ & _ & Hwhy).
  { exists owner_msg, true,
      [(requester1, Pausable.RequestRouteOptimization 100 150 1 1000 10)].
    vm_compute. reflexivity. }
  refine (conj (Hproc owner_msg 1) (conj (Hfin owner_msg 1) (conj Hres _))).
  apply Hwhy.
  - vm_compute. reflexivity.
  - vm_compute. reflexivity.
  - vm_compute. discriminate.
  - vm_compute. reflexivity.
Defined.

(** ** Pausable: roles and the pause flag *)

(** X14.  [togglePause] is rejected with [NotPauser] exactly for callers
    that are neither a pauser nor the owner; for the others it flips
    [paused] and logs the new value, whether or not the contract is paused;
    a second call by the same caller restores the state, the log apart,
    which holds the two events. *)
Theorem pausable_toggle_pause (m : msg) (s : Pausable.state) :
  (Pausable.is_pauser s (msg_sender m) = false → msg_sender m ≠ Pausable.owner s →
     Pausable.togglePause m s = Fail (Custom NotPauser)) ∧
  (Pausable.is_pauser s (msg_sender m) = true ∨ msg_sender m = Pausable.owner s →
     ∃ s1, Pausable.togglePause m s = Ok s1 ∧
       Pausable.paused s1 = negb (Pausable.paused s) ∧
       Pausable.log s1
         = Pausable.ContractPausedToggled (negb (Pausable.paused s)) :: Pausable.log s ∧
       Pausable.togglePause m s1 =
         Ok (Pausable.emit (Pausable.ContractPausedToggled (Pausable.paused s))
               (Pausable.emit (Pausable.ContractPausedToggled (negb (Pausable.paused s)))
                  s))).
Proof.
  rewrite pausable_togglePause_spec. split.
  - intros -> Hne. by rewrite bool_decide_false.
  - intros Hauth.
    assert (negb (Pausable.is_pauser s (msg_sender m)) &&
            negb (bool_decide (msg_sender m = Pausable.owner s)) = false) as Hb.
    { destruct Hauth as [->| ->]; [done|].
      rewrite bool_decide_true by done. by rewrite andb_false_r. }
    rewrite Hb. eexists; split; [done|]. split; [done|]. split; [done|].
    rewrite pausable_togglePause_spec.
    change (Pausable.is_pauser (Pausable.emit ?e (Pausable.set_paused ?b s)) ?a)
      with (Pausable.is_pauser s a).
    change (Pausable.owner (Pausable.emit ?e (Pausable.set_paused ?b s)))
      with (Pausable.owner s).
    rewrite Hb. f_equal. destruct s. simpl. by rewrite negb_involutive.
Qed.

Lemma pausable_toggle_pause_witness :
  Pausable.togglePause unauthorized pausable_requested = Fail (Custom NotPauser) ∧
  ∃ s1, Pausable.togglePause owner_msg pausable_paused = Ok s1 ∧
        Pausable.paused s1 = negb (Pausable.paused pausable_paused).
Proof.
  split.
  - apply (proj1 (pausable_toggle_pause unauthorized pausable_requested)).
    + vm_compute. reflexivity.
    + vm_compute. discriminate.
  - destruct (proj2 (pausable_toggle_pause owner_msg pausable_paused))
      as (s1 & Hok & Hp & _).
    + right. vm_compute. reflexivity.
    + exists s1. split; [exact Hok|exact Hp].
Defined.

(** X15.  Pauser management by the owner.  [addPauser] rejects the zero
    address with [InvalidAddress] and a current pauser with [AlreadyPauser];
    [removePauser] rejects a non-pauser with [NotPauser].  Adding a new
    pauser sets its flag and no other; adding it again fails; removing it
    afterwards brings every account's pauser status back to what it was. *)
Theorem pausable_pauser_round_trip (m : msg) (a : address) (s : Pausable.state) :
  msg_sender m = Pausable.owner s →
  (a = address_zero → Pausable.addPauser m a s = Fail (Custom InvalidAddress)) ∧
  (a ≠ address_zero → Pausable.is_pauser s a = true →
     Pausable.addPauser m a s = Fail (Custom AlreadyPauser)) ∧
  (Pausable.is_pauser s a = false →
     Pausable.removePauser m a s = Fail (Custom NotPauser)) ∧
  (a ≠ address_zero → Pausable.is_pauser s a = false →
     ∃ s1 s2,
       Pausable.addPauser m a s = Ok s1 ∧
       Pausable.is_pauser s1 a = true ∧
       (∀ b, b ≠ a → Pausable.is_pauser s1 b = Pausable.is_pauser s b) ∧
       Pausable.addPauser m a s1 = Fail (Custom AlreadyPauser) ∧
       Pausable.removePauser m a s1 = Ok s2 ∧
       (∀ b, Pausable.is_pauser s2 b = Pausable.is_pauser s b)).
Proof.
  intros Ho. rewrite pausable_addPauser_spec, pausable_removePauser_spec.
  rewrite (bool_decide_true (msg_sender m = Pausable.owner s)) by done. simpl.
  refine (conj _ (conj _ (conj _ _))).
  - intros ->. done.
  - intros Ha ->. by rewrite bool_decide_false.
  - by intros ->.
  - intros Ha Hp. rewrite bool_decide_false by done. rewrite Hp.
    eexists. eexists. split; [done|].
    assert (∀ v e b, Pausable.is_pauser (Pausable.emit e (Pausable.set_pauser a v s)) b
                     = if decide (b = a) then v else Pausable.is_pauser s b) as Hset.
    { intros v e b. unfold Pausable.is_pauser. simpl.
      destruct (decide (b = a)) as [->|Hne].
      - by rewrite lookup_insert_eq.
      - by rewrite lookup_insert_ne. }
    split; [|split; [|split; [|split]]].
    + rewrite Hset. by destruct (decide (a = a)).
    + intros b Hb. rewrite Hset. by destruct (decide (b = a)).
    + rewrite pausable_addPauser_spec.
      change (Pausable.owner (Pausable.emit ?e (Pausable.set_pauser a true s)))
        with (Pausable.owner s).
      rewrite (bool_decide_true (msg_sender m = Pausable.owner s)) by done. simpl.
      rewrite bool_decide_false by done. rewrite Hset.
      by destruct (decide (a = a)).
    + rewrite pausable_removePauser_spec.
      change (Pausable.owner (Pausable.emit ?e (Pausable.set_pauser a true s)))
        with (Pausable.owner s).
      rewrite (bool_decide_true (msg_sender m = Pausable.owner s)) by done. simpl.
      rewrite Hset. destruct (decide (a = a)); [|done]. simpl. done.
    + intros b. unfold Pausable.is_pauser in *. simpl.
      destruct (decide (b = a)) as [->|Hne].
      * by rewrite lookup_insert_eq.
      * by rewrite !lookup_insert_ne.
Qed.

Lemma pausable_pauser_round_trip_witness :
  Pausable.addPauser owner_msg 0 pausable_requested = Fail (Custom InvalidAddress) ∧
  Pausable.addPauser owner_msg 1 pausable_requested = Fail (Custom AlreadyPauser) ∧
  Pausable.removePauser owner_msg 3 pausable_requested = Fail (Custom NotPauser) ∧
  ∃ s1, Pausable.addPauser owner_msg 3 pausable_requested = Ok s1 ∧
        Pausable.is_pauser s1 3 = true.
Proof.
  destruct (pausable_pauser_round_trip owner_msg 0 pausable_requested eq_refl)
    as (Hzero & _).
  destruct (pausable_pauser_round_trip owner_msg 1 pausable_requested eq_refl)
    as (_ & Halready & _).
  destruct (pausable_pauser_round_trip owner_msg 3 pausable_requested eq_refl)
    as (_ & _ & Hnot & Hadd).
  refine (conj _ (conj _ (conj _ _))).
  - apply Hzero. reflexivity.
  - apply Halready; [vm_compute; discriminate|vm_compute; reflexivity].
  - apply Hnot. vm_compute. reflexivity.
  - destruct Hadd as (s1 & s2 & Hok & Hp & _);
      [vm_compute; discriminate|vm_compute; reflexivity|].
    exists s1. split; [exact Hok|exact Hp].
Defined.

(** X16.  An account that is not the owner cannot use the owner-only entry
    points: [addPauser], [removePauser], [transferOwnership],
    [processRouteOptimization] and [finalizeRoute] fail with
    [NotAuthorized]; and no transaction it sends, of any kind, changes the
    owner or the pauser set. *)
Theorem pausable_admin_requires_owner (m : msg) (s : Pausable.state) :
  msg_sender m ≠ Pausable.owner s →
  (∀ a, Pausable.addPauser m a s = Fail (Custom NotAuthorized)) ∧
  (∀ a, Pausable.removePauser m a s = Fail (Custom NotAuthorized)) ∧
  (∀ a, Pausable.transferOwnership m a s = Fail (Custom NotAuthorized)) ∧
  (∀ routeId, Pausable.processRouteOptimization m routeId s
              = Fail (Custom NotAuthorized)) ∧
  (∀ routeId, Pausable.finalizeRoute m routeId s = Fail (Custom NotAuthorized)) ∧
  (∀ c, Pausable.owner (Pausable.step s (m, c)) = Pausable.owner s ∧
        Pausable.pausers (Pausable.step s (m, c)) = Pausable.pausers s).
Proof.
  intros Hne.
  assert (∀ a, Pausable.addPauser m a s = Fail (Custom NotAuthorized)) as Hadd.
  { intros a. rewrite pausable_addPauser_spec. by rewrite bool_decide_false. }
  assert (∀ a, Pausable.removePauser m a s = Fail (Custom NotAuthorized)) as Hrem.
  { intros a. rewrite pausable_removePauser_spec. by rewrite bool_decide_false. }
  assert (∀ a, Pausable.transferOwnership m a s = Fail (Custom NotAuthorized)) as Htr.
  { intros a. rewrite pausable_transferOwnership_spec. by rewrite bool_decide_false. }
  assert (∀ routeId, Pausable.processRouteOptimization m routeId s
                     = Fail (Custom NotAuthorized)) as Hproc.
  { intros routeId. by apply (pausable_process_fail m routeId s). }
  assert (∀ routeId, Pausable.finalizeRoute m routeId s = Fail (Custom NotAuthorized))
    as Hfin.
  { intros routeId. rewrite pausable_finalize_spec. by rewrite bool_decide_false. }
  refine (conj Hadd (conj Hrem (conj Htr (conj Hproc (conj Hfin _))))).
  intros c. unfold Pausable.step. simpl.
  destruct c as [x y p md vc|routeId|routeId|routeId i|b|b| |b]; simpl.
  - rewrite pausable_request_spec.
    destruct (Pausable.paused s); [done|].
    destruct (_ <=? uint32_max); [|done].
    by destruct (Pausable.coprocessor s).
  - by rewrite Hproc.
  - by rewrite Hfin.
  - rewrite pausable_mark_spec.
    destruct (negb (bool_decide _)); [done|].
    destruct (Pausable.paused s); [done|].
    destruct (negb (Pausable.RouteRequest.processed _)); [done|].
    destruct (_ <=? i); [done|].
    by destruct (negb (Pausable.DeliveryLocation.isActive _)).
  - by rewrite Hadd.
  - by rewrite Hrem.
  - rewrite pausable_togglePause_spec. by destruct (_ && _).
  - by rewrite Htr.
Qed.

Lemma pausable_admin_requires_owner_witness :
  Pausable.addPauser requester1 3 pausable_requested = Fail (Custom NotAuthorized) ∧
  Pausable.transferOwnership requester1 2 pausable_requested
    = Fail (Custom NotAuthorized) ∧
  Pausable.owner (Pausable.step pausable_requested (requester1, Pausable.TogglePause))
    = Pausable.owner pausable_requested.
Proof.
  destruct (pausable_admin_requires_owner requester1 pausable_requested)
    as (Hadd & _ & Htr & _ & _ & Hstep).
  { vm_compute. discriminate. }
  refine (conj (Hadd 3) (conj (Htr 2) _)).
  apply (Hstep Pausable.TogglePause).
Defined.

Lemma pausable_owner_step (s : Pausable.state) (tx : msg * Pausable.call) :
  Pausable.owner s ≠ address_zero → Pausable.owner (Pausable.step s tx) ≠ address_zero.
Proof.
  intros Ho. destruct tx as [m c]. unfold Pausable.step. simpl.
  destruct (Pausable.exec m c s) as [s'|] eqn:Hexec; [|done].
  destruct c as [x y p md vc|routeId|routeId|routeId i|b|b| |b]; simpl in Hexec.
  - inv_ok Hexec. rewrite pausable_request_spec in Hstep. cascade Hstep.
    inversion Hstep; subst a. by inversion Hexec; subst s'.
  - by apply pausable_process_inv in Hexec as (_ & _ & _ & _ & _ & ->).
  - rewrite pausable_finalize_spec in Hexec. cascade Hexec. by inversion Hexec; subst s'.
  - rewrite pausable_mark_spec in Hexec. cascade Hexec. by inversion Hexec; subst s'.
  - rewrite pausable_addPauser_spec in Hexec. cascade Hexec. by inversion Hexec; subst s'.
  - rewrite pausable_removePauser_spec in Hexec. cascade Hexec. by inversion Hexec; subst s'.
  - rewrite pausable_togglePause_spec in Hexec. cascade Hexec. by inversion Hexec; subst s'.
  - rewrite pausable_transferOwnership_spec in Hexec. cascade Hexec.
    inversion Hexec; subst s'. simpl. by apply bool_decide_eq_false in Heqb1.
Qed.

(** X17.  The owner role is never lost: [transferOwnership] rejects the zero
    address with [InvalidAddress], so after any sequence of transactions the
    owner of a contract deployed by a non-zero account is a non-zero account,
    and that account can always toggle the pause flag, pauser or not. *)
Theorem pausable_owner_never_zero (d : msg) (txs : list (msg * Pausable.call)) :
  msg_sender d ≠ address_zero →
  Pausable.owner (Pausable.run (Pausable.constructor d) txs) ≠ address_zero ∧
  (∀ m, msg_sender m = Pausable.owner (Pausable.run (Pausable.constructor d) txs) →
     Pausable.transferOwnership m address_zero (Pausable.run (Pausable.constructor d) txs)
       = Fail (Custom InvalidAddress) ∧
     is_ok (Pausable.togglePause m (Pausable.run (Pausable.constructor d) txs)) = true).
Proof.
  intros Hd. split.
  - assert (∀ txs s, Pausable.owner s ≠ address_zero →
              Pausable.owner (Pausable.run s txs) ≠ address_zero) as Hrun.
    { clear. induction txs as [|tx txs IH]; intros s Hs; [done|].
      simpl. apply IH. by apply pausable_owner_step. }
    by apply Hrun.
  - intros m Hm. rewrite pausable_transferOwnership_spec, pausable_togglePause_spec.
    rewrite !(bool_decide_true (msg_sender m = _)) by done. simpl.
    by rewrite andb_false_r.
Qed.

Lemma pausable_owner_never_zero_witness :
  Pausable.owner
    (Pausable.run (Pausable.constructor owner_msg)
       [(requester1, Pausable.RequestRouteOptimization 100 150 1 1000 10);
        (owner_msg, Pausable.TransferOwnership 2);
        (requester1, Pausable.RemovePauser 1)]) ≠ address_zero ∧
  Pausable.transferOwnership requester1 address_zero
    (Pausable.run (Pausable.constructor owner_msg)
       [(requester1, Pausable.RequestRouteOptimization 100 150 1 1000 10);
        (owner_msg, Pausable.TransferOwnership 2);
        (requester1, Pausable.RemovePauser 1)])
    = Fail (Custom InvalidAddress).
Proof.
  destruct (pausable_owner_never_zero owner_msg
              [(requester1, Pausable.RequestRouteOptimization 100 150 1 1000 10);
               (owner_msg, Pausable.TransferOwnership 2);
               (requester1, Pausable.RemovePauser 1)]) as (Hnz & Hrej).
  { vm_compute. discriminate. }
  split; [exact Hnz|]. apply (Hrej requester1). vm_compute. reflexivity.
Defined.

(** ** Core: the event log mirrors the storage *)

(** Reading one more event off the log. *)
Ltac norm_log :=
  repeat first
    [ progress change (omap core_requested_id (Core.RouteRequested ?a ?b ?c :: ?l))
        with (a :: omap core_requested_id l)
    | progress change (omap core_requested_id (Core.RouteOptimized ?a ?b ?c :: ?l))
        with (omap core_requested_id l)
    | progress change (omap core_requested_id (Core.DeliveryCompleted ?a ?b :: ?l))
        with (omap core_requested_id l)
    | progress change (omap core_optimized_id (Core.RouteRequested ?a ?b ?c :: ?l))
        with (omap core_optimized_id l)
    | progress change (omap core_optimized_id (Core.RouteOptimized ?a ?b ?c :: ?l))
        with (a :: omap core_optimized_id l)
    | progress change (omap core_optimized_id (Core.DeliveryCompleted ?a ?b :: ?l))
        with (omap core_optimized_id l)
    | progress change (omap core_delivered_key (Core.RouteRequested ?a ?b ?c :: ?l))
        with (omap core_delivered_key l)
    | progress change (omap core_delivered_key (Core.RouteOptimized ?a ?b ?c :: ?l))
        with (omap core_delivered_key l)
    | progress change (omap core_delivered_key (Core.DeliveryCompleted ?a ?b :: ?l))
        with ((a, b) :: omap core_delivered_key l) ].

Lemma core_log_inv_step (s : Core.state) (tx : msg * Core.call) :
  core_inv s → core_log_inv s → core_log_inv (Core.step s tx).
Proof.
  intros Hinv [Hreq Hopt Hopt1 Hdel Hdel1]. destruct tx as [m c].
  unfold Core.step. simpl.
  destruct (Core.exec m c s) as [s'|] eqn:Hexec; [|done].
  destruct c as [xs ys ps md vc|routeId|routeId i]; simpl in Hexec.
  - inv_ok Hexec. destruct a as [routeId s1]. inversion Hexec; subst s1; clear Hexec.
    apply core_request_inv in Hstep as (_ & _ & _ & _ & _ & -> & []).
    destruct (ci_counter s Hinv) as [Hc0 _].
    set (new := Core.routeCounter s + 1) in *.
    assert (Core.routeRequests s !! new = None) as Hfresh.
    { destruct (Core.routeRequests s !! new) as [r|] eqn:Hr; [|done].
      destruct (ci_requests s Hinv _ _ Hr) as [[? ?] _]. subst new. lia. }
    assert (∀ id, id ≠ new → Core.request_at s' id = Core.request_at s id) as Hsame.
    { intros id Hne. unfold Core.request_at. by rewrite crp_requests0, lookup_insert_ne. }
    assert (Core.RouteRequest.processed (Core.request_at s' new) = false) as Hnew.
    { unfold Core.request_at. by rewrite crp_requests0, lookup_insert_eq. }
    split; rewrite ?crp_log0; norm_log; try done.
    + subst new. rewrite reverse_cons, Hreq, crp_counter0.
      replace (Z.to_nat (Core.routeCounter s + 1))
        with (S (Z.to_nat (Core.routeCounter s))) by lia.
      rewrite ids_after_snoc. do 2 f_equal. lia.
    + intros id. rewrite Hopt. destruct (decide (id = new)) as [->|Hne].
      * rewrite Hnew. unfold Core.request_at. rewrite Hfresh. done.
      * by rewrite Hsame.
    + intros id i Hin. destruct (Hdel id i Hin) as [Hact Hid].
      rewrite crp_counter0. split; [|lia].
      unfold Core.location_at in *. rewrite crp_locations0.
      rewrite bool_decide_false; [done|]. subst new. lia.
  - apply core_process_inv in Hexec
      as (_ & Hp & _ & _ & _ & _ & Hcnt & Hreqs & Hlocs & _ & _ & _ & Hlog).
    assert (∀ id, id ≠ routeId → Core.request_at s' id = Core.request_at s id) as Hsame.
    { intros id Hne. unfold Core.request_at. by rewrite Hreqs, lookup_insert_ne. }
    assert (Core.RouteRequest.processed (Core.request_at s' routeId) = true) as Hnew.
    { unfold Core.request_at. by rewrite Hreqs, lookup_insert_eq. }
    split; rewrite ?Hlog; norm_log; try done.
    + by rewrite Hcnt.
    + intros id. rewrite elem_of_cons, Hopt.
      destruct (decide (id = routeId)) as [->|Hne].
      * rewrite Hnew. tauto.
      * rewrite Hsame by done. tauto.
    + apply NoDup_cons. split; [|done]. rewrite Hopt. congruence.
    + intros id i Hin. unfold Core.location_at. rewrite Hlocs, Hcnt.
      by apply Hdel.
  - apply core_mark_inv in Hexec as (_ & Hp & _ & Hact & ->).
    apply core_request_at_processed in Hp as Hsome.
    destruct (ci_requests s Hinv _ _ Hsome) as [[_ Hid] _].
    split; unfold Core.emit; cbn [Core.log Core.routeCounter]; norm_log; try done.
    + intros id j. rewrite elem_of_cons. unfold Core.location_at. simpl.
      destruct (decide ((id, j) = (routeId, i))) as [[= -> ->]|Hne].
      * intros _. by rewrite lookup_insert_eq.
      * rewrite lookup_insert_ne by done. intros [?|Hin]; [done|]. by apply Hdel.
    + apply NoDup_cons. split; [|done]. intros Hin.
      destruct (Hdel _ _ Hin) as [Hfalse _]. congruence.
Qed.

Lemma core_log_inv_reachable (s : Core.state) : Core.reachable s → core_log_inv s.
Proof.
  intros (d & txs & ->).
  assert (∀ txs s, core_inv s → core_log_inv s → core_log_inv (Core.run s txs)) as Hrun.
  { clear. induction txs as [|tx txs IH]; intros s Hi Hg; [done|].
    simpl. apply IH; [by apply core_inv_step|by apply core_log_inv_step]. }
  apply Hrun; [apply core_inv_constructor|].
  split; simpl; try done.
  - intros id. unfold Core.request_at. simpl. rewrite lookup_empty. simpl.
    split; [by intros ?%not_elem_of_nil|done].
  - apply NoDup_nil_2.
  - intros id i Hin. by apply not_elem_of_nil in Hin.
  - apply NoDup_nil_2.
Qed.

(** X18.  The event log of the core contract is a faithful audit trail in
    every reachable state: the [RouteRequested] events, oldest first, carry
    the ids 1, 2, ..., [routeCounter]; a route has a [RouteOptimized] event
    exactly when it is processed, and never two; a location has at most one
    [DeliveryCompleted] event and is inactive once it has one. *)
Theorem core_log_mirrors_state (s : Core.state) :
  Core.reachable s →
  reverse (omap core_requested_id (Core.log s))
    = ids_after 0 (Z.to_nat (Core.routeCounter s)) ∧
  (∀ id, id ∈ omap core_optimized_id (Core.log s) ↔
         Core.RouteRequest.processed (Core.request_at s id) = true) ∧
  NoDup (omap core_optimized_id (Core.log s)) ∧
  (∀ id i, (id, i) ∈ omap core_delivered_key (Core.log s) →
     Core.DeliveryLocation.isActive (Core.location_at s id i) = false) ∧
  NoDup (omap core_delivered_key (Core.log s)).
Proof.
  intros Hreach. apply core_log_inv_reachable in Hreach as [H1 H2 H3 H4 H5].
  refine (conj H1 (conj H2 (conj H3 (conj _ H5)))).
  intros id i Hin. by destruct (H4 id i Hin).
Qed.

Lemma core_log_mirrors_state_witness :
  reverse (omap core_requested_id (Core.log core_delivered))
    = ids_after 0 (Z.to_nat (Core.routeCounter core_delivered)) ∧
  NoDup (omap core_delivered_key (Core.log core_delivered)).
Proof.
  destruct (core_log_mirrors_state core_delivered) as (Hreq & _ & _ & _ & Hdel).
  { exists owner_msg,
      [(requester1,
        Core.RequestRouteOptimization [100; 200; 300] [150; 250; 350] [1; 2; 3] 1000 10);
       (owner_msg, Core.ProcessRouteOptimization 1);
       (requester1, Core.MarkDeliveryCompleted 1 0)].
    vm_compute. reflexivity. }
  split; [exact Hreq|exact Hdel].
Defined.

(** ** Core: the internal helpers *)

(** X19.  The plaintext behind [totalDistance]: since each pair contributes
    [(x_{i+1} - x_i) + (y_{i+1} - y_i)] modulo 2^32, the sum over the route
    telescopes to [(x_last - x_first) + (y_last - y_first)] modulo 2^32; the
    intermediate locations cancel out. *)
Theorem core_total_distance_telescopes (m : msg) (routeId : Z) (s s' : Core.state) :
  Core.processRouteOptimization m routeId s = Ok s' →
  FHE.decrypt32 (Core.OptimizedRoute.totalDistance (Core.optimized_at s' routeId)) =
    ((core_plain_x s routeId (Core.RouteRequest.locationCount (Core.request_at s routeId) - 1)
      - core_plain_x s routeId 0) +
     (core_plain_y s routeId (Core.RouteRequest.locationCount (Core.request_at s routeId) - 1)
      - core_plain_y s routeId 0)) mod 2 ^ 32.
Proof. intros H. exact (core_total_distance_plain m routeId s s' H). Qed.

Lemma core_total_distance_telescopes_witness :
  FHE.decrypt32 (Core.OptimizedRoute.totalDistance (Core.optimized_at core_processed 1)) =
    ((core_plain_x core_requested 1
        (Core.RouteRequest.locationCount (Core.request_at core_requested 1) - 1)
      - core_plain_x core_requested 1 0) +
     (core_plain_y core_requested 1
        (Core.RouteRequest.locationCount (Core.request_at core_requested 1) - 1)
      - core_plain_y core_requested 1 0)) mod 2 ^ 32.
Proof.
  apply (core_total_distance_telescopes owner_msg 1 core_requested core_processed).
  vm_compute. reflexivity.
Defined.

(** X20.  On a route whose plaintext coordinates never decrease from one
    location to the next, the stored [totalDistance] decrypts to the
    Manhattan distance summed over the consecutive pairs, modulo 2^32. *)
Theorem core_total_distance_on_monotone_route (m : msg) (routeId : Z)
    (s s' : Core.state) :
  Core.processRouteOptimization m routeId s = Ok s' →
  (∀ i, (S i < Z.to_nat (Core.RouteRequest.locationCount (Core.request_at s routeId)))%nat →
     core_plain_x s routeId (Z.of_nat i) ≤ core_plain_x s routeId (Z.of_nat (S i)) ∧
     core_plain_y s routeId (Z.of_nat i) ≤ core_plain_y s routeId (Z.of_nat (S i))) →
  FHE.decrypt32 (Core.OptimizedRoute.totalDistance (Core.optimized_at s' routeId)) =
    manhattan_total
      (core_points s routeId 0
         (Z.to_nat (Core.RouteRequest.locationCount (Core.request_at s routeId))))
      mod 2 ^ 32.
Proof. intros H Hmono. exact (core_total_distance_monotone m routeId s s' H Hmono). Qed.

Lemma core_total_distance_on_monotone_route_witness :
  FHE.decrypt32 (Core.OptimizedRoute.totalDistance (Core.optimized_at core_processed 1)) =
    manhattan_total
      (core_points core_requested 1 0
         (Z.to_nat (Core.RouteRequest.locationCount (Core.request_at core_requested 1))))
      mod 2 ^ 32.
Proof.
  apply (core_total_distance_on_monotone_route owner_msg 1 core_requested core_processed).
  - vm_compute. reflexivity.
  - intros i Hi.
    assert (i = 0 ∨ i = 1)%nat as [-> | ->].
    { change (Z.to_nat (Core.RouteRequest.locationCount (Core.request_at core_requested 1)))
        with 3%nat in Hi. lia. }
    + vm_compute. split; discriminate.
    + vm_compute. split; discriminate.
Defined.

(** X21.  [_generateRouteOrder(n)] returns [[0; 1; ...; n-1]] for every
    [n <= 255] (the empty array for [n = 0]) and panics with an arithmetic
    overflow for every [n >= 256], because its loop counter is a [uint8].
    [_calculateOptimalRoute] panics when [locationCount] is 0, because
    [locationCount - 1] underflows; on a route of a reachable state it
    returns the accumulated handle for 1 to 38 locations and fails with the
    depth-limit error of the FHE runtime from 39 locations on, where the
    chain of additions behind the running total gets too deep. *)
Theorem core_helpers_outcome (n : Z) (s : Core.state) (routeId : Z) :
  (n ≤ 255 → Core._generateRouteOrder n = Ok (identity_order n)) ∧
  (255 < n → Core._generateRouteOrder n = Fail (Panic 17)) ∧
  (Core.RouteRequest.locationCount (Core.request_at s routeId) < 1 →
     ∀ t, Core._calculateOptimalRoute s routeId t = Fail (Panic 17)) ∧
  (Core.reachable s →
   1 ≤ Core.RouteRequest.locationCount (Core.request_at s routeId) ≤ 38 →
     ∃ t, Core._calculateOptimalRoute s routeId Fhevm.tx_begin =
       Ok (core_accumulated s routeId
             (Z.to_nat (Core.RouteRequest.locationCount (Core.request_at s routeId) - 1)),
           t)) ∧
  (Core.reachable s →
   39 ≤ Core.RouteRequest.locationCount (Core.request_at s routeId) →
     Core._calculateOptimalRoute s routeId Fhevm.tx_begin
       = Fail (Fhevm HCUTransactionDepthLimitExceeded)).
Proof.
  refine (conj _ (conj _ (conj _ (conj _ _)))).
  - apply fill_order_ok.
  - apply fill_order_overflow.
  - intros Hn t. by apply core_calculateOptimalRoute_underflow.
  - intros Hreach [? ?].
    apply core_calculateOptimalRoute_ok; [by apply core_reachable_ready|done|done].
  - intros Hreach ?.
    apply core_calculateOptimalRoute_too_deep; [by apply core_reachable_ready|done].
Qed.

Lemma core_helpers_outcome_witness :
  Core._generateRouteOrder 3 = Ok (identity_order 3) ∧
  Core._generateRouteOrder 256 = Fail (Panic 17) ∧
  Core._calculateOptimalRoute core_fresh 1 Fhevm.tx_begin = Fail (Panic 17) ∧
  (∃ t, Core._calculateOptimalRoute core_requested 1 Fhevm.tx_begin =
     Ok (core_accumulated core_requested 1
           (Z.to_nat (Core.RouteRequest.locationCount (Core.request_at core_requested 1) - 1)),
         t)) ∧
  Core._calculateOptimalRoute (core_long_requested 39) 1 Fhevm.tx_begin
    = Fail (Fhevm HCUTransactionDepthLimitExceeded).
Proof.
  destruct (core_helpers_outcome 3 core_fresh 1) as (Hsmall & _ & Hunder & _).
  destruct (core_helpers_outcome 256 core_requested 1) as (_ & Hbig & _ & Hok & _).
  destruct (core_helpers_outcome 0 (core_long_requested 39) 1) as (_ & _ & _ & _ & Hdeep).
  refine (conj _ (conj _ (conj _ (conj _ _)))).
  - apply Hsmall. vm_compute. discriminate.
  - apply Hbig. reflexivity.
  - apply Hunder. reflexivity.
  - apply Hok.
    + exists owner_msg,
        [(requester1,
          Core.RequestRouteOptimization [100; 200; 300] [150; 250; 350] [1; 2; 3] 1000 10)].
      reflexivity.
    + vm_compute. split; discriminate.
  - apply Hdeep.
    + exists owner_msg,
        [(requester1,
          Core.RequestRouteOptimization (Z.of_nat <$> seq 0 39) (replicate 39 7)
            (replicate 39 1) 1000 10)].
      reflexivity.
    + vm_compute. discriminate.
Defined.

(** ** Both contracts: the plaintext views do not depend on the confidential inputs *)

Lemma core_exec_ok_low_eq (s1 s2 : Core.state) (t1 t2 : msg * Core.call) :
  Core.reachable s1 → Core.reachable s2 →
  core_low_eq s1 s2 → core_same_public_tx t1 t2 →
  is_ok (Core.exec t1.1 t1.2 s1) = is_ok (Core.exec t2.1 t2.2 s2).
Proof.
  intros Hreach1 Hreach2 Hle [Hm Hc]. destruct t1 as [m c1], t2 as [m2 c2]. simpl in *. subst m2.
  destruct c1 as [xs1 ys1 ps1 md1 vc1|id1|id1 i1],
           c2 as [xs2 ys2 ps2 md2 vc2|id2|id2 i2]; simpl in Hc; try done.
  - destruct Hc as (Hx & Hy & Hp). simpl.
    pose proof (core_request_low_eq m xs1 ys1 ps1 xs2 ys2 ps2 md1 vc1 md2 vc2
                  s1 s2 Hle Hx Hy Hp) as H.
    destruct (Core.requestRouteOptimization m xs1 ys1 ps1 md1 vc1 s1) as [[? ?]|];
    destruct (Core.requestRouteOptimization m xs2 ys2 ps2 md2 vc2 s2) as [[? ?]|];
      simpl; done.
  - subst id2. simpl. pose proof (core_process_low_eq m id1 s1 s2 Hreach1 Hreach2 Hle) as H.
    destruct (Core.processRouteOptimization m id1 s1);
    destruct (Core.processRouteOptimization m id1 s2); done.
  - destruct Hc as [-> ->]. simpl.
    pose proof (core_mark_low_eq m id2 i2 s1 s2 Hle) as H.
    destruct (Core.markDeliveryCompleted m id2 i2 s1);
    destruct (Core.markDeliveryCompleted m id2 i2 s2); done.
Qed.

Lemma pausable_exec_ok_low_eq (s1 s2 : Pausable.state) (t1 t2 : msg * Pausable.call) :
  pausable_low_eq s1 s2 → pausable_same_public_tx t1 t2 →
  is_ok (Pausable.exec t1.1 t1.2 s1) = is_ok (Pausable.exec t2.1 t2.2 s2).
Proof.
  intros Hle [Hm Hc]. destruct t1 as [m c1], t2 as [m2 c2]. simpl in *. subst m2.
  destruct c1 as [x1 y1 p1 md1 vc1|id1|id1|id1 i1|a1|a1| |a1].
  1: { destruct c2 as [x2 y2 p2 md2 vc2|?|?|? ?|?|?| |?]; try done. simpl.
       pose proof (pausable_request_low_eq m x1 y1 p1 md1 vc1 x2 y2 p2 md2 vc2
                     s1 s2 Hle) as H.
       destruct (Pausable.requestRouteOptimization m x1 y1 p1 md1 vc1 s1) as [[? ?]|];
       destruct (Pausable.requestRouteOptimization m x2 y2 p2 md2 vc2 s2) as [[? ?]|];
         simpl; done. }
  1: { simpl in Hc. subst c2. simpl.
       pose proof (pausable_process_low_eq m id1 s1 s2 Hle) as H.
       destruct (Pausable.processRouteOptimization m id1 s1);
       destruct (Pausable.processRouteOptimization m id1 s2); done. }
  all: simpl in Hc; subst c2;
    match goal with
    | Hl : pausable_low_eq ?a ?b |- context [Pausable.exec ?mm ?c ?a] =>
        pose proof (pausable_exec_low_eq mm c a b Hl I) as H;
        destruct (Pausable.exec mm c a); destruct (Pausable.exec mm c b); done
    end.
Qed.


(** X22.  Take two executions from the same deployment whose transactions
    come from the same callers at the same times and differ at most in the
    confidential plaintexts (array lengths are public).  They answer the
    plaintext views alike: [getRouteRequest] for every id, [getUserRoutes]
    for every user, the counter, the delivery status of every location and,
    in the pausable contract, the pause flag, the owner and the pauser set;
    and a further transaction succeeds in one exactly when its counterpart
    succeeds in the other.  The generated getters of the public mappings are
    not among these views: they return ciphertext handles, and the handles
    of two such executions do differ, as the stored distance bound and the
    first coordinate of the two one-request runs show. *)
Theorem plaintext_views_independent_of_confidential_inputs :
  (∀ d txs1 txs2 t1 t2,
     Forall2 core_same_public_tx txs1 txs2 → core_same_public_tx t1 t2 →
     (∀ id, Core.getRouteRequest id (Core.run (Core.constructor d) txs1) =
            Core.getRouteRequest id (Core.run (Core.constructor d) txs2)) ∧
     (∀ user, Core.getUserRoutes user (Core.run (Core.constructor d) txs1) =
              Core.getUserRoutes user (Core.run (Core.constructor d) txs2)) ∧
     Core.routeCounter (Core.run (Core.constructor d) txs1) =
       Core.routeCounter (Core.run (Core.constructor d) txs2) ∧
     (∀ id i,
        Core.DeliveryLocation.isActive
          (Core.location_at (Core.run (Core.constructor d) txs1) id i) =
        Core.DeliveryLocation.isActive
          (Core.location_at (Core.run (Core.constructor d) txs2) id i)) ∧
     is_ok (Core.exec t1.1 t1.2 (Core.run (Core.constructor d) txs1)) =
       is_ok (Core.exec t2.1 t2.2 (Core.run (Core.constructor d) txs2))) ∧
  (∀ cfg d txs1 txs2 t1 t2,
     Forall2 pausable_same_public_tx txs1 txs2 → pausable_same_public_tx t1 t2 →
     (∀ id, Pausable.getRouteRequest id (Pausable.run (Pausable.deploy cfg d) txs1) =
            Pausable.getRouteRequest id (Pausable.run (Pausable.deploy cfg d) txs2)) ∧
     (∀ user, Pausable.getUserRoutes user (Pausable.run (Pausable.deploy cfg d) txs1) =
              Pausable.getUserRoutes user (Pausable.run (Pausable.deploy cfg d) txs2)) ∧
     Pausable.routeCounter (Pausable.run (Pausable.deploy cfg d) txs1) =
       Pausable.routeCounter (Pausable.run (Pausable.deploy cfg d) txs2) ∧
     Pausable.paused (Pausable.run (Pausable.deploy cfg d) txs1) =
       Pausable.paused (Pausable.run (Pausable.deploy cfg d) txs2) ∧
     Pausable.owner (Pausable.run (Pausable.deploy cfg d) txs1) =
       Pausable.owner (Pausable.run (Pausable.deploy cfg d) txs2) ∧
     Pausable.pausers (Pausable.run (Pausable.deploy cfg d) txs1) =
       Pausable.pausers (Pausable.run (Pausable.deploy cfg d) txs2) ∧
     is_ok (Pausable.exec t1.1 t1.2 (Pausable.run (Pausable.deploy cfg d) txs1)) =
       is_ok (Pausable.exec t2.1 t2.2 (Pausable.run (Pausable.deploy cfg d) txs2))) ∧
  (core_same_public_tx
     (requester1,
      Core.RequestRouteOptimization [100; 200; 300] [150; 250; 350] [1; 2; 3] 1000 10)
     (requester1, Core.RequestRouteOptimization [7; 8; 9] [1; 1; 1] [3; 3; 3] 5 1) ∧
   Core.RouteRequest.maxTravelDistance (Core.request_at core_requested 1)
     = FHE.asEuint32 1000 ∧
   Core.RouteRequest.maxTravelDistance
     (Core.request_at
        (Core.run core_fresh
           [(requester1, Core.RequestRouteOptimization [7; 8; 9] [1; 1; 1] [3; 3; 3] 5 1)])
        1)
     = FHE.asEuint32 5 ∧
   Core.DeliveryLocation.encryptedX (Core.location_at core_requested 1 0)
     = FHE.asEuint32 100 ∧
   Core.DeliveryLocation.encryptedX
     (Core.location_at
        (Core.run core_fresh
           [(requester1, Core.RequestRouteOptimization [7; 8; 9] [1; 1; 1] [3; 3; 3] 5 1)])
        1 0)
     = FHE.asEuint32 7).
Proof.
  refine (conj _ (conj _ _)).
  - intros d txs1 txs2 t1 t2 Htxs Ht.
    pose proof (core_reachable_constructor d) as Hreach0.
    pose proof (core_reachable_run _ txs1 Hreach0) as Hreach1.
    pose proof (core_reachable_run _ txs2 Hreach0) as Hreach2.
    pose proof (core_run_low_eq txs1 txs2 Htxs _ _ Hreach0 Hreach0
                  (core_low_eq_refl (Core.constructor d))) as Hle.
    pose proof (core_exec_ok_low_eq _ _ t1 t2 Hreach1 Hreach2 Hle Ht) as Hok.
    destruct Hle as [Hown Hcnt Hlog Husers Hreqs Hlocs].
    refine (conj _ (conj _ (conj Hcnt (conj Hlocs Hok)))).
    + intros id. unfold Core.getRouteRequest.
      destruct (core_public_request_eq _ _ (Hreqs id)) as (-> & -> & -> & _ & ->). done.
    + intros user. unfold Core.getUserRoutes, Core.routes_of. by rewrite Husers.
  - intros cfg d txs1 txs2 t1 t2 Htxs Ht.
    pose proof (pausable_run_low_eq txs1 txs2 Htxs _ _
                  (pausable_low_eq_refl (Pausable.deploy cfg d) eq_refl)) as Hle.
    pose proof (pausable_exec_ok_low_eq _ _ t1 t2 Hle Ht) as Hok.
    destruct Hle as [Hcop Hacl1 Hacl2 Hown Hcnt Hpaused Hpausers Hlog Husers Hreqs Hlocs].
    refine (conj _ (conj _ (conj Hcnt (conj Hpaused (conj Hown (conj Hpausers Hok)))))).
    + intros id. unfold Pausable.getRouteRequest.
      destruct (pausable_public_request_eq _ _ (Hreqs id)) as (-> & -> & -> & _ & -> & _).
      done.
    + intros user. unfold Pausable.getUserRoutes, Pausable.routes_of. by rewrite Husers.
  - vm_compute. repeat split.
Qed.

Lemma plaintext_views_independent_of_confidential_inputs_witness :
  Core.getRouteRequest 1
    (Core.run (Core.constructor owner_msg)
       [(requester1,
         Core.RequestRouteOptimization [100; 200; 300] [150; 250; 350] [1; 2; 3] 1000 10)]) =
  Core.getRouteRequest 1
    (Core.run (Core.constructor owner_msg)
       [(requester1, Core.RequestRouteOptimization [7; 8; 9] [1; 1; 1] [3; 3; 3] 5 1)]) ∧
  is_ok (Core.exec owner_msg (Core.ProcessRouteOptimization 1)
    (Core.run (Core.constructor owner_msg)
       [(requester1,
         Core.RequestRouteOptimization [100; 200; 300] [150; 250; 350] [1; 2; 3] 1000 10)])) =
  is_ok (Core.exec owner_msg (Core.ProcessRouteOptimization 1)
    (Core.run (Core.constructor owner_msg)
       [(requester1, Core.RequestRouteOptimization [7; 8; 9] [1; 1; 1] [3; 3; 3] 5 1)])) ∧
  Pausable.getRouteRequest 1
    (Pausable.run (Pausable.deploy true owner_msg)
       [(requester1, Pausable.RequestRouteOptimization 100 150 1 1000 10)]) =
  Pausable.getRouteRequest 1
    (Pausable.run (Pausable.deploy true owner_msg)
       [(requester1, Pausable.RequestRouteOptimization 7 8 3 5 1)]).
Proof.
  destruct plaintext_views_independent_of_confidential_inputs as (Hcore & Hpausable & _).
  destruct (Hcore owner_msg
    [(requester1,
      Core.RequestRouteOptimization [100; 200; 300] [150; 250; 350] [1; 2; 3] 1000 10)]
    [(requester1, Core.RequestRouteOptimization [7; 8; 9] [1; 1; 1] [3; 3; 3] 5 1)]
    (owner_msg, Core.ProcessRouteOptimization 1)
    (owner_msg, Core.ProcessRouteOptimization 1)) as (Hreq & _ & _ & _ & Hok).
  { constructor; [|constructor]. split; [reflexivity|]. simpl. done. }
  { split; reflexivity. }
  destruct (Hpausable true owner_msg
    [(requester1, Pausable.RequestRouteOptimization 100 150 1 1000 10)]
    [(requester1, Pausable.RequestRouteOptimization 7 8 3 5 1)]
    (owner_msg, Pausable.TogglePause) (owner_msg, Pausable.TogglePause))
    as (Hpreq & _).
  { constructor; [|constructor]. split; [reflexivity|]. simpl. done. }
  { split; reflexivity. }
  exact (conj (Hreq 1) (conj Hok (Hpreq 1))).
Defined.

